(** * guidance/models/_mock.py: the mock tokenizer, byte trie and engine

    A shallow embedding of [ByteTrie], [MockTokenizer], [MockEngine] and
    [Mock] from [src/guidance/models/_mock.py], followed by the properties
    the specification states about them.

    Conventions.
    - Python [bytes] are lists of [Byte.byte]; Python [int] is [Z];
      numpy [float64] is the primitive binary64 type [float].
    - A raised exception is a value of [exn]; code that may raise returns
      a [result].
    - Mutable objects are passed and returned explicitly: a method that
      mutates [self] returns the new [self]. *)

From Stdlib Require Import List ZArith Lia Bool Arith Floats Permutation
  Sorted.
From Stdlib Require Strings.Byte.
From Stdlib Require QArith Qcanon.
Import ListNotations.

Set Implicit Arguments.

(* ===================================================================== *)
(** ** Python values *)
(* ===================================================================== *)

Definition bytes := list Byte.byte.

(** The exceptions the module can raise.  Both failures of
    [MockTokenizer.encode] are Python [ValueError]s that differ in their
    message; the specification calls them [UnsupportedOption] and
    [NoMatch(position, byte)]. *)
Inductive exn : Type :=
| ValueError_parse_special
| ValueError_no_match (byte : Byte.byte) (pos : nat)
| IndexError
| UnicodeDecodeError.

Inductive result (A : Type) : Type :=
| Ok (a : A)
| Raise (e : exn).

Arguments Ok {A} a.
Arguments Raise {A} e.

Definition bind {A B} (r : result A) (k : A -> result B) : result B :=
  match r with
  | Ok a => k a
  | Raise e => Raise e
  end.

Notation "x <- r ;; k" := (bind r (fun x => k))
  (at level 61, r at next level, right associativity).
Notation "' p <- r ;; k" := (bind r (fun p => k))
  (at level 61, p pattern, r at next level, right associativity).

Fixpoint mapM {A B} (f : A -> result B) (l : list A) : result (list B) :=
  match l with
  | [] => Ok []
  | a :: l' => b <- f a ;; bs <- mapM f l' ;; Ok (b :: bs)
  end.

(** [l[i]] for a Python sequence: a negative index counts from the end,
    an index outside [-len, len) raises [IndexError]. *)
Definition py_getitem {A} (l : list A) (i : Z) : result A :=
  let n := Z.of_nat (length l) in
  let j := if (i <? 0)%Z then (i + n)%Z else i in
  if ((0 <=? j) && (j <? n))%Z then
    match nth_error l (Z.to_nat j) with
    | Some a => Ok a
    | None => Raise IndexError
    end
  else Raise IndexError.

(** [enumerate(l)], counting from [start]. *)
Fixpoint enumerate_from {A} (start : nat) (l : list A) : list (nat * A) :=
  match l with
  | [] => []
  | a :: l' => (start, a) :: enumerate_from (S start) l'
  end.

Definition enumerate {A} (l : list A) : list (nat * A) := enumerate_from 0 l.

(** [np.arange(n)]. *)
Definition arange (n : nat) : list Z := map Z.of_nat (seq 0 n).

Definition bytes_eqb (a b : bytes) : bool :=
  if list_eq_dec Byte.byte_eq_dec a b then true else false.

(** [s.startswith(t)] on [bytes]. *)
Fixpoint startswith (s t : bytes) : bool :=
  match t, s with
  | [], _ => true
  | _ :: _, [] => false
  | b :: t', a :: s' => Byte.eqb a b && startswith s' t'
  end.

(* ===================================================================== *)
(** ** class ByteTrie *)
(* ===================================================================== *)

(** The trie is generic in the type of its [prob] field: the engine uses
    [float]; the aggregation laws are stated over any type whose addition
    is exact.  The fields [_parent] (a back reference), [match_version],
    [match] and [partial_match] are written once by [__init__] and read
    by no method of this module; they are left out. *)
Section ByteTrie.

Variable F : Type.
Variable fzero : F.
Variable fadd : F -> F -> F.

(** [children] is a Python [dict] keyed by one-byte [bytes]: an
    association list in insertion order. *)
#[local] Unset Elimination Schemes.
Inductive ByteTrie : Type :=
| Node (value : Z) (prob : F) (children : list (Byte.byte * ByteTrie)).

#[local] Set Elimination Schemes.

Definition value (t : ByteTrie) : Z := let (v, _, _) := t in v.
Definition prob (t : ByteTrie) : F := let (_, p, _) := t in p.
Definition children (t : ByteTrie) : list (Byte.byte * ByteTrie) :=
  let (_, _, c) := t in c.

(** [ByteTrie(parent=...)]: no byte strings, so only the field defaults. *)
Definition ByteTrie_new : ByteTrie := Node (-1) fzero [].

Fixpoint dict_get (d : list (Byte.byte * ByteTrie)) (k : Byte.byte)
  : option ByteTrie :=
  match d with
  | [] => None
  | (k', c) :: d' => if Byte.eqb k' k then Some c else dict_get d' k
  end.

(** [d[k] = f(d[k])] for a key that is present. *)
Fixpoint dict_update (d : list (Byte.byte * ByteTrie)) (k : Byte.byte)
  (f : ByteTrie -> ByteTrie) : list (Byte.byte * ByteTrie) :=
  match d with
  | [] => []
  | (k', c) :: d' =>
      if Byte.eqb k' k then (k', f c) :: d' else (k', c) :: dict_update d' k f
  end.

Definition keys (t : ByteTrie) : list Byte.byte := map fst (children t).

Definition has_child (t : ByteTrie) (b : Byte.byte) : bool :=
  match dict_get (children t) b with
  | Some _ => true
  | None => false
  end.

(** [child] raises [KeyError] for an absent byte: [None]. *)
Definition child (t : ByteTrie) (b : Byte.byte) : option ByteTrie :=
  dict_get (children t) b.

Definition size (t : ByteTrie) : nat := length (children t).

(** [insert(s, value, pos)].  The pair [(s, pos)] is carried as the
    suffix [s[pos:]], so [len(s) <= pos] is the empty suffix and
    [s[pos:pos+1]] its head. *)
Fixpoint insert (s : bytes) (v : Z) (t : ByteTrie) {struct s} : ByteTrie :=
  match s with
  | [] => if (value t <? 0)%Z then Node v (prob t) (children t) else t
  | first_byte :: s' =>
      let children' :=
        if has_child t first_byte then children t
        else children t ++ [(first_byte, ByteTrie_new)] in
      Node (value t) (prob t) (dict_update children' first_byte (insert s' v))
  end.

(** The loops of [__init__]. *)
Fixpoint insert_enumerated (t : ByteTrie) (l : list (nat * bytes))
  (values : list Z) : result ByteTrie :=
  match l with
  | [] => Ok t
  | (i, s) :: l' =>
      v <- py_getitem values (Z.of_nat i) ;;
      insert_enumerated (insert s v t) l' values
  end.

Definition ByteTrie_init (byte_strings : option (list bytes))
  (values : option (list Z)) : result ByteTrie :=
  match byte_strings with
  | None => Ok ByteTrie_new
  | Some ss =>
      match values with
      | None => Ok (fold_left (fun t s => insert s 0%Z t) ss ByteTrie_new)
      | Some vs => insert_enumerated ByteTrie_new (enumerate ss) vs
      end
  end.

(** The [for k in self.children] of [compute_probs]: every child is
    recomputed by [rec], in dictionary order, and its new [prob] added
    to [acc]. *)
Fixpoint each_child (rec : ByteTrie -> result ByteTrie)
  (todo : list (Byte.byte * ByteTrie)) (acc : F)
  : result (F * list (Byte.byte * ByteTrie)) :=
  match todo with
  | [] => Ok (acc, [])
  | (k, c) :: todo' =>
      c' <- rec c ;;
      ' (acc', rest) <- each_child rec todo' (fadd acc (prob c')) ;;
      Ok (acc', (k, c') :: rest)
  end.

(** [compute_probs(probs)]: the node's [prob] is reset to zero, its own
    terminal probability is added, then the children's.
    [probs[self.value]] may raise. *)
Fixpoint compute_probs (probs : list F) (t : ByteTrie) : result ByteTrie :=
  match t with
  | Node v _ ch =>
      p0 <- (if (v =? -1)%Z then Ok fzero
             else (p <- py_getitem probs v ;; Ok (fadd fzero p))) ;;
      ' (p, ch') <- each_child (compute_probs probs) ch p0 ;;
      Ok (Node v p ch')
  end.

(** *** Observations on a trie *)

(** Every node of the trie, the root first. *)
Fixpoint nodes (t : ByteTrie) : list ByteTrie :=
  match t with
  | Node _ _ ch => t :: flat_map (fun kc => nodes (snd kc)) ch
  end.

(** The values of the terminal nodes at and below [t]. *)
Fixpoint terminal_values (t : ByteTrie) : list Z :=
  match t with
  | Node v _ ch =>
      (if (v =? -1)%Z then [] else [v])
      ++ flat_map (fun kc => terminal_values (snd kc)) ch
  end.

(** The sum of [probs[v]] over [vs]. *)
Fixpoint sum_at (probs : list F) (vs : list Z) : result F :=
  match vs with
  | [] => Ok fzero
  | v :: vs' =>
      p <- py_getitem probs v ;;
      r <- sum_at probs vs' ;;
      Ok (fadd p r)
  end.

(** The trie with every [prob] put back to zero. *)
Fixpoint reset (t : ByteTrie) : ByteTrie :=
  match t with
  | Node v _ ch => Node v fzero (map (fun kc => (fst kc, reset (snd kc))) ch)
  end.

(** Every value in the trie is a token id or the sentinel. *)
Definition values_from_sentinel (t : ByteTrie) : Prop :=
  Forall (fun n => (-1 <= value n)%Z) (nodes t).

End ByteTrie.

Arguments Node {F} value prob children.
Arguments ByteTrie_new {F} fzero.
(** Induction on a trie, with the property at hand for every child. *)
Section ByteTrie_induction.

Variable F : Type.
Variable P : ByteTrie F -> Prop.
Hypothesis step : forall v p ch,
  Forall (fun kc => P (snd kc)) ch -> P (Node v p ch).

Fixpoint ByteTrie_ind (t : ByteTrie F) : P t :=
  match t with
  | Node v p ch =>
      @step v p ch
        ((fix all (l : list (Byte.byte * ByteTrie F))
            : Forall (fun kc => P (snd kc)) l :=
            match l with
            | [] => Forall_nil _
            | kc :: l' => Forall_cons kc (ByteTrie_ind (snd kc)) (all l')
            end) ch)
  end.

End ByteTrie_induction.

Arguments values_from_sentinel {F} t.
Arguments value {F} t.
Arguments prob {F} t.
Arguments children {F} t.
Arguments child {F} t b.
Arguments has_child {F} t b.

(* ===================================================================== *)
(** ** class MockTokenizer *)
(* ===================================================================== *)

Record MockTokenizer : Type := {
  tokens : list bytes;
  byte_trie : ByteTrie float
}.

(** [__init__]: [special_token_ids] is accepted and ignored, the wrapped
    tokenizer is always built with [special_token_ids=[0]]. *)
Definition MockTokenizer_init (tokens : list bytes)
  (special_token_ids : option (list Z)) : result MockTokenizer :=
  t <- ByteTrie_init 0%float (Some tokens) (Some (arange (length tokens))) ;;
  Ok {| tokens := tokens; byte_trie := t |}.

(** The inner [while] of [encode]: [rest] is [byte_string[match_pos:]].
    The walk goes on while a byte is left and [current_node] has a child
    for it. *)
Fixpoint walk (F : Type) (current_node : ByteTrie F) (rest : bytes)
  (match_pos : nat) (last_match : option (Z * nat)) : option (Z * nat) :=
  match rest with
  | [] => last_match
  | b :: rest' =>
      match child current_node b with
      | None => last_match
      | Some c =>
          walk c rest' (S match_pos)
            (if (value c >=? 0)%Z then Some (value c, S match_pos)
             else last_match)
      end
  end.

(** The outer [while] of [encode].  [None] says the fuel ran out. *)
Fixpoint encode_loop (fuel : nat) (trie : ByteTrie float) (byte_string : bytes)
  (pos : nat) (toks : list Z) : option (result (list Z)) :=
  if pos <? length byte_string then
    match fuel with
    | O => None
    | S fuel' =>
        match walk trie (skipn pos byte_string) pos None with
        | Some (v, end_pos) =>
            encode_loop fuel' trie byte_string end_pos (toks ++ [v])
        | None =>
            Some (Raise (ValueError_no_match (nth pos byte_string Byte.x00) pos))
        end
    end
  else Some (Ok toks).

(** [encode(byte_string, parse_special)].  Every turn of the outer loop
    consumes a byte, so [len(byte_string)] turns are enough. *)
Definition encode (self : MockTokenizer) (byte_string : bytes)
  (parse_special : bool) : option (result (list Z)) :=
  if negb parse_special then Some (Raise ValueError_parse_special)
  else encode_loop (length byte_string) (byte_trie self) byte_string 0 [].

Definition recode (self : MockTokenizer) (toks : list Z) : list Z := toks.

(** Modelled from the spec: the members [MockTokenizer] inherits from the
    [Tokenizer] base class, which is not part of this module.  [decode]
    is the concatenation of each id's vocabulary bytes and fails on an
    id that is out of range; the beginning- and end-of-sequence ids are
    the [0] passed by [__init__], and [bos_token], [eos_token] are their
    bytes. *)
Definition decode (self : MockTokenizer) (ids : list Z) : result bytes :=
  bs <- mapM (fun i => if (i <? 0)%Z then Raise IndexError
                       else py_getitem (tokens self) i) ids ;;
  Ok (concat bs).

Definition bos_token_id (self : MockTokenizer) : Z := 0.
Definition eos_token_id (self : MockTokenizer) : Z := 0.
Definition bos_token (self : MockTokenizer) : result bytes :=
  decode self [bos_token_id self].
Definition eos_token (self : MockTokenizer) : result bytes :=
  decode self [eos_token_id self].

(* ===================================================================== *)
(** ** The vocabulary of [Mock] *)
(* ===================================================================== *)

(** [bytes([i])] for [i] in [range(256)]. *)
Definition byte_of_nat (i : nat) : Byte.byte :=
  match Byte.of_nat i with
  | Some b => b
  | None => Byte.x00
  end.

(** [range(a, b)]. *)
Definition range (a b : nat) : list nat := seq a (b - a).

Definition all_lc_pairs : list bytes :=
  flat_map (fun i => map (fun j => [byte_of_nat i; byte_of_nat j])
                         (range 97 122))
           (range 97 122).

Definition all_bytes : list bytes :=
  map (fun i => [byte_of_nat i]) (range 0 256).

(** [tokens = [b"<s>"] + all_lc_pairs + all_bytes]. *)
Definition Mock_tokens : list bytes :=
  [[Byte.x3c; Byte.x73; Byte.x3e]] ++ all_lc_pairs ++ all_bytes.

(** The tokenizer [Mock] builds, with the trie the loop of
    [ByteTrie.__init__] leaves. *)
Definition tokenizer_of (toks : list bytes) : MockTokenizer :=
  {| tokens := toks;
     byte_trie :=
       fold_left (fun t it => insert 0%float (snd it) (Z.of_nat (fst it)) t)
                 (enumerate toks) (ByteTrie_new 0%float) |}.

Definition Mock_tokenizer : MockTokenizer := tokenizer_of Mock_tokens.

(** The vocabulary of the specification's greedy scenario: "a" is 1,
    "ab" is 2, and every byte is a token. *)
Definition Greedy_tokens : list bytes :=
  [[Byte.x3c; Byte.x73; Byte.x3e]; [Byte.x61]; [Byte.x61; Byte.x62]]
  ++ all_bytes.

(* ===================================================================== *)
(** ** Text and numpy helpers *)
(* ===================================================================== *)

Definition in_range (lo hi c : N) : bool := ((lo <=? c) && (c <=? hi))%N.

(** A continuation byte, [0x80..0xBF]. *)
Definition utf8_cont (b : Byte.byte) : bool :=
  in_range 0x80 0xBF (Byte.to_N b).

(** Whether [s.decode("utf8")] succeeds: Python's strict decoder accepts
    the shortest encodings of the code points up to U+10FFFF, surrogates
    excluded. *)
Fixpoint utf8_valid (s : bytes) : bool :=
  match s with
  | [] => true
  | b1 :: r1 =>
      let c1 := Byte.to_N b1 in
      if (c1 <? 0x80)%N then utf8_valid r1
      else if in_range 0xC2 0xDF c1 then
        match r1 with
        | b2 :: r2 => utf8_cont b2 && utf8_valid r2
        | _ => false
        end
      else if in_range 0xE0 0xEF c1 then
        match r1 with
        | b2 :: b3 :: r3 =>
            let c2 := Byte.to_N b2 in
            (if (c1 =? 0xE0)%N then in_range 0xA0 0xBF c2
             else if (c1 =? 0xED)%N then in_range 0x80 0x9F c2
             else utf8_cont b2)
            && utf8_cont b3 && utf8_valid r3
        | _ => false
        end
      else if in_range 0xF0 0xF4 c1 then
        match r1 with
        | b2 :: b3 :: b4 :: r4 =>
            let c2 := Byte.to_N b2 in
            (if (c1 =? 0xF0)%N then in_range 0x90 0xBF c2
             else if (c1 =? 0xF4)%N then in_range 0x80 0x8F c2
             else utf8_cont b2)
            && utf8_cont b3 && utf8_cont b4 && utf8_valid r4
        | _ => false
        end
      else false
  end.

(** [l[start:]]. *)
Definition slice_from {A} (l : list A) (start : Z) : list A :=
  let n := Z.of_nat (length l) in
  let start' := if (start <? 0)%Z then Z.max 0 (start + n) else Z.min start n in
  skipn (Z.to_nat start') l.

(** [a * b] on two arrays of one length. *)
Fixpoint array_mul (a b : list float) : list float :=
  match a, b with
  | x :: a', y :: b' => (x * y)%float :: array_mul a' b'
  | _, _ => []
  end.

(** [logits[i] += bias]. *)
Fixpoint add_at (logits : list float) (i : nat) (bias : float) : list float :=
  match logits, i with
  | [], _ => []
  | x :: l, O => (x + bias)%float :: l
  | x :: l, S i' => x :: add_at l i' bias
  end.

(** [bias /= 2]. *)
Definition halve (b : float) : float := (b / 2)%float.

(** [bias], [bias / 2], [bias / 4], ...: [k] of them. *)
Fixpoint halvings (bias : float) (k : nat) : list float :=
  match k with
  | O => []
  | S k' => bias :: halvings (bias / 2)%float k'
  end.

(** A run of [logits[i] += b], in order. *)
Definition add_all (logits : list float) (updates : list (nat * float))
  : list float :=
  fold_left (fun l u => add_at l (fst u) (snd u)) updates logits.

(** A score that is minus infinity or not a number: no finite score. *)
Definition blocked (x : float) : Prop :=
  Prim2SF x = S754_infinity true \/ Prim2SF x = S754_nan.

(* ===================================================================== *)
(** ** The records of [_schema] *)
(* ===================================================================== *)

(** A Python [str] is kept as its UTF-8 encoding.  [GenToken.prob] is
    [None] where the caller does not pass it. *)
Module GenToken.
Record t : Type := {
  token_id : Z;
  prob : option float;
  bytes : list Byte.byte
}.
End GenToken.

Module GenTokenExtra.
Record t : Type := {
  token_id : Z;
  prob : float;
  bytes : list Byte.byte;
  top_k : list GenToken.t
}.
End GenTokenExtra.

(* ===================================================================== *)
(** ** class MockEngine *)
(* ===================================================================== *)

Section MockEngine.

(** numpy's generator and [argsort], [softmax] of [_utils] and the
    sampling of the [Engine] base class are not part of this module:
    they are parameters. *)
Variable rng : Type.
Variable default_rng : Z -> rng.
Variable standard_normal : rng -> nat -> list float * rng.
Variable argsort : list float -> list nat.
Variable softmax : list float -> list float.
Variable Engine_sample_with_temperature :
  list float -> option bytes -> float -> Z.
Variable EngineOutput : Type.
Variable Engine_get_next_token_with_top_k :
  option (list float) -> option float -> list Z -> option bytes -> float ->
  Z -> bool -> EngineOutput.

Record MockEngine : Type := {
  tokenizer : MockTokenizer;
  compute_log_probs : bool;
  _valid_mask : list float;
  force : bool;
  called_temperatures : list float;
  byte_patterns : list bytes;
  _rand_generator : rng
}.

(** [__init__].  The constructor also takes a single pattern or [str]
    patterns and turns them into a list of [bytes]; [byte_patterns] is
    that list. *)
Definition MockEngine_init (tokenizer : MockTokenizer)
  (byte_patterns : list bytes) (compute_log_probs force : bool) : MockEngine :=
  {| tokenizer := tokenizer;
     compute_log_probs := compute_log_probs;
     _valid_mask :=
       map (fun t => if utf8_valid t then 1%float else 0%float)
           (tokens tokenizer);
     force := force;
     called_temperatures := [];
     byte_patterns := byte_patterns;
     _rand_generator := default_rng 42 |}.

Definition set_rand_generator (self : MockEngine) (g : rng) : MockEngine :=
  {| tokenizer := tokenizer self;
     compute_log_probs := compute_log_probs self;
     _valid_mask := _valid_mask self;
     force := force self;
     called_temperatures := called_temperatures self;
     byte_patterns := byte_patterns self;
     _rand_generator := g |}.

Definition record_temperature (self : MockEngine) (temperature : float)
  : MockEngine :=
  {| tokenizer := tokenizer self;
     compute_log_probs := compute_log_probs self;
     _valid_mask := _valid_mask self;
     force := force self;
     called_temperatures := called_temperatures self ++ [temperature];
     byte_patterns := byte_patterns self;
     _rand_generator := _rand_generator self |}.

Definition sample_with_temperature (self : MockEngine) (logits : list float)
  (mask : option bytes) (temperature : float) : Z * MockEngine :=
  (Engine_sample_with_temperature logits mask temperature,
   record_temperature self temperature).

Definition get_next_token_with_top_k (self : MockEngine)
  (logits : option (list float)) (logits_lat_ms : option float)
  (token_ids : list Z) (mask : option bytes) (temperature : float) (k : Z)
  (force_return_unmasked_probs : bool) : EngineOutput * MockEngine :=
  (Engine_get_next_token_with_top_k logits logits_lat_ms token_ids mask
     temperature k force_return_unmasked_probs,
   record_temperature self temperature).

(** [_get_next_tokens(byte_string)], as the list the generator yields. *)
Definition _get_next_tokens (self : MockEngine) (byte_string : bytes)
  : result (list nat) :=
  let tk := tokenizer self in
  bos <- bos_token tk ;;
  eos <- eos_token tk ;;
  let special_tokens := [(bos_token_id tk, bos); (eos_token_id tk, eos)] in
  match List.find (fun it => startswith byte_string (snd it)) special_tokens with
  | Some (i, _) => Ok [Z.to_nat i]
  | None =>
      Ok (map fst (filter (fun it => startswith byte_string (snd it))
                          (enumerate (tokens tk))))
  end.

(** The inner [for] of [get_logits]: every yielded token gets the bias,
    and the bias is halved after every one of them. *)
Fixpoint add_biases (logits : list float) (bias : float) (ids : list nat)
  : list float * float :=
  match ids with
  | [] => (logits, bias)
  | i :: ids' => add_biases (add_at logits i bias) (bias / 2)%float ids'
  end.

(** The outer [for] of [get_logits]. *)
Fixpoint bias_patterns (self : MockEngine) (byte_string : bytes)
  (logits : list float) (bias : float) (patterns : list bytes)
  : result (list float * float) :=
  match patterns with
  | [] => Ok (logits, bias)
  | p :: patterns' =>
      if startswith p byte_string && (length byte_string <? length p) then
        ids <- _get_next_tokens self (skipn (length byte_string) p) ;;
        let (logits', bias') := add_biases logits bias ids in
        bias_patterns self byte_string logits' bias' patterns'
      else bias_patterns self byte_string logits bias patterns'
  end.

(** The two branches on [self.force] of [get_logits]: the scores before
    any bias, and the generator after them. *)
Definition initial_logits (self : MockEngine) : list float * rng :=
  let n := length (tokens (tokenizer self)) in
  if force self then
    (map (fun one => (one * neg_infinity)%float) (repeat 1%float n),
     _rand_generator self)
  else
    let (z, g) := standard_normal (_rand_generator self) n in
    (array_mul z (_valid_mask self), g).

(** [get_logits(token_ids)]: the logits, and the engine with its
    generator advanced. *)
Definition get_logits (self : MockEngine) (token_ids : list Z)
  : result (list float * MockEngine) :=
  pieces <- mapM (py_getitem (tokens (tokenizer self))) token_ids ;;
  let byte_string := concat pieces in
  let (logits, g) := initial_logits self in
  let bias := 100%float in
  ' (logits', _) <-
    bias_patterns self byte_string logits bias (byte_patterns self) ;;
  Ok (logits', set_rand_generator self g).

(** [self.tokenizer.decode([token_id]).decode("utf8")]. *)
Definition decode_text (self : MockEngine) (token_id : Z) : result bytes :=
  b <- decode (tokenizer self) [token_id] ;;
  if utf8_valid b then Ok b else Raise UnicodeDecodeError.

(** [argsort(_logits)[-top_k:][::-1]] as a list of ids. *)
Definition top_k_ids (logits : list float) (top_k : Z) : list Z :=
  map Z.of_nat (rev (slice_from (argsort logits) (- top_k))).

(** The list [top_k_indices] of one turn of the loop of
    [get_per_token_topk_probs]: the top [k], and the token of the
    position where it is not among them. *)
Definition candidates (_logits : list float) (top_k : Z) (actual : Z)
  : list Z :=
  let top_k_indices := top_k_ids _logits top_k in
  if existsb (Z.eqb actual) top_k_indices then top_k_indices
  else top_k_indices ++ [actual].

(** One turn of that loop.  The inner [for token_id in top_k_indices]
    rebinds [token_id], which is read again when the entry is built. *)
Definition topk_position (self : MockEngine) (token_ids : list Z) (top_k : Z)
  (i : nat) : result (GenTokenExtra.t * MockEngine) :=
  token_id <- py_getitem token_ids (Z.of_nat i) ;;
  '(_logits, self') <- get_logits self (firstn i token_ids) ;;
  let _probs := softmax _logits in
  let top_k_indices := candidates _logits top_k token_id in
  top_k_result <-
    mapM (fun token_id =>
            p <- py_getitem _probs token_id ;;
            b <- decode_text self token_id ;;
            Ok {| GenToken.token_id := token_id;
                  GenToken.prob := Some p;
                  GenToken.bytes := b |})
         top_k_indices ;;
  let token_id := last top_k_indices token_id in
  p <- py_getitem _probs token_id ;;
  b <- decode_text self token_id ;;
  Ok ({| GenTokenExtra.token_id := token_id;
         GenTokenExtra.prob := p;
         GenTokenExtra.bytes := b;
         GenTokenExtra.top_k := top_k_result |}, self').

Fixpoint topk_loop (self : MockEngine) (token_ids : list Z) (top_k : Z)
  (positions : list nat) : result (list GenTokenExtra.t * MockEngine) :=
  match positions with
  | [] => Ok ([], self)
  | i :: positions' =>
      '(entry, self1) <- topk_position self token_ids top_k i ;;
      '(entries, self2) <- topk_loop self1 token_ids top_k positions' ;;
      Ok (entry :: entries, self2)
  end.

(** The token list the loop runs over: the input, with the
    beginning-of-sequence id in front where the input does not start
    with it. *)
Definition with_bos (self : MockEngine) (token_ids : list Z)
  : list Z * bool :=
  match token_ids with
  | first :: _ =>
      if negb (first =? bos_token_id (tokenizer self))%Z
      then (bos_token_id (tokenizer self) :: token_ids, true)
      else (token_ids, false)
  | [] => (token_ids, false)
  end.

(** [get_per_token_topk_probs(token_ids, top_k)]. *)
Definition get_per_token_topk_probs (self : MockEngine) (token_ids : list Z)
  (top_k : Z) : result (list GenTokenExtra.t * MockEngine) :=
  match token_ids with
  | [] => Ok ([], self)
  | _ :: _ =>
      _ <- bos_token (tokenizer self) ;;
      let (token_ids, added_bos) := with_bos self token_ids in
      first <- py_getitem token_ids 0 ;;
      b <- decode_text self first ;;
      let entry0 :=
        {| GenTokenExtra.token_id := first;
           GenTokenExtra.prob := 1%float;
           GenTokenExtra.bytes := b;
           GenTokenExtra.top_k :=
             [{| GenToken.token_id := first;
                 GenToken.prob := None;
                 GenToken.bytes := b |}] |} in
      '(entries, self') <-
        topk_loop self token_ids top_k (range 1 (length token_ids)) ;;
      let result_list := entry0 :: entries in
      Ok ((if added_bos then tl result_list else result_list), self')
  end.

(** A run of [get_logits] calls on one engine, in order. *)
Fixpoint get_logits_calls (self : MockEngine) (calls : list (list Z))
  : result (list (list float)) :=
  match calls with
  | [] => Ok []
  | token_ids :: calls' =>
      '(logits, self') <- get_logits self token_ids ;;
      rest <- get_logits_calls self' calls' ;;
      Ok (logits :: rest)
  end.

(** [Mock.__init__], up to the engine it hands to the interpreter. *)
Definition Mock_init (byte_patterns : list bytes)
  (compute_log_probs force : bool) : result MockEngine :=
  tokenizer <- MockTokenizer_init Mock_tokens (Some [0%Z]) ;;
  Ok (MockEngine_init tokenizer byte_patterns compute_log_probs force).

(** *** Observations on the engine *)

(** The tokens the generator yields for the patterns that match
    [byte_string], pattern after pattern. *)
Fixpoint yielded (self : MockEngine) (byte_string : bytes)
  (patterns : list bytes) : result (list nat) :=
  match patterns with
  | [] => Ok []
  | p :: patterns' =>
      if startswith p byte_string && (length byte_string <? length p) then
        ids <- _get_next_tokens self (skipn (length byte_string) p) ;;
        rest <- yielded self byte_string patterns' ;;
        Ok (ids ++ rest)
      else yielded self byte_string patterns'
  end.

(** What one turn of the loop reports: the last of the candidates, which
    is the token of the position only where that token was appended or
    happens to be ranked last. *)
Definition reports (token_ids : list Z) (top_k : Z) (i : nat)
  (entry : GenTokenExtra.t) : Prop :=
  exists (self self' : MockEngine) (actual : Z) (logits : list float),
    nth_error token_ids i = Some actual /\
    get_logits self (firstn i token_ids) = Ok (logits, self') /\
    GenTokenExtra.token_id entry
      = last (candidates logits top_k actual) actual /\
    py_getitem (softmax logits) (GenTokenExtra.token_id entry)
      = Ok (GenTokenExtra.prob entry).

(** An engine over a non-empty vocabulary of well-formed UTF-8 tokens,
    with a mask entry for every token. *)
Definition text_vocabulary (self : MockEngine) : Prop :=
  tokens (tokenizer self) <> [] /\
  length (_valid_mask self) = length (tokens (tokenizer self)) /\
  Forall (fun t => utf8_valid t = true) (tokens (tokenizer self)).

(** The ids of the vocabulary. *)
Definition valid_id (self : MockEngine) (id : Z) : Prop :=
  (0 <= id < Z.of_nat (length (tokens (tokenizer self))))%Z.

(** Two engines that differ at most in [compute_log_probs] and in the
    temperatures they have recorded. *)
Definition same_configuration (e1 e2 : MockEngine) : Prop :=
  tokenizer e1 = tokenizer e2 /\
  _valid_mask e1 = _valid_mask e2 /\
  force e1 = force e2 /\
  byte_patterns e1 = byte_patterns e2 /\
  _rand_generator e1 = _rand_generator e2.

End MockEngine.

(* ===================================================================== *)
(** ** Stand-ins for the parameters *)
(* ===================================================================== *)

(** Executable instances of the engine's parameters, used to run the
    model on concrete inputs: a fixed pseudo-random sequence with samples
    in [[-2, 2]], a stable sort, and a normalisation in place of
    [softmax].  No property below depends on them. *)
Module Standin.

Definition rng : Type := Z.

Definition default_rng (seed : Z) : rng := seed.

Definition next (g : rng) : rng := ((g * 1103515245 + 12345) mod 2147483648)%Z.

Definition sample (g : rng) : float :=
  ((PrimFloat.of_uint63 (Uint63.of_Z (g mod 2001)) - 1000) / 500)%float.

Fixpoint standard_normal (g : rng) (n : nat) : list float * rng :=
  match n with
  | O => ([], g)
  | S n' =>
      let g1 := next g in
      let (l, g2) := standard_normal g1 n' in
      (sample g1 :: l, g2)
  end.

Fixpoint place (x : float * nat) (sorted : list (float * nat))
  : list (float * nat) :=
  match sorted with
  | [] => [x]
  | y :: sorted' =>
      if (fst x <? fst y)%float then x :: sorted else y :: place x sorted'
  end.

Definition argsort (l : list float) : list nat :=
  map snd (fold_left (fun sorted x => place x sorted)
                     (combine l (seq 0 (length l))) []).

(** A generator whose samples are all zero. *)
Definition zeros (g : rng) (n : nat) : list float * rng :=
  (repeat 0%float n, g).

Definition softmax (l : list float) : list float :=
  let total := fold_left (fun a x => (a + x)%float) l 0%float in
  map (fun x => (x / total)%float) l.

Definition Engine_sample_with_temperature (logits : list float)
  (mask : option bytes) (temperature : float) : Z := 0.

End Standin.

(* ===================================================================== *)
(** ** Concrete inputs *)
(* ===================================================================== *)

Definition cat : bytes := [Byte.x63; Byte.x61; Byte.x74].
Definition cow : bytes := [Byte.x63; Byte.x6f; Byte.x77].

(** [b"<s>ab"]. *)
Definition bos_ab : bytes :=
  [Byte.x3c; Byte.x73; Byte.x3e; Byte.x61; Byte.x62].

(** The engine of [Mock(byte_patterns, compute_log_probs, force)] over
    the stand-in generator. *)
Definition Mock_engine (byte_patterns : list bytes)
  (compute_log_probs force : bool) : MockEngine Standin.rng :=
  MockEngine_init Standin.default_rng Mock_tokenizer byte_patterns
                  compute_log_probs force.

(** A vocabulary of text tokens only: "<s>", "a", "b", "ab". *)
Definition Text_tokens : list bytes :=
  [[Byte.x3c; Byte.x73; Byte.x3e]; [Byte.x61]; [Byte.x62];
   [Byte.x61; Byte.x62]].

Definition Text_engine : MockEngine Standin.rng :=
  MockEngine_init Standin.default_rng (tokenizer_of Text_tokens) [] false false.

(* ===================================================================== *)
(** ** Observations used to state the properties *)
(* ===================================================================== *)

(** The node reached from [t] along [path], if there is one. *)
Fixpoint find_node (F : Type) (t : ByteTrie F) (path : bytes)
  : option (ByteTrie F) :=
  match path with
  | [] => Some t
  | b :: path' =>
      match child t b with
      | Some c => find_node c path'
      | None => None
      end
  end.

(** The [value] stored for [path]: that of the node reached, and the
    sentinel [-1] where the trie has no such node. *)
Definition value_at (F : Type) (t : ByteTrie F) (path : bytes) : Z :=
  match find_node t path with
  | Some n => value n
  | None => (-1)%Z
  end.

(** The first id at or after [i] whose vocabulary bytes are [p], or [-1]. *)
Fixpoint index_from (i : nat) (toks : list bytes) (p : bytes) : Z :=
  match toks with
  | [] => (-1)%Z
  | s :: toks' =>
      if bytes_eqb p s then Z.of_nat i else index_from (S i) toks' p
  end.

Definition token_index (toks : list bytes) (p : bytes) : Z :=
  index_from 0 toks p.

(** The longest non-empty prefix [q] of [rest] with [0 <= f q], as
    [(f q, len q)]. *)
Fixpoint longest (f : bytes -> Z) (rest : bytes) : option (Z * nat) :=
  match rest with
  | [] => None
  | b :: rest' =>
      match longest (fun q => f (b :: q)) rest' with
      | Some (v, k) => Some (v, S k)
      | None => if (f [b] >=? 0)%Z then Some (f [b], 1) else None
      end
  end.

(** Greedy longest-match in the specification's words: the input is cut
    into vocabulary entries from the left, every piece is the longest
    vocabulary entry that is a non-empty prefix of what is left, and it
    is reported by its first id. *)
Inductive greedy (toks : list bytes) : bytes -> list Z -> Prop :=
| greedy_done : greedy toks [] []
| greedy_emit (t s : bytes) (ids : list Z) :
    t <> [] ->
    In t toks ->
    (forall t', In t' toks -> t' <> [] -> startswith (t ++ s) t' = true ->
                length t' <= length t) ->
    greedy toks s ids ->
    greedy toks (t ++ s) (token_index toks t :: ids).

(** No vocabulary entry is a non-empty prefix of [rest]. *)
Definition no_match (toks : list bytes) (rest : bytes) : Prop :=
  forall t, In t toks -> t <> [] -> startswith rest t = false.

(** The positions the greedy scan visits once it stands at [pos]. *)
Inductive scan_from (toks : list bytes) (s : bytes) : nat -> nat -> Prop :=
| scan_here (pos : nat) : scan_from toks s pos pos
| scan_next (pos k : nat) (v : Z) (p : nat) :
    longest (token_index toks) (skipn pos s) = Some (v, k) ->
    scan_from toks s (pos + k) p ->
    scan_from toks s pos p.

(* ===================================================================== *)
(** ** Further observations *)
(* ===================================================================== *)

(** Whether the trie has a node for [path]. *)
Definition has_node (F : Type) (t : ByteTrie F) (path : bytes) : bool :=
  match find_node t path with
  | Some _ => true
  | None => false
  end.

(** The keys of every node's [children] are distinct, as those of a
    Python [dict] are. *)
Definition keys_unique (F : Type) (t : ByteTrie F) : Prop :=
  Forall (fun n => NoDup (keys n)) (nodes t).

(** A score that is a number, not an infinity or a NaN. *)
Definition finite_score (x : float) : Prop :=
  match Prim2SF x with
  | S754_zero _ | S754_finite _ _ _ => True
  | _ => False
  end.

(** A score that is zero, of either sign. *)
Definition zero_score (x : float) : Prop :=
  exists s, Prim2SF x = S754_zero s.

(** No pattern has [byte_string] as a proper prefix. *)
Definition no_pattern_ahead (patterns : list bytes) (byte_string : bytes)
  : Prop :=
  Forall (fun p => startswith p byte_string
                   && (length byte_string <? length p) = false) patterns.

Section Turns.

Variable rng : Type.
Variable standard_normal : rng -> nat -> list float * rng.
Variable argsort : list float -> list nat.
Variable softmax : list float -> list float.

(** An alternative as the inner loop of [get_per_token_topk_probs]
    builds it: its probability is [softmax] of the turn's logits at its
    id, and its text the bytes of its token, which are UTF-8. *)
Definition alternative_of (tk : MockTokenizer) (logits : list float)
  (g : GenToken.t) : Prop :=
  exists p b,
    py_getitem (softmax logits) (GenToken.token_id g) = Ok p /\
    GenToken.prob g = Some p /\
    decode tk [GenToken.token_id g] = Ok b /\
    utf8_valid b = true /\
    GenToken.bytes g = b.

(** The alternatives of the entry of turn [i]: one for every candidate
    of the turn, in their order. *)
Definition turn (tk : MockTokenizer) (token_ids : list Z) (top_k : Z)
  (i : nat) (entry : GenTokenExtra.t) : Prop :=
  exists (self self' : MockEngine rng) (actual : Z) (logits : list float),
    tokenizer self = tk /\
    nth_error token_ids i = Some actual /\
    get_logits standard_normal self (firstn i token_ids)
      = Ok (logits, self') /\
    map GenToken.token_id (GenTokenExtra.top_k entry)
      = candidates argsort logits top_k actual /\
    Forall (alternative_of tk logits) (GenTokenExtra.top_k entry).

End Turns.

(** The entry [get_per_token_topk_probs] makes up for the first token. *)
Definition anchor_entry (token_id : Z) (text : bytes) : GenTokenExtra.t :=
  {| GenTokenExtra.token_id := token_id;
     GenTokenExtra.prob := 1%float;
     GenTokenExtra.bytes := text;
     GenTokenExtra.top_k :=
       [{| GenToken.token_id := token_id;
           GenToken.prob := None;
           GenToken.bytes := text |}] |}.

(* ===================================================================== *)
(** * Properties *)
(* ===================================================================== *)

Unset Implicit Arguments.

(** ** Bytes and Python sequences *)

Lemma byte_eqb_refl (b : Byte.byte) : Byte.eqb b b = true.
Proof. now apply Byte.byte_dec_lb. Qed.

Lemma byte_eqb_eq (a b : Byte.byte) : Byte.eqb a b = true <-> a = b.
Proof.
  split; [apply Byte.byte_dec_bl | apply Byte.byte_dec_lb].
Qed.

Lemma byte_eqb_neq (a b : Byte.byte) : Byte.eqb a b = false <-> a <> b.
Proof.
  split.
  - apply Byte.eqb_false.
  - intros Hne. destruct (Byte.eqb a b) eqn:E; [|reflexivity].
    apply byte_eqb_eq in E. contradiction.
Qed.

Lemma bytes_eqb_eq (a b : bytes) : bytes_eqb a b = true <-> a = b.
Proof.
  unfold bytes_eqb. destruct (list_eq_dec Byte.byte_eq_dec a b); split;
    intros; congruence.
Qed.

Lemma bytes_eqb_refl (a : bytes) : bytes_eqb a a = true.
Proof. now apply bytes_eqb_eq. Qed.

Lemma bytes_eqb_neq (a b : bytes) : bytes_eqb a b = false <-> a <> b.
Proof.
  unfold bytes_eqb. destruct (list_eq_dec Byte.byte_eq_dec a b); split;
    intros; congruence.
Qed.

Lemma bytes_eqb_cons (a b : Byte.byte) (p q : bytes) :
  bytes_eqb (a :: p) (b :: q) = Byte.eqb a b && bytes_eqb p q.
Proof.
  destruct (Byte.eqb a b) eqn:E1; destruct (bytes_eqb p q) eqn:E2; simpl.
  - apply byte_eqb_eq in E1. apply bytes_eqb_eq in E2. subst.
    apply bytes_eqb_refl.
  - apply bytes_eqb_neq in E2. apply bytes_eqb_neq. congruence.
  - apply byte_eqb_neq in E1. apply bytes_eqb_neq. congruence.
  - apply byte_eqb_neq in E1. apply bytes_eqb_neq. congruence.
Qed.

Lemma startswith_app (t s : bytes) : startswith (t ++ s) t = true.
Proof.
  induction t as [|b t IH]; simpl; [now destruct s|].
  now rewrite byte_eqb_refl.
Qed.

Lemma startswith_split (s t : bytes) :
  startswith s t = true <-> exists r, s = t ++ r.
Proof.
  revert s. induction t as [|b t IH]; intros s.
  - split; [intros _; now exists s | now destruct s].
  - destruct s as [|a s]; cbn [startswith].
    + split; [discriminate | intros [r Hr]; discriminate].
    + destruct (Byte.eqb a b) eqn:E; cbn [andb].
      * apply byte_eqb_eq in E. subst a. rewrite IH. split.
        -- intros [r ->]. now exists r.
        -- intros [r Hr]. injection Hr as ->. now exists r.
      * apply byte_eqb_neq in E. split; [discriminate|].
        intros [r Hr]. injection Hr as -> _. contradiction.
Qed.

Lemma py_getitem_nat (A : Type) (l : list A) (i : nat) (a : A) :
  nth_error l i = Some a -> py_getitem l (Z.of_nat i) = Ok a.
Proof.
  intros H. unfold py_getitem.
  assert (i < length l) by (apply nth_error_Some; congruence).
  destruct (Z.ltb_spec (Z.of_nat i) 0); [lia|].
  destruct (Z.leb_spec 0 (Z.of_nat i)); [|lia].
  destruct (Z.ltb_spec (Z.of_nat i) (Z.of_nat (length l))); [|lia].
  simpl. now rewrite Nat2Z.id, H.
Qed.

Lemma nth_error_arange (n i : nat) :
  i < n -> nth_error (arange n) i = Some (Z.of_nat i).
Proof.
  intros H. unfold arange. rewrite nth_error_map, nth_error_seq.
  destruct (Nat.ltb_spec i n); [reflexivity | lia].
Qed.

(** ** The trie as a table from paths to values *)

Section TrieFacts.

Variable F : Type.
Variable fzero : F.

Local Abbreviation trie := (ByteTrie F).

Lemma dict_get_update_same (d : list (Byte.byte * trie)) k f :
  dict_get (dict_update d k f) k = option_map f (dict_get d k).
Proof.
  induction d as [|[k' c] d IH]; simpl; [reflexivity|].
  destruct (Byte.eqb k' k) eqn:E; simpl; rewrite E; auto.
Qed.

Lemma dict_get_update_other (d : list (Byte.byte * trie)) k k' f :
  k <> k' -> dict_get (dict_update d k f) k' = dict_get d k'.
Proof.
  intros Hne. induction d as [|[k0 c] d IH]; simpl; [reflexivity|].
  destruct (Byte.eqb k0 k) eqn:E; simpl.
  - apply byte_eqb_eq in E. subst k0.
    apply byte_eqb_neq in Hne. now rewrite Hne.
  - now rewrite IH.
Qed.

Lemma dict_get_app_new (d : list (Byte.byte * trie)) k c k' :
  dict_get (d ++ [(k, c)]) k' =
  match dict_get d k' with
  | Some x => Some x
  | None => if Byte.eqb k k' then Some c else None
  end.
Proof.
  induction d as [|[k0 c0] d IH]; simpl; [reflexivity|].
  now destruct (Byte.eqb k0 k').
Qed.

Lemma dict_update_fixed (d : list (Byte.byte * trie)) k f c :
  dict_get d k = Some c -> f c = c -> dict_update d k f = d.
Proof.
  intros Hget Hf. induction d as [|[k0 c0] d IH]; simpl in *; [reflexivity|].
  destruct (Byte.eqb k0 k).
  - injection Hget as ->. now rewrite Hf.
  - now rewrite IH.
Qed.

Lemma value_at_new (p : bytes) : value_at (ByteTrie_new fzero) p = (-1)%Z.
Proof. destruct p; reflexivity. Qed.

Lemma value_at_cons (t : trie) b p :
  value_at t (b :: p) =
  match child t b with
  | Some c => value_at c p
  | None => (-1)%Z
  end.
Proof. unfold value_at. simpl. now destruct (child t b). Qed.

(** The child [insert] descends into: the existing one, or the fresh
    node it has just created. *)
Lemma child_insert_same (t : trie) b s v :
  child (insert fzero (b :: s) v t) b =
  Some (insert fzero s v (match child t b with
                          | Some c => c
                          | None => ByteTrie_new fzero
                          end)).
Proof.
  destruct t as [v0 p0 ch]. cbn [insert]. unfold child, has_child.
  cbn [children]. rewrite dict_get_update_same.
  destruct (dict_get ch b) eqn:E; simpl.
  - now rewrite E.
  - now rewrite dict_get_app_new, E, byte_eqb_refl.
Qed.

Lemma child_insert_other (t : trie) b b' s v :
  b <> b' -> child (insert fzero (b :: s) v t) b' = child t b'.
Proof.
  intros Hne. destruct t as [v0 p0 ch]. cbn [insert].
  unfold child, has_child. cbn [children].
  rewrite dict_get_update_other by assumption.
  destruct (dict_get ch b) eqn:E; [reflexivity|].
  rewrite dict_get_app_new.
  destruct (dict_get ch b'); [reflexivity|].
  apply byte_eqb_neq in Hne. now rewrite Hne.
Qed.

(** [insert] changes the table at [s] only, and only where it held no
    value. *)
Lemma value_at_insert (s : bytes) (v : Z) (t : trie) (p : bytes) :
  value_at (insert fzero s v t) p =
  if bytes_eqb p s then
    (if (value_at t s <? 0)%Z then v else value_at t s)
  else value_at t p.
Proof.
  revert t p. induction s as [|b s IH]; intros t p.
  - destruct p as [|a p].
    + simpl. unfold value_at; simpl.
      destruct (value t <? 0)%Z; reflexivity.
    + replace (bytes_eqb (a :: p) []) with false
        by (symmetry; apply bytes_eqb_neq; discriminate).
      rewrite !value_at_cons. unfold child. simpl.
      destruct (value t <? 0)%Z; reflexivity.
  - destruct p as [|a p].
    + replace (bytes_eqb [] (b :: s)) with false
        by (symmetry; apply bytes_eqb_neq; discriminate).
      reflexivity.
    + rewrite bytes_eqb_cons. rewrite (value_at_cons t b s).
      rewrite (value_at_cons t a p), value_at_cons.
      destruct (Byte.eqb a b) eqn:E; cbn [andb].
      * apply byte_eqb_eq in E. subst a.
        rewrite child_insert_same, IH.
        destruct (child t b); [reflexivity|].
        now rewrite !value_at_new.
      * apply byte_eqb_neq in E.
        rewrite child_insert_other by congruence. reflexivity.
Qed.

(** On a path that already carries a value, [insert] returns the trie
    it was given. *)
Lemma insert_occupied (s : bytes) (v : Z) (t : trie) :
  (0 <= value_at t s)%Z -> insert fzero s v t = t.
Proof.
  revert t. induction s as [|b s IH]; intros t H.
  - unfold value_at in H; simpl in H. simpl.
    destruct (Z.ltb_spec (value t) 0); [lia|reflexivity].
  - rewrite value_at_cons in H. simpl. unfold has_child.
    unfold child in H.
    destruct (dict_get (children t) b) as [c|] eqn:E; [|lia].
    rewrite (dict_update_fixed _ _ _ _ E) by now apply IH.
    now destruct t.
Qed.

End TrieFacts.

(** ** The vocabulary as a table *)

Lemma index_from_range (i : nat) (toks : list bytes) (p : bytes) :
  index_from i toks p = (-1)%Z \/
  exists j, index_from i toks p = Z.of_nat (i + j) /\
            nth_error toks j = Some p /\
            forall j', j' < j -> nth_error toks j' <> Some p.
Proof.
  revert i. induction toks as [|s toks IH]; intros i; simpl.
  - now left.
  - destruct (bytes_eqb p s) eqn:E.
    + apply bytes_eqb_eq in E. subst s. right. exists 0.
      rewrite Nat.add_0_r. split; [reflexivity|]. split; [reflexivity|].
      intros j' Hj'. lia.
    + apply bytes_eqb_neq in E.
      destruct (IH (S i)) as [H | [j [H1 [H2 H3]]]]; [now left|].
      right. exists (S j). rewrite H1. split; [f_equal; lia|].
      split; [exact H2|].
      intros [|j'] Hj'; simpl; [congruence | apply H3; lia].
Qed.

Lemma index_from_In (i : nat) (toks : list bytes) (p : bytes) :
  (0 <= index_from i toks p)%Z <-> In p toks.
Proof.
  revert i. induction toks as [|s toks IH]; intros i; simpl.
  - split; [lia | tauto].
  - destruct (bytes_eqb p s) eqn:E.
    + apply bytes_eqb_eq in E. split; [now left | lia].
    + apply bytes_eqb_neq in E. rewrite IH. split; [tauto|].
      intros [H|H]; [congruence | assumption].
Qed.

Lemma token_index_In (toks : list bytes) (p : bytes) :
  (0 <= token_index toks p)%Z <-> In p toks.
Proof. apply index_from_In. Qed.

Lemma token_index_getitem (toks : list bytes) (p : bytes) :
  In p toks -> py_getitem toks (token_index toks p) = Ok p.
Proof.
  intros H. apply token_index_In in H. unfold token_index in *.
  destruct (index_from_range 0 toks p) as [E | [j [E [Hj _]]]]; [lia|].
  rewrite E. now apply py_getitem_nat.
Qed.

(** ** Longest prefixes *)

Lemma longest_ext (f g : bytes -> Z) (rest : bytes) :
  (forall q, f q = g q) -> longest f rest = longest g rest.
Proof.
  revert f g. induction rest as [|b rest IH]; intros f g H; simpl.
  - reflexivity.
  - rewrite (IH (fun q => f (b :: q)) (fun q => g (b :: q)))
      by (intros q; apply H).
    now rewrite H.
Qed.

Lemma longest_negative (f : bytes -> Z) (rest : bytes) :
  (forall q, (f q < 0)%Z) -> longest f rest = None.
Proof.
  revert f. induction rest as [|b rest IH]; intros f H; simpl.
  - reflexivity.
  - rewrite IH by (intros q; apply H).
    specialize (H [b]). destruct (Z.geb_spec (f [b]) 0); [lia | reflexivity].
Qed.

Lemma startswith_cons_inv (a : Byte.byte) (s q : bytes) :
  q <> [] -> startswith (a :: s) q = true ->
  exists q', q = a :: q' /\ startswith s q' = true.
Proof.
  intros Hq H. destruct q as [|b q]; [contradiction|].
  cbn [startswith] in H. apply andb_true_iff in H. destruct H as [H1 H2].
  apply byte_eqb_eq in H1. subst b. now exists q.
Qed.

Lemma longest_spec (f : bytes -> Z) (rest : bytes) :
  match longest f rest with
  | Some (v, k) =>
      1 <= k <= length rest /\ v = f (firstn k rest) /\ (0 <= v)%Z /\
      forall q, startswith rest q = true -> k < length q -> (f q < 0)%Z
  | None =>
      forall q, q <> [] -> startswith rest q = true -> (f q < 0)%Z
  end.
Proof.
  revert f. induction rest as [|b rest IH]; intros f; simpl.
  - intros [|a q] Hq H; [contradiction | discriminate].
  - specialize (IH (fun q => f (b :: q))).
    destruct (longest (fun q => f (b :: q)) rest) as [[v k]|].
    + destruct IH as [Hk [Hv [Hpos Hmax]]]. repeat split; try lia; try assumption.
      intros q Hq Hlen.
      destruct (@startswith_cons_inv b rest q) as [q' [-> Hq']];
        [intros ->; simpl in Hlen; lia | assumption |].
      apply Hmax; [assumption | simpl in Hlen; lia].
    + destruct (Z.geb_spec (f [b]) 0) as [Hb|Hb].
      * repeat split; try lia.
        intros q Hq Hlen.
        destruct (@startswith_cons_inv b rest q) as [q' [-> Hq']];
          [intros ->; simpl in Hlen; lia | assumption |].
        apply IH; [|assumption]. intros ->. simpl in Hlen. lia.
      * intros q Hne Hq.
        destruct (@startswith_cons_inv b rest q) as [q' [-> Hq']];
          [assumption | assumption |].
        destruct q' as [|c q']; [assumption|].
        apply IH; [discriminate | assumption].
Qed.

(** The inner loop of [encode] finds the longest prefix the trie holds a
    value for. *)
Lemma walk_longest (F : Type) (t : ByteTrie F) (rest : bytes) (match_pos : nat)
  (last_match : option (Z * nat)) :
  walk t rest match_pos last_match =
  match longest (value_at t) rest with
  | Some (v, k) => Some (v, match_pos + k)
  | None => last_match
  end.
Proof.
  revert t match_pos last_match.
  induction rest as [|b rest IH]; intros t match_pos last_match; simpl.
  - reflexivity.
  - destruct (child t b) as [c|] eqn:E.
    + rewrite IH.
      rewrite (longest_ext (fun q => value_at t (b :: q)) (value_at c))
        by (intros q; now rewrite value_at_cons, E).
      assert (Hb : value_at t [b] = value c)
        by (now rewrite value_at_cons, E).
      rewrite Hb.
      destruct (longest (value_at c) rest) as [[v k]|].
      * do 2 f_equal. lia.
      * destruct (value c >=? 0)%Z; [do 2 f_equal; lia | reflexivity].
    + rewrite longest_negative
        by (intros q; rewrite value_at_cons, E; lia).
      assert (Hb : value_at t [b] = (-1)%Z)
        by (now rewrite value_at_cons, E).
      rewrite Hb. reflexivity.
Qed.

(** ** The tokenizer's trie is the vocabulary table *)

Lemma insert_enumerated_arange (F : Type) (fzero : F) (n : nat)
  (rest : list bytes) (i : nat) (t : ByteTrie F) :
  i + length rest <= n ->
  (forall p, (-1 <= value_at t p)%Z) ->
  exists t',
    insert_enumerated fzero t (enumerate_from i rest) (arange n) = Ok t' /\
    forall p, value_at t' p =
              if (value_at t p <? 0)%Z then index_from i rest p
              else value_at t p.
Proof.
  revert i t. induction rest as [|s rest IH]; intros i t Hlen Hlow; simpl.
  - exists t. split; [reflexivity|]. intros p. specialize (Hlow p).
    destruct (Z.ltb_spec (value_at t p) 0); lia.
  - simpl in Hlen.
    rewrite (py_getitem_nat _ (arange n) i (Z.of_nat i))
      by (apply nth_error_arange; lia).
    simpl.
    destruct (IH (S i) (insert fzero s (Z.of_nat i) t)) as [t' [Ht' Hval]].
    + lia.
    + intros p. rewrite value_at_insert.
      pose proof (Hlow p). pose proof (Hlow s).
      destruct (bytes_eqb p s); [|assumption].
      destruct (value_at t s <? 0)%Z; lia.
    + exists t'. split; [assumption|]. intros p.
      rewrite Hval, value_at_insert.
      destruct (bytes_eqb p s) eqn:E.
      * apply bytes_eqb_eq in E. subst p. pose proof (Hlow s).
        destruct (Z.ltb_spec (value_at t s) 0).
        -- destruct (Z.ltb_spec (Z.of_nat i) 0); [lia | reflexivity].
        -- destruct (Z.ltb_spec (value_at t s) 0); [lia | reflexivity].
      * reflexivity.
Qed.

(** [MockTokenizer.__init__] cannot fail, and the trie it builds maps
    every byte string to its first id in the vocabulary. *)
Lemma MockTokenizer_init_ok (toks : list bytes) (sp : option (list Z)) :
  exists tk, MockTokenizer_init toks sp = Ok tk /\
             tokens tk = toks /\
             forall p, value_at (byte_trie tk) p = token_index toks p.
Proof.
  unfold MockTokenizer_init, ByteTrie_init, enumerate.
  destruct (@insert_enumerated_arange float 0%float (length toks) toks 0
              (ByteTrie_new 0%float)) as [t [Ht Hval]].
  - simpl. lia.
  - intros p. rewrite value_at_new. lia.
  - rewrite Ht. simpl. eexists. split; [reflexivity|]. split; [reflexivity|].
    intros p. simpl. rewrite Hval, value_at_new. reflexivity.
Qed.

Lemma MockTokenizer_init_inv (toks : list bytes) (sp : option (list Z))
  (tk : MockTokenizer) :
  MockTokenizer_init toks sp = Ok tk ->
  tokens tk = toks /\
  forall p, value_at (byte_trie tk) p = token_index toks p.
Proof.
  intros H. destruct (MockTokenizer_init_ok toks sp) as [tk' [H1 H2]].
  rewrite H in H1. now injection H1 as <-.
Qed.

(** ** The greedy scan of [encode] *)

Section EncodeFacts.

Variable toks : list bytes.
Variable trie : ByteTrie float.
Hypothesis trie_table : forall p, value_at trie p = token_index toks p.

Lemma walk_at (s : bytes) (pos : nat) :
  walk trie (skipn pos s) pos None =
  match longest (token_index toks) (skipn pos s) with
  | Some (v, k) => Some (v, pos + k)
  | None => None
  end.
Proof.
  rewrite walk_longest.
  now rewrite (longest_ext (value_at trie) (token_index toks)).
Qed.

Lemma longest_piece (rest : bytes) (v : Z) (k : nat) :
  longest (token_index toks) rest = Some (v, k) ->
  exists t,
    1 <= k <= length rest /\ length t = k /\ t <> [] /\ In t toks /\
    v = token_index toks t /\ rest = t ++ skipn k rest /\
    forall t', In t' toks -> t' <> [] -> startswith rest t' = true ->
               length t' <= k.
Proof.
  intros H. exists (firstn k rest).
  pose proof (longest_spec (token_index toks) rest) as S.
  rewrite H in S. destruct S as [Hk [Hv [Hpos Hmax]]].
  assert (Hlen : length (firstn k rest) = k) by (rewrite length_firstn; lia).
  split; [assumption|]. split; [assumption|]. split.
  { intros E. rewrite E in Hlen. simpl in Hlen. lia. }
  split. { apply token_index_In. lia. }
  split; [exact Hv|]. split.
  { symmetry. apply firstn_skipn. }
  intros t' Hin Hne Hst.
  destruct (Nat.le_gt_cases (length t') k) as [Hle|Hgt]; [assumption|].
  specialize (Hmax t' Hst Hgt). apply token_index_In in Hin. lia.
Qed.

Lemma longest_none_iff (rest : bytes) :
  longest (token_index toks) rest = None <-> no_match toks rest.
Proof.
  split.
  - intros H t Hin Hne. pose proof (longest_spec (token_index toks) rest) as S.
    rewrite H in S. destruct (startswith rest t) eqn:E; [|reflexivity].
    specialize (S t Hne E). apply token_index_In in Hin. lia.
  - intros H. destruct (longest (token_index toks) rest) as [[v k]|] eqn:E;
      [|reflexivity].
    destruct (@longest_piece _ _ _ E) as [t [_ [_ [Hne [Hin [_ [Hsplit _]]]]]]].
    specialize (H _ Hin Hne).
    assert (Hst : startswith rest t = true)
      by (apply startswith_split; eexists; exact Hsplit).
    congruence.
Qed.

Lemma skipn_piece (s : bytes) (pos k : nat) :
  skipn k (skipn pos s) = skipn (pos + k) s.
Proof. rewrite skipn_skipn. f_equal. lia. Qed.

Lemma encode_loop_ok (s : bytes) (fuel pos : nat) (acc ids : list Z) :
  pos <= length s ->
  encode_loop fuel trie s pos acc = Some (Ok ids) ->
  exists ids', ids = acc ++ ids' /\ greedy toks (skipn pos s) ids'.
Proof.
  revert pos acc. induction fuel as [|fuel IH]; intros pos acc Hpos H;
    simpl in H; destruct (Nat.ltb_spec pos (length s)) as [Hlt|Hge];
    try discriminate.
  - injection H as <-. exists []. rewrite app_nil_r. split; [reflexivity|].
    rewrite skipn_all2 by lia. constructor.
  - rewrite walk_at in H.
    destruct (longest (token_index toks) (skipn pos s)) as [[v k]|] eqn:E;
      [|discriminate].
    destruct (@longest_piece _ _ _ E)
      as [t [Hk [Hlen [Hne [Hin [Hv [Hsplit Hmax]]]]]]].
    rewrite length_skipn in Hk. rewrite skipn_piece in Hsplit.
    apply IH in H; [|lia]. destruct H as [ids' [-> Hg]].
    exists (v :: ids'). rewrite <- app_assoc. split; [reflexivity|].
    rewrite Hsplit, Hv. constructor; try assumption.
    intros t' Hin' Hne' Hst. rewrite Hlen. apply Hmax; try assumption.
    now rewrite Hsplit.
  - injection H as <-. exists []. rewrite app_nil_r. split; [reflexivity|].
    rewrite skipn_all2 by lia. constructor.
Qed.

Lemma encode_loop_total (s : bytes) (fuel pos : nat) (acc : list Z) :
  pos <= length s -> length s - pos <= fuel ->
  encode_loop fuel trie s pos acc <> None.
Proof.
  revert pos acc. induction fuel as [|fuel IH]; intros pos acc Hpos Hfuel;
    simpl; destruct (Nat.ltb_spec pos (length s)) as [Hlt|Hge];
    try discriminate; try lia.
  rewrite walk_at.
  destruct (longest (token_index toks) (skipn pos s)) as [[v k]|] eqn:E;
    [|discriminate].
  destruct (@longest_piece _ _ _ E) as [t [Hk _]]. rewrite length_skipn in Hk.
  apply IH; lia.
Qed.

Lemma scan_from_le (s : bytes) (pos p : nat) :
  scan_from toks s pos p -> pos <= p.
Proof. induction 1; lia. Qed.

Lemma encode_loop_raise (s : bytes) (fuel pos : nat) (acc : list Z) (e : exn) :
  pos <= length s ->
  encode_loop fuel trie s pos acc = Some (Raise e) ->
  exists p, e = ValueError_no_match (nth p s Byte.x00) p /\
            scan_from toks s pos p /\ p < length s /\
            no_match toks (skipn p s).
Proof.
  revert pos acc. induction fuel as [|fuel IH]; intros pos acc Hpos H;
    simpl in H; destruct (Nat.ltb_spec pos (length s)) as [Hlt|Hge];
    try discriminate.
  rewrite walk_at in H.
  destruct (longest (token_index toks) (skipn pos s)) as [[v k]|] eqn:E.
  - destruct (@longest_piece _ _ _ E) as [t [Hk _]]. rewrite length_skipn in Hk.
    apply IH in H; [|lia]. destruct H as [p [He [Hscan [Hp Hno]]]].
    exists p. repeat split; try assumption. econstructor; eassumption.
  - injection H as <-. exists pos. split; [reflexivity|].
    split; [constructor|]. split; [assumption|].
    now apply longest_none_iff.
Qed.

Lemma encode_loop_raise_complete (s : bytes) (pos p : nat) :
  scan_from toks s pos p -> p < length s -> no_match toks (skipn p s) ->
  forall fuel acc, length s - pos <= fuel ->
    encode_loop fuel trie s pos acc =
    Some (Raise (ValueError_no_match (nth p s Byte.x00) p)).
Proof.
  induction 1 as [pos | pos k v p E Hscan IH]; intros Hp Hno fuel acc Hfuel.
  - destruct fuel as [|fuel]; [lia|]. simpl.
    destruct (Nat.ltb_spec pos (length s)); [|lia].
    rewrite walk_at. apply longest_none_iff in Hno. now rewrite Hno.
  - pose proof (scan_from_le _ _ _ Hscan) as Hle.
    destruct (@longest_piece _ _ _ E) as [t [Hk _]]. rewrite length_skipn in Hk.
    destruct fuel as [|fuel]; [lia|]. simpl.
    destruct (Nat.ltb_spec pos (length s)); [|lia].
    rewrite walk_at, E. apply IH; try assumption. lia.
Qed.

End EncodeFacts.

(** What [decode] makes of a greedy factorisation. *)
Lemma greedy_decode (tk : MockTokenizer) (s : bytes) (ids : list Z) :
  greedy (tokens tk) s ids -> decode tk ids = Ok s.
Proof.
  unfold decode. induction 1 as [|t s ids Hne Hin Hmax Hg IH].
  - reflexivity.
  - simpl. pose proof (proj2 (token_index_In (tokens tk) t) Hin) as Hpos.
    destruct (Z.ltb_spec (token_index (tokens tk) t) 0); [lia|].
    rewrite (token_index_getitem _ _ Hin). simpl.
    destruct (mapM _ ids) as [bs|e]; simpl in *; [|discriminate].
    injection IH as <-. reflexivity.
Qed.

Lemma encode_unfold (tk : MockTokenizer) (s : bytes) :
  encode tk s true = encode_loop (length s) (byte_trie tk) s 0 [].
Proof. reflexivity. Qed.

(** With a one-byte token for every byte of the input the scan never
    gets stuck, and what it emits is a greedy factorisation. *)
Lemma encode_covered (toks : list bytes) (trie : ByteTrie float) (s : bytes) :
  (forall p, value_at trie p = token_index toks p) ->
  (forall b, In b s -> In [b] toks) ->
  exists ids, encode_loop (length s) trie s 0 [] = Some (Ok ids) /\
              greedy toks s ids.
Proof.
  intros Htab Hcov.
  destruct (encode_loop (length s) trie s 0 []) as [[ids|e]|] eqn:E.
  - exists ids. split; [reflexivity|].
    destruct (encode_loop_ok _ _ Htab s (length s) 0 [] _ (Nat.le_0_l _) E)
      as [ids' [-> Hg]].
    exact Hg.
  - exfalso.
    destruct (encode_loop_raise _ _ Htab s (length s) 0 [] _ (Nat.le_0_l _) E)
      as [p [_ [_ [Hp Hno]]]].
    destruct (skipn p s) as [|b rest] eqn:Es.
    + apply (f_equal (@length _)) in Es. rewrite length_skipn in Es.
      simpl in Es. lia.
    + assert (Hin : In b s).
      { rewrite <- (firstn_skipn p s), Es. apply in_or_app. right. now left. }
      specialize (Hno [b] (Hcov b Hin)).
      cbn [startswith] in Hno. rewrite byte_eqb_refl in Hno.
      destruct rest; simpl in Hno;
        (assert (H : false = true -> False) by discriminate);
        apply H; symmetry; apply Hno; discriminate.
  - exfalso. apply (encode_loop_total _ _ Htab s (length s) 0 [] (Nat.le_0_l _));
      [lia | exact E].
Qed.

Lemma Mock_tokens_cover (b : Byte.byte) : In [b] Mock_tokens.
Proof.
  apply token_index_In. apply Z.leb_le.
  destruct b; vm_compute; reflexivity.
Qed.

(** C4 (round trip).  For a tokenizer built over any vocabulary, a byte
    string each of whose bytes is a one-byte token of the vocabulary is
    encoded without error, and concatenating the vocabulary bytes of the
    ids ([decode]) gives the byte string back. *)
Theorem encode_decode_roundtrip (toks : list bytes) (sp : option (list Z))
  (tk : MockTokenizer) (s : bytes) :
  MockTokenizer_init toks sp = Ok tk ->
  (forall b, In b s -> In [b] toks) ->
  exists ids, encode tk s true = Some (Ok ids) /\ decode tk ids = Ok s.
Proof.
  intros Hinit Hcov. destruct (MockTokenizer_init_inv _ _ _ Hinit) as [Htoks Htab].
  destruct (encode_covered _ (byte_trie tk) s Htab Hcov) as [ids [He Hg]].
  exists ids. split; [exact He|].
  apply greedy_decode. now rewrite Htoks.
Qed.

(** The vocabulary of [Mock] has every byte as a token, so its tokenizer
    round-trips every byte string. *)
Lemma Mock_encode_decode (tk : MockTokenizer) (s : bytes) :
  MockTokenizer_init Mock_tokens (Some [0%Z]) = Ok tk ->
  exists ids, encode tk s true = Some (Ok ids) /\ decode tk ids = Ok s.
Proof.
  intros Hinit. destruct (MockTokenizer_init_inv _ _ _ Hinit) as [Htoks Htab].
  destruct (encode_covered _ (byte_trie tk) s Htab
              (fun b _ => Mock_tokens_cover b)) as [ids [He Hg]].
  exists ids. split; [exact He|].
  apply greedy_decode. now rewrite Htoks.
Qed.


(** C7 (first insert wins).  [insert] changes the value stored for its
    byte string only, and only where none was stored; on an occupied
    path it returns the trie unchanged.  So inserting a byte string
    again after a token id (a non-negative value) was inserted for it
    changes nothing, and in the tokenizer's trie every vocabulary entry
    carries its first id. *)
Theorem first_insert_wins (F : Type) (fzero : F) (t : ByteTrie F) (s : bytes)
  (v1 v2 : Z) :
  (0 <= v1)%Z ->
  insert fzero s v2 (insert fzero s v1 t) = insert fzero s v1 t /\
  value_at (insert fzero s v2 (insert fzero s v1 t)) s =
    (if (value_at t s <? 0)%Z then v1 else value_at t s) /\
  (forall p, value_at (insert fzero s v1 t) p <> value_at t p ->
             p = s /\ (value_at t s < 0)%Z) /\
  (forall toks sp tk, MockTokenizer_init toks sp = Ok tk ->
     forall p, value_at (byte_trie tk) p = token_index toks p).
Proof.
  intros Hv1.
  assert (Hocc : (0 <= value_at (insert fzero s v1 t) s)%Z).
  { rewrite value_at_insert, bytes_eqb_refl.
    destruct (Z.ltb_spec (value_at t s) 0); lia. }
  split; [now apply insert_occupied|].
  split.
  { rewrite insert_occupied by assumption.
    now rewrite value_at_insert, bytes_eqb_refl. }
  split.
  { intros p Hp. rewrite value_at_insert in Hp.
    destruct (bytes_eqb p s) eqn:E; [|congruence].
    apply bytes_eqb_eq in E. subst p. split; [reflexivity|].
    destruct (Z.ltb_spec (value_at t s) 0); [assumption | congruence]. }
  intros toks sp tk Hinit. now destruct (MockTokenizer_init_inv _ _ _ Hinit).
Qed.

(** C8 (error contract of [encode]).  With [parse_special] false every
    call fails with the unsupported-option error.  With [parse_special]
    true the call fails with the no-match error for position [pos] and
    byte [b] exactly when the greedy scan reaches [pos], [b] is the byte
    there and no vocabulary entry is a non-empty prefix of the input
    from [pos] on; it returns ids exactly when the scan reaches no such
    position. *)
Theorem encode_error_contract (toks : list bytes) (sp : option (list Z))
  (tk : MockTokenizer) :
  MockTokenizer_init toks sp = Ok tk ->
  (forall s, encode tk s false = Some (Raise ValueError_parse_special)) /\
  (forall s pos b,
     encode tk s true = Some (Raise (ValueError_no_match b pos)) <->
     scan_from toks s 0 pos /\ nth_error s pos = Some b /\
     no_match toks (skipn pos s)) /\
  (forall s,
     (exists ids, encode tk s true = Some (Ok ids)) <->
     ~ exists pos, pos < length s /\ scan_from toks s 0 pos /\
                   no_match toks (skipn pos s)).
Proof.
  intros Hinit. destruct (MockTokenizer_init_inv _ _ _ Hinit) as [Htoks Htab].
  split; [reflexivity|]. split.
  - intros s pos b. rewrite encode_unfold. split.
    + intros E.
      destruct (encode_loop_raise _ _ Htab s (length s) 0 [] _ (Nat.le_0_l _) E)
        as [p [He [Hscan [Hp Hno]]]].
      injection He as -> ->. repeat split; try assumption.
      now apply nth_error_nth'.
    + intros [Hscan [Hb Hno]].
      assert (Hp : pos < length s) by (apply nth_error_Some; congruence).
      rewrite (encode_loop_raise_complete _ _ Htab _ _ _ Hscan Hp Hno (length s) [])
        by lia.
      now rewrite (nth_error_nth _ _ Byte.x00 Hb).
  - intros s. rewrite encode_unfold. split.
    + intros [ids E] [pos [Hp [Hscan Hno]]].
      rewrite (encode_loop_raise_complete _ _ Htab _ _ _ Hscan Hp Hno (length s) [])
        in E by lia.
      discriminate.
    + intros Hnone.
      destruct (encode_loop (length s) (byte_trie tk) s 0 []) as [[ids|e]|] eqn:E.
      * now exists ids.
      * exfalso. apply Hnone.
        destruct (encode_loop_raise _ _ Htab s (length s) 0 [] _ (Nat.le_0_l _) E)
          as [p [_ [Hscan [Hp Hno]]]].
        now exists p.
      * exfalso.
        apply (encode_loop_total _ _ Htab s (length s) 0 [] (Nat.le_0_l _));
          [lia | exact E].
Qed.

(** ** Aggregation of probabilities *)

Lemma py_getitem_raise (A : Type) (l : list A) (i : Z) (e : exn) :
  py_getitem l i = Raise e -> e = IndexError.
Proof.
  unfold py_getitem.
  destruct ((0 <=? _) && _)%Z; [destruct (nth_error _ _)|]; congruence.
Qed.

Section Aggregation.

Variable F : Type.
Variable fzero : F.
Variable fadd : F -> F -> F.

Local Abbreviation trie := (ByteTrie F).
Local Abbreviation compute := (compute_probs fzero fadd).
Local Abbreviation total := (sum_at fzero fadd).

(** What the loop over the children returns: the children recomputed
    one by one under their keys, and their [prob]s added up from the
    left. *)
Lemma each_child_inv (rec : trie -> result trie)
  (ch : list (Byte.byte * trie)) (acc p : F) (ch' : list (Byte.byte * trie)) :
  each_child fadd rec ch acc = Ok (p, ch') ->
  Forall2 (fun kc kc' => fst kc' = fst kc /\ rec (snd kc) = Ok (snd kc')) ch ch'
  /\ p = fold_left (fun a kc' => fadd a (prob (snd kc'))) ch' acc.
Proof.
  revert acc p ch'. induction ch as [|[k c] ch IH]; intros acc p ch' H;
    simpl in H.
  - injection H as <- <-. split; [constructor | reflexivity].
  - destruct (rec c) as [c'|e] eqn:Ec; simpl in H; [|discriminate].
    destruct (each_child fadd rec ch (fadd acc (prob c')))
      as [[p1 rest]|e] eqn:Er; simpl in H; [|discriminate].
    injection H as <- <-. destruct (IH _ _ _ Er) as [H1 H2].
    split; [constructor; [split; [reflexivity | exact Ec] | exact H1]|].
    exact H2.
Qed.

Lemma each_child_ext (rec1 rec2 : trie -> result trie)
  (ch1 ch2 : list (Byte.byte * trie)) (acc : F) :
  Forall2 (fun kc1 kc2 => fst kc1 = fst kc2 /\ rec1 (snd kc1) = rec2 (snd kc2))
          ch1 ch2 ->
  each_child fadd rec1 ch1 acc = each_child fadd rec2 ch2 acc.
Proof.
  intros H. revert acc.
  induction H as [|[k1 c1] [k2 c2] ch1 ch2 [Hk Hc] _ IH]; intros acc; simpl.
  - reflexivity.
  - simpl in Hk, Hc. subst k2. rewrite Hc.
    destruct (rec2 c2) as [c'|e]; simpl; [|reflexivity].
    now rewrite IH.
Qed.

Lemma each_child_ok (rec : trie -> result trie)
  (ch : list (Byte.byte * trie)) (acc : F) :
  Forall (fun kc => exists c', rec (snd kc) = Ok c') ch ->
  exists p ch', each_child fadd rec ch acc = Ok (p, ch').
Proof.
  intros H. revert acc. induction H as [|[k c] ch [c' Hc] _ IH]; intros acc;
    simpl.
  - now exists acc, [].
  - simpl in Hc. rewrite Hc. simpl.
    destruct (IH (fadd acc (prob c'))) as [p [ch' E]]. rewrite E. simpl.
    now exists p, ((k, c') :: ch').
Qed.

(** [compute_probs] reads the shape of the trie and [probs], never the
    old [prob] fields. *)
Lemma compute_probs_reset (probs : list F) (t : trie) :
  compute probs (reset fzero t) = compute probs t.
Proof.
  induction t as [v p ch IH] using ByteTrie_ind. simpl.
  destruct (if (v =? -1)%Z then Ok fzero
            else (p0 <- py_getitem probs v ;; Ok (fadd fzero p0)))
    as [p0|e]; simpl; [|reflexivity].
  rewrite (each_child_ext (compute probs) (compute probs)
             (map (fun kc => (fst kc, reset fzero (snd kc))) ch) ch p0);
    [reflexivity|].
  induction IH as [|kc ch Hkc _ IHch]; simpl; constructor; auto.
Qed.

Lemma compute_probs_shape (probs : list F) (t t' : trie) :
  compute probs t = Ok t' ->
  reset fzero t' = reset fzero t /\ terminal_values t' = terminal_values t.
Proof.
  revert t'. induction t as [v p ch IH] using ByteTrie_ind. intros t' H.
  simpl in H.
  destruct (if (v =? -1)%Z then Ok fzero
            else (p0 <- py_getitem probs v ;; Ok (fadd fzero p0)))
    as [p0|e]; simpl in H; [|discriminate].
  destruct (each_child fadd (compute probs) ch p0) as [[p1 ch']|e] eqn:E;
    simpl in H; [|discriminate].
  injection H as <-. apply each_child_inv in E. destruct E as [E _].
  simpl.
  assert (Hch : map (fun kc => (fst kc, reset fzero (snd kc))) ch' =
                map (fun kc => (fst kc, reset fzero (snd kc))) ch /\
                flat_map (fun kc => terminal_values (snd kc)) ch' =
                flat_map (fun kc => terminal_values (snd kc)) ch).
  { induction E as [|kc kc' ch ch' [Hk Hc] _ IHE]; simpl.
    - split; reflexivity.
    - inversion IH as [|? ? Hkc IH']; subst.
      destruct (Hkc _ Hc) as [Hr Ht]. destruct (IHE IH') as [Hm Hf].
      rewrite Hk, Hr, Ht, Hm, Hf. split; reflexivity. }
  destruct Hch as [-> ->]. split; reflexivity.
Qed.

(** Calling [compute_probs] again on its own result changes nothing. *)
Lemma compute_probs_idempotent (probs : list F) (t t' : trie) :
  compute probs t = Ok t' -> compute probs t' = Ok t'.
Proof.
  intros H. destruct (compute_probs_shape probs t t' H) as [Hr _].
  now rewrite <- compute_probs_reset, Hr, compute_probs_reset.
Qed.

(** [compute_probs] succeeds where [probs] can be read at every terminal
    value. *)
Lemma compute_probs_ok (probs : list F) (t : trie) :
  Forall (fun v => exists p, py_getitem probs v = Ok p) (terminal_values t) ->
  exists t', compute probs t = Ok t'.
Proof.
  induction t as [v p ch IH] using ByteTrie_ind. intros H. simpl in *.
  apply Forall_app in H. destruct H as [Hv Hch].
  assert (Hp0 : exists p0, (if (v =? -1)%Z then Ok fzero
            else (p0 <- py_getitem probs v ;; Ok (fadd fzero p0))) = Ok p0).
  { destruct (v =? -1)%Z; [now exists fzero|].
    inversion Hv as [|? ? [pv Hpv] _]; subst. rewrite Hpv. simpl.
    now eexists. }
  destruct Hp0 as [p0 ->]. simpl.
  destruct (each_child_ok (compute probs) ch p0) as [p1 [ch' E]].
  - induction IH as [|kc ch Hkc _ IHch]; simpl in *; constructor.
    + apply Hkc. apply Forall_app in Hch. tauto.
    + apply IHch. apply Forall_app in Hch. tauto.
  - rewrite E. simpl. now eexists.
Qed.

(** *** With exact addition *)

Hypothesis fadd_assoc : forall x y z, fadd x (fadd y z) = fadd (fadd x y) z.
Hypothesis fadd_0_l : forall x, fadd fzero x = x.
Hypothesis fadd_0_r : forall x, fadd x fzero = x.

Lemma sum_at_app (probs : list F) (l1 l2 : list Z) (a b : F) :
  total probs l1 = Ok a -> total probs l2 = Ok b ->
  total probs (l1 ++ l2) = Ok (fadd a b).
Proof.
  revert a. induction l1 as [|v l1 IH]; intros a H1 H2; simpl in *.
  - injection H1 as <-. now rewrite fadd_0_l.
  - destruct (py_getitem probs v) as [p|e]; simpl in *; [|discriminate].
    destruct (total probs l1) as [r|e]; simpl in *; [|discriminate].
    injection H1 as <-. rewrite (IH r eq_refl H2). simpl.
    now rewrite fadd_assoc.
Qed.

Lemma fold_left_fadd (ch : list (Byte.byte * trie)) (acc : F) :
  fold_left (fun a kc => fadd a (prob (snd kc))) ch acc =
  fadd acc (fold_right (fun kc r => fadd (prob (snd kc)) r) fzero ch).
Proof.
  revert acc. induction ch as [|kc ch IH]; intros acc; simpl.
  - now rewrite fadd_0_r.
  - now rewrite IH, fadd_assoc.
Qed.

Lemma sum_at_children (probs : list F) (ch : list (Byte.byte * trie)) :
  Forall (fun kc => total probs (terminal_values (snd kc)) = Ok (prob (snd kc)))
         ch ->
  total probs (flat_map (fun kc => terminal_values (snd kc)) ch) =
  Ok (fold_right (fun kc r => fadd (prob (snd kc)) r) fzero ch).
Proof.
  induction 1 as [|kc ch Hkc _ IH]; simpl; [reflexivity|].
  now apply sum_at_app.
Qed.

(** After [compute_probs] every node carries the sum of [probs] over the
    terminal values at and below it. *)
Lemma compute_probs_sums (probs : list F) (t t' : trie) :
  compute probs t = Ok t' ->
  Forall (fun n => total probs (terminal_values n) = Ok (prob n)) (nodes t').
Proof.
  revert t'. induction t as [v p ch IH] using ByteTrie_ind. intros t' H.
  simpl in H.
  destruct (if (v =? -1)%Z then Ok fzero
            else (p0 <- py_getitem probs v ;; Ok (fadd fzero p0)))
    as [p0|e] eqn:E0; simpl in H; [|discriminate].
  destruct (each_child fadd (compute probs) ch p0) as [[p1 ch']|e] eqn:E;
    simpl in H; [|discriminate].
  injection H as <-. apply each_child_inv in E. destruct E as [E ->].
  assert (Hch : Forall (fun kc' =>
            Forall (fun n => total probs (terminal_values n) = Ok (prob n))
                   (nodes (snd kc'))) ch').
  { induction E as [|kc kc' ch ch' [Hk Hc] _ IHE]; constructor.
    - inversion IH; subst; auto.
    - inversion IH; subst; auto. }
  simpl. constructor.
  - simpl. rewrite fold_left_fadd. apply sum_at_app.
    + destruct (v =? -1)%Z.
      * injection E0 as <-. reflexivity.
      * simpl. destruct (py_getitem probs v) as [pv|e]; simpl in *;
          [|discriminate].
        injection E0 as <-. now rewrite fadd_0_l, fadd_0_r.
    + apply sum_at_children.
      clear - Hch. induction Hch as [|kc' ch' Hkc _ IH]; constructor; auto.
      destruct (snd kc'); simpl in Hkc. now inversion Hkc.
  - clear - Hch. induction Hch as [|kc' ch' Hkc _ IH]; simpl; [constructor|].
    apply Forall_app. split; assumption.
Qed.

End Aggregation.

(** ** The terminal values of the tokenizer's trie *)

Section TerminalValues.

Variable F : Type.
Variable fzero : F.

Local Abbreviation trie := (ByteTrie F).
Local Abbreviation below :=
  (flat_map (fun kc : Byte.byte * trie => terminal_values (snd kc))).

Lemma dict_get_split (d : list (Byte.byte * trie)) (k : Byte.byte) (c : trie) :
  dict_get d k = Some c ->
  exists l1 l2, d = l1 ++ (k, c) :: l2 /\
                forall f, dict_update d k f = l1 ++ (k, f c) :: l2.
Proof.
  induction d as [|[k0 c0] d IH]; simpl; [discriminate|].
  destruct (Byte.eqb k0 k) eqn:E.
  - intros H. injection H as ->. apply byte_eqb_eq in E. subst k0.
    exists [], d. split; [reflexivity|]. intros f. reflexivity.
  - intros H. destruct (IH H) as [l1 [l2 [-> Hf]]].
    exists ((k0, c0) :: l1), l2. split; [reflexivity|].
    intros f. simpl. now rewrite Hf.
Qed.

Lemma dict_update_new (d : list (Byte.byte * trie)) (k : Byte.byte) (c : trie)
  (f : trie -> trie) :
  dict_get d k = None -> dict_update (d ++ [(k, c)]) k f = d ++ [(k, f c)].
Proof.
  induction d as [|[k0 c0] d IH]; simpl.
  - now rewrite byte_eqb_refl.
  - destruct (Byte.eqb k0 k); [discriminate|]. intros H. now rewrite IH.
Qed.

Lemma values_from_sentinel_node (v : Z) (p : F)
  (ch : list (Byte.byte * trie)) :
  values_from_sentinel (Node v p ch) <->
  (-1 <= v)%Z /\ Forall (fun kc => values_from_sentinel (snd kc)) ch.
Proof.
  unfold values_from_sentinel. simpl. split.
  - intros H. inversion H as [|? ? Hv Hch]; subst. split; [exact Hv|].
    clear - Hch. induction ch as [|kc ch IH]; constructor;
      simpl in Hch; apply Forall_app in Hch; tauto.
  - intros [Hv Hch]. constructor; [exact Hv|].
    induction Hch as [|kc ch Hkc _ IH]; simpl; [constructor|].
    apply Forall_app. split; assumption.
Qed.

Lemma perm_add_inside (a : Z) (x x' y z : list Z) :
  Permutation x' (a :: x) ->
  Permutation ((y ++ x') ++ z) (a :: (y ++ x) ++ z).
Proof.
  intros H.
  apply (Permutation_trans (l' := (y ++ a :: x) ++ z)).
  - apply Permutation_app_tail. apply Permutation_app_head. exact H.
  - change (a :: (y ++ x) ++ z) with ((a :: y ++ x) ++ z).
    apply Permutation_app_tail. symmetry. apply Permutation_middle.
Qed.

Lemma values_from_sentinel_new : values_from_sentinel (ByteTrie_new fzero).
Proof. apply values_from_sentinel_node. split; [lia | constructor]. Qed.

(** [insert] adds its value to the terminal values exactly where the
    path held none. *)
Lemma terminal_values_insert (s : bytes) (v : Z) (t : trie) :
  (0 <= v)%Z -> values_from_sentinel t ->
  Permutation (terminal_values (insert fzero s v t))
              (if (value_at t s <? 0)%Z then v :: terminal_values t
               else terminal_values t)
  /\ values_from_sentinel (insert fzero s v t).
Proof.
  intros Hv. revert t. induction s as [|b s IH]; intros [v0 p0 ch] Hwf.
  - apply values_from_sentinel_node in Hwf. destruct Hwf as [Hv0 Hch].
    unfold value_at. simpl.
    destruct (Z.ltb_spec v0 0).
    + split.
      * simpl. destruct (Z.eqb_spec v (-1)); [lia|].
        destruct (Z.eqb_spec v0 (-1)); [|lia]. apply Permutation_refl.
      * apply values_from_sentinel_node. split; [lia | exact Hch].
    + split; [apply Permutation_refl|].
      apply values_from_sentinel_node. split; assumption.
  - pose proof Hwf as Hwf0.
    apply values_from_sentinel_node in Hwf. destruct Hwf as [Hv0 Hch].
    rewrite value_at_cons. unfold child. cbn [insert children value prob].
    unfold has_child. cbn [children].
    destruct (dict_get ch b) as [c|] eqn:E.
    + destruct (dict_get_split ch b c E) as [l1 [l2 [-> Hupd]]].
      rewrite Hupd.
      apply Forall_app in Hch. destruct Hch as [Hl1 Hl2].
      inversion Hl2 as [|? ? Hc Hl2']; subst. simpl in Hc.
      destruct (IH c Hc) as [Hperm Hwf'].
      split.
      * cbn [terminal_values]. rewrite !flat_map_app. cbn [flat_map snd].
        rewrite !app_assoc.
        destruct (value_at c s <? 0)%Z.
        -- now apply perm_add_inside.
        -- apply Permutation_app_tail. apply Permutation_app_head.
           exact Hperm.
      * apply values_from_sentinel_node. split; [exact Hv0|].
        apply Forall_app. split; [exact Hl1|].
        constructor; [exact Hwf' | exact Hl2'].
    + rewrite dict_update_new by assumption.
      destruct (IH (ByteTrie_new fzero) values_from_sentinel_new)
        as [Hperm Hwf'].
      rewrite value_at_new in Hperm. simpl in Hperm.
      split.
      * cbn [terminal_values]. rewrite flat_map_app. cbn [flat_map snd].
        rewrite app_nil_r, app_assoc.
        apply (Permutation_trans
                 (l' := ((if (v0 =? -1)%Z then [] else [v0]) ++ below ch)
                          ++ [v])).
        -- apply Permutation_app_head. exact Hperm.
        -- symmetry. apply Permutation_cons_append.
      * apply values_from_sentinel_node. split; [exact Hv0|].
        apply Forall_app. split; [exact Hch|].
        constructor; [exact Hwf' | constructor].
Qed.

(** Inserting a duplicate-free run of fresh byte strings under the ids
    [i, i+1, ...] adds exactly those ids. *)
Lemma insert_enumerated_fresh (n : nat) (rest : list bytes) (i : nat)
  (t : trie) :
  i + length rest <= n ->
  values_from_sentinel t ->
  NoDup rest ->
  (forall s, In s rest -> (value_at t s < 0)%Z) ->
  exists t',
    insert_enumerated fzero t (enumerate_from i rest) (arange n) = Ok t' /\
    Permutation (terminal_values t')
                (terminal_values t ++ map Z.of_nat (seq i (length rest))).
Proof.
  revert i t. induction rest as [|s rest IH]; intros i t Hlen Hwf Hnd Hfresh;
    simpl.
  - exists t. split; [reflexivity|]. rewrite app_nil_r. apply Permutation_refl.
  - simpl in Hlen.
    rewrite (py_getitem_nat _ (arange n) i (Z.of_nat i))
      by (apply nth_error_arange; lia).
    simpl. inversion Hnd as [|? ? Hnotin Hnd']; subst.
    destruct (terminal_values_insert s (Z.of_nat i) t (Nat2Z.is_nonneg i) Hwf)
      as [Hperm Hwf'].
    pose proof (Hfresh s (or_introl eq_refl)) as Hs.
    destruct (Z.ltb_spec (value_at t s) 0); [|lia].
    destruct (IH (S i) (insert fzero s (Z.of_nat i) t)) as [t' [Ht' Hp']].
    + lia.
    + exact Hwf'.
    + exact Hnd'.
    + intros s' Hin. rewrite value_at_insert.
      destruct (bytes_eqb s' s) eqn:E.
      * apply bytes_eqb_eq in E. subst s'. contradiction.
      * apply Hfresh. now right.
    + exists t'. split; [exact Ht'|].
      apply (Permutation_trans Hp').
      apply (Permutation_trans
               (l' := (Z.of_nat i :: terminal_values t)
                        ++ map Z.of_nat (seq (S i) (length rest)))).
      * apply Permutation_app_tail. exact Hperm.
      * simpl. apply Permutation_cons_app. apply Permutation_refl.
Qed.

(** The trie of a duplicate-free vocabulary holds every id once. *)
Lemma ByteTrie_init_terminal_values (toks : list bytes) (t : trie) :
  NoDup toks ->
  ByteTrie_init fzero (Some toks) (Some (arange (length toks))) = Ok t ->
  Permutation (terminal_values t) (arange (length toks)).
Proof.
  intros Hnd H. unfold ByteTrie_init, enumerate in H.
  destruct (insert_enumerated_fresh (length toks) toks 0 (ByteTrie_new fzero))
    as [t' [Ht' Hp]].
  - simpl. lia.
  - apply values_from_sentinel_new.
  - exact Hnd.
  - intros s _. rewrite value_at_new. lia.
  - rewrite H in Ht'. injection Ht' as <-. exact Hp.
Qed.

End TerminalValues.

Section ExactSums.

Variable F : Type.
Variable fzero : F.
Variable fadd : F -> F -> F.
Hypothesis fadd_assoc : forall x y z, fadd x (fadd y z) = fadd (fadd x y) z.
Hypothesis fadd_comm : forall x y, fadd x y = fadd y x.

Local Abbreviation total := (sum_at fzero fadd).

Lemma sum_at_perm (probs : list F) (l1 l2 : list Z) :
  Permutation l1 l2 -> total probs l1 = total probs l2.
Proof.
  induction 1 as [|v l1 l2 _ IH|x y l|l1 l2 l3 _ IH1 _ IH2]; simpl.
  - reflexivity.
  - now rewrite IH.
  - destruct (py_getitem probs x) as [px|ex] eqn:Ex;
      destruct (py_getitem probs y) as [py|ey] eqn:Ey; simpl;
      try (apply py_getitem_raise in Ex); try (apply py_getitem_raise in Ey);
      subst; try reflexivity.
    destruct (total probs l) as [r|e]; simpl; [|reflexivity].
    now rewrite !fadd_assoc, (fadd_comm py px).
  - now rewrite IH1.
Qed.

Lemma skipn_nth_error (A : Type) (l : list A) (i : nat) (x : A) :
  nth_error l i = Some x -> skipn i l = x :: skipn (S i) l.
Proof.
  revert i. induction l as [|a l IH]; intros [|i] H; simpl in *;
    try discriminate.
  - now injection H as ->.
  - now apply IH.
Qed.

Lemma sum_at_seq (probs : list F) (i k : nat) :
  i + k <= length probs ->
  total probs (map Z.of_nat (seq i k)) =
  Ok (fold_right fadd fzero (firstn k (skipn i probs))).
Proof.
  revert i. induction k as [|k IH]; intros i H; simpl.
  - reflexivity.
  - destruct (nth_error probs i) as [x|] eqn:E;
      [|apply nth_error_None in E; lia].
    rewrite (py_getitem_nat _ _ _ _ E). simpl.
    rewrite IH by lia. simpl.
    now rewrite (skipn_nth_error _ _ _ _ E).
Qed.

Lemma sum_at_arange (probs : list F) :
  total probs (arange (length probs)) = Ok (fold_right fadd fzero probs).
Proof.
  unfold arange. rewrite sum_at_seq by lia. simpl. now rewrite firstn_all.
Qed.

End ExactSums.



(** ** The logits of the engine *)

Lemma length_halvings (b : float) (k : nat) : length (halvings b k) = k.
Proof. revert b. induction k as [|k IH]; intros b; simpl; auto. Qed.

Lemma halvings_app (b : float) (m n : nat) :
  halvings b (m + n) = halvings b m ++ halvings (Nat.iter m halve b) n.
Proof.
  revert b. induction m as [|m IH]; intros b.
  - reflexivity.
  - cbn [Nat.add halvings app]. rewrite IH. f_equal. f_equal.
    now rewrite Nat.iter_succ_r.
Qed.

Lemma nth_error_halvings (b : float) (k j : nat) :
  j < k -> nth_error (halvings b k) j = Some (Nat.iter j halve b).
Proof.
  revert b j. induction k as [|k IH]; intros b [|j] H; try lia.
  - reflexivity.
  - cbn [halvings nth_error]. rewrite IH by lia.
    now rewrite Nat.iter_succ_r.
Qed.

Lemma combine_app_same (A B : Type) (l1 l2 : list A) (h1 h2 : list B) :
  length l1 = length h1 ->
  combine (l1 ++ l2) (h1 ++ h2) = combine l1 h1 ++ combine l2 h2.
Proof.
  revert h1. induction l1 as [|a l1 IH]; intros [|b h1] H; simpl in *;
    try discriminate; [reflexivity|].
  f_equal. apply IH. lia.
Qed.

Lemma length_add_at (l : list float) (i : nat) (b : float) :
  length (add_at l i b) = length l.
Proof.
  revert i. induction l as [|x l IH]; intros [|i]; simpl; auto.
Qed.

Lemma length_add_all (l : list float) (us : list (nat * float)) :
  length (add_all l us) = length l.
Proof.
  unfold add_all. revert l. induction us as [|u us IH]; intros l; simpl.
  - reflexivity.
  - now rewrite IH, length_add_at.
Qed.

Lemma add_biases_spec (ids : list nat) (logits : list float) (bias : float) :
  add_biases logits bias ids =
  (add_all logits (combine ids (halvings bias (length ids))),
   Nat.iter (length ids) halve bias).
Proof.
  revert logits bias. induction ids as [|i ids IH]; intros logits bias.
  - reflexivity.
  - cbn [add_biases length]. rewrite IH, Nat.iter_succ_r. reflexivity.
Qed.

(** Minus infinity and NaN absorb every addition. *)
Lemma blocked_add (x b : float) : blocked x -> blocked (x + b)%float.
Proof.
  unfold blocked. rewrite add_spec. intros [-> | ->].
  - destruct (Prim2SF b) as [s | [|] | | s m e]; simpl; auto.
  - now right.
Qed.

Lemma blocked_add_at (l : list float) (i : nat) (b : float) :
  Forall blocked l -> Forall blocked (add_at l i b).
Proof.
  intros H. revert i. induction H as [|x l Hx Hl IH]; intros [|i]; simpl;
    constructor; try assumption.
  - now apply blocked_add.
  - apply IH.
Qed.

Lemma blocked_add_all (l : list float) (us : list (nat * float)) :
  Forall blocked l -> Forall blocked (add_all l us).
Proof.
  unfold add_all. revert l. induction us as [|u us IH]; intros l H; simpl.
  - exact H.
  - apply IH. now apply blocked_add_at.
Qed.

Lemma blocked_minus_infinity (n : nat) :
  Forall blocked
    (map (fun one => (one * neg_infinity)%float) (repeat 1%float n)).
Proof.
  induction n as [|n IH]; simpl; constructor; [now left | exact IH].
Qed.

Section EngineFacts.

Variable rng : Type.
Variable default_rng : Z -> rng.
Variable standard_normal : rng -> nat -> list float * rng.

Local Abbreviation engine := (MockEngine rng).

(** The two loops of [get_logits] add [bias], [bias/2], [bias/4], ...
    to the yielded tokens, in the order they are yielded. *)
Lemma bias_patterns_spec (self : engine) (byte_string : bytes)
  (patterns : list bytes) (logits : list float) (bias : float) :
  bias_patterns self byte_string logits bias patterns =
  (ys <- yielded self byte_string patterns ;;
   Ok (add_all logits (combine ys (halvings bias (length ys))),
       Nat.iter (length ys) halve bias)).
Proof.
  revert logits bias.
  induction patterns as [|p patterns IH]; intros logits bias;
    cbn [bias_patterns yielded].
  - reflexivity.
  - destruct (startswith p byte_string && (length byte_string <? length p));
      [|apply IH].
    destruct (_get_next_tokens self (skipn (length byte_string) p))
      as [ids|e]; cbn [bind]; [|reflexivity].
    rewrite add_biases_spec, IH.
    destruct (yielded self byte_string patterns) as [rest|e]; cbn [bind];
      [|reflexivity].
    rewrite length_app, halvings_app.
    rewrite combine_app_same by (now rewrite length_halvings).
    unfold add_all. rewrite fold_left_app.
    rewrite (Nat.add_comm (length ids)), Nat.iter_add. reflexivity.
Qed.

Lemma get_logits_inv (self : engine) (token_ids : list Z)
  (logits : list float) (self' : engine) :
  get_logits standard_normal self token_ids = Ok (logits, self') ->
  exists pieces ys,
    mapM (py_getitem (tokens (tokenizer self))) token_ids = Ok pieces /\
    yielded self (concat pieces) (byte_patterns self) = Ok ys /\
    logits = add_all (fst (initial_logits standard_normal self))
                     (combine ys (halvings 100 (length ys))) /\
    self' = set_rand_generator self
              (snd (initial_logits standard_normal self)).
Proof.
  unfold get_logits. intros H.
  destruct (mapM (py_getitem (tokens (tokenizer self))) token_ids)
    as [pieces|e] eqn:Ep; cbn [bind] in H; [|discriminate].
  destruct (initial_logits standard_normal self) as [l0 g].
  rewrite bias_patterns_spec in H.
  destruct (yielded self (concat pieces) (byte_patterns self)) as [ys|e]
    eqn:Ey; cbn [bind] in H; [|discriminate].
  injection H as <- <-. exists pieces, ys.
  split; [reflexivity|]. split; [exact Ey|]. split; reflexivity.
Qed.

(** C3 (bias decay), as amended.  The bias starts at 100.0 and is halved
    after every yielded token, not after every pattern: [get_logits]
    returns the initial scores with 100, 50, 25, ... added at the tokens
    yielded for the matching patterns, taken in the order they are
    yielded, so the [j]-th yielded token overall receives 100 halved [j]
    times.  The first token of the first matching pattern receives
    100.0; a later pattern starts from 100.0 halved once for every token
    yielded before it. *)
Theorem get_logits_bias_schedule (self : engine) (token_ids : list Z)
  (logits : list float) (self' : engine) :
  get_logits standard_normal self token_ids = Ok (logits, self') ->
  exists pieces ys,
    mapM (py_getitem (tokens (tokenizer self))) token_ids = Ok pieces /\
    yielded self (concat pieces) (byte_patterns self) = Ok ys /\
    logits = add_all (fst (initial_logits standard_normal self))
                     (combine ys (halvings 100 (length ys))) /\
    (forall j, j < length ys ->
       nth_error (halvings 100 (length ys)) j
       = Some (Nat.iter j halve 100%float))
    /\ halvings 100 3 = [100; 50; 25]%float.
Proof.
  intros H. destruct (get_logits_inv _ _ _ _ H) as [pieces [ys [H1 [H2 [H3 _]]]]].
  exists pieces, ys. split; [exact H1|]. split; [exact H2|].
  split; [exact H3|]. split; [|reflexivity].
  intros j Hj. now apply nth_error_halvings.
Qed.

(** C1 (forcing), as the code has it.  With [force] set, no token gets a
    finite score, the tokens that continue a pattern included: the
    scores start at minus infinity, and adding a bias to minus infinity
    leaves minus infinity. *)
Theorem force_blocks_every_token (self : engine) (token_ids : list Z)
  (logits : list float) (self' : engine) :
  force self = true ->
  get_logits standard_normal self token_ids = Ok (logits, self') ->
  Forall blocked logits /\
  length logits = length (tokens (tokenizer self)).
Proof.
  intros Hforce H.
  destruct (get_logits_inv _ _ _ _ H) as [pieces [ys [_ [_ [-> _]]]]].
  unfold initial_logits. rewrite Hforce. cbn [fst]. split.
  - apply blocked_add_all. apply blocked_minus_infinity.
  - now rewrite length_add_all, length_map, repeat_length.
Qed.

(** [get_logits] reads the vocabulary, the mask, the patterns, [force]
    and the generator, and nothing else of the engine. *)
Lemma _get_next_tokens_same (e1 e2 : engine) (byte_string : bytes) :
  tokenizer e1 = tokenizer e2 ->
  _get_next_tokens e1 byte_string = _get_next_tokens e2 byte_string.
Proof. unfold _get_next_tokens. now intros ->. Qed.

Lemma bias_patterns_same (e1 e2 : engine) (byte_string : bytes)
  (patterns : list bytes) (logits : list float) (bias : float) :
  tokenizer e1 = tokenizer e2 ->
  bias_patterns e1 byte_string logits bias patterns =
  bias_patterns e2 byte_string logits bias patterns.
Proof.
  intros Htk. revert logits bias.
  induction patterns as [|p patterns IH]; intros logits bias;
    cbn [bias_patterns]; [reflexivity|].
  rewrite (_get_next_tokens_same e1 e2 _ Htk).
  destruct (startswith p byte_string && (length byte_string <? length p));
    [|apply IH].
  destruct (_get_next_tokens e2 _) as [ids|e]; cbn [bind]; [|reflexivity].
  destruct (add_biases logits bias ids). apply IH.
Qed.

Lemma get_logits_same (e1 e2 : engine) (token_ids : list Z) :
  same_configuration e1 e2 ->
  match get_logits standard_normal e1 token_ids,
        get_logits standard_normal e2 token_ids with
  | Ok (l1, e1'), Ok (l2, e2') => l1 = l2 /\ same_configuration e1' e2'
  | Raise x1, Raise x2 => x1 = x2
  | _, _ => False
  end.
Proof.
  intros [Htk [Hmask [Hforce [Hpat Hrng]]]].
  assert (Hinit : initial_logits standard_normal e1
                  = initial_logits standard_normal e2).
  { unfold initial_logits. now rewrite Htk, Hmask, Hforce, Hrng. }
  unfold get_logits. rewrite Htk, Hinit, Hpat.
  destruct (mapM (py_getitem (tokens (tokenizer e2))) token_ids)
    as [pieces|e]; cbn [bind]; [|reflexivity].
  destruct (initial_logits standard_normal e2) as [l0 g].
  rewrite (bias_patterns_same e1 e2) by exact Htk.
  destruct (bias_patterns e2 (concat pieces) l0 100 (byte_patterns e2))
    as [[l b]|e]; cbn [bind]; [|reflexivity].
  split; [reflexivity|]. unfold same_configuration. simpl. tauto.
Qed.

Lemma get_logits_calls_same (calls : list (list Z)) (e1 e2 : engine) :
  same_configuration e1 e2 ->
  get_logits_calls standard_normal e1 calls =
  get_logits_calls standard_normal e2 calls.
Proof.
  revert e1 e2. induction calls as [|ids calls IH]; intros e1 e2 Hsame;
    cbn [get_logits_calls]; [reflexivity|].
  pose proof (get_logits_same e1 e2 ids Hsame) as H.
  destruct (get_logits standard_normal e1 ids) as [[l1 e1']|x1];
    destruct (get_logits standard_normal e2 ids) as [[l2 e2']|x2];
    try contradiction; cbn [bind].
  - destruct H as [-> Hsame']. now rewrite (IH e1' e2' Hsame').
  - now subst.
Qed.

(** C9 (reproducibility).  The generator of a new engine is seeded with
    a constant, so two engines built over the same tokenizer with the
    same patterns and [force] start in the same configuration whatever
    their other flag; and two engines in the same configuration, whatever
    temperatures they have recorded, answer the same run of [get_logits]
    calls with the same logits (or the same exception). *)
Theorem reproducible_logits :
  (forall tk pats clp1 clp2 frc,
     same_configuration (MockEngine_init default_rng tk pats clp1 frc)
                        (MockEngine_init default_rng tk pats clp2 frc)) /\
  (forall (e : engine) temperature,
     same_configuration e (record_temperature e temperature)) /\
  (forall (e1 e2 : engine) calls,
     same_configuration e1 e2 ->
     get_logits_calls standard_normal e1 calls =
     get_logits_calls standard_normal e2 calls).
Proof.
  split; [|split].
  - intros. unfold same_configuration. simpl. tauto.
  - intros. unfold same_configuration. simpl. tauto.
  - intros e1 e2 calls H. now apply get_logits_calls_same.
Qed.

End EngineFacts.

(** ** The walk over a token sequence *)

Lemma Forall2_nth_error_l (A B : Type) (R : A -> B -> Prop)
  (l1 : list A) (l2 : list B) (j : nat) (a : A) :
  Forall2 R l1 l2 -> nth_error l1 j = Some a ->
  exists b, nth_error l2 j = Some b /\ R a b.
Proof.
  intros H. revert j. induction H as [|x y l1 l2 Hxy _ IH]; intros [|j] Hj;
    simpl in *; try discriminate.
  - injection Hj as <-. now exists y.
  - now apply IH.
Qed.

Section TopKFacts.

Variable rng : Type.
Variable standard_normal : rng -> nat -> list float * rng.
Variable argsort : list float -> list nat.
Variable softmax : list float -> list float.

Local Abbreviation engine := (MockEngine rng).
Local Abbreviation position := (topk_position standard_normal argsort softmax).
Local Abbreviation loop := (topk_loop standard_normal argsort softmax).
Local Abbreviation per_token :=
  (get_per_token_topk_probs standard_normal argsort softmax).
Local Abbreviation reports := (reports standard_normal argsort softmax).
Local Abbreviation top_k_ids := (top_k_ids argsort).

Lemma py_getitem_nth_error (A : Type) (l : list A) (i : nat) (a : A) :
  py_getitem l (Z.of_nat i) = Ok a -> nth_error l i = Some a.
Proof.
  unfold py_getitem. destruct (Z.ltb_spec (Z.of_nat i) 0); [lia|].
  destruct ((0 <=? Z.of_nat i) && _)%Z; [|discriminate].
  rewrite Nat2Z.id. destruct (nth_error l i); congruence.
Qed.

Lemma topk_position_inv (self self' : engine) (token_ids : list Z)
  (top_k : Z) (i : nat) (entry : GenTokenExtra.t) :
  position self token_ids top_k i = Ok (entry, self') ->
  reports token_ids top_k i entry.
Proof.
  unfold topk_position. intros H.
  destruct (py_getitem token_ids (Z.of_nat i)) as [actual|e] eqn:Ea;
    cbn [bind] in H; [|discriminate].
  destruct (get_logits standard_normal self (firstn i token_ids))
    as [[logits self1]|e] eqn:El; cbn [bind] in H; [|discriminate].
  destruct (mapM _ (candidates argsort logits top_k actual)) as [res|e];
    cbn [bind] in H; [|discriminate].
  destruct (py_getitem (softmax logits)
              (last (candidates argsort logits top_k actual) actual))
    as [p|e] eqn:Ep; cbn [bind] in H; [|discriminate].
  destruct (decode_text self _) as [b|e]; cbn [bind] in H; [|discriminate].
  injection H as <- <-.
  exists self, self1, actual, logits.
  split; [now apply py_getitem_nth_error|]. split; [exact El|].
  split; [reflexivity | exact Ep].
Qed.

Lemma topk_loop_inv (token_ids : list Z) (top_k : Z) (positions : list nat)
  (self self' : engine) (entries : list GenTokenExtra.t) :
  loop self token_ids top_k positions = Ok (entries, self') ->
  Forall2 (reports token_ids top_k) positions entries.
Proof.
  revert self entries. induction positions as [|i positions IH];
    intros self entries H; cbn [topk_loop] in H.
  - injection H as <- _. constructor.
  - destruct (position self token_ids top_k i) as [[entry self1]|e] eqn:E1;
      cbn [bind] in H; [|discriminate].
    destruct (loop self1 token_ids top_k positions) as [[rest self2]|e] eqn:E2;
      cbn [bind] in H; [|discriminate].
    injection H as <- <-. constructor.
    + exact (topk_position_inv _ _ _ _ _ _ E1).
    + exact (IH _ _ E2).
Qed.

(** The entries [get_per_token_topk_probs] returns: the first entry of
    the walk is dropped where the beginning-of-sequence id was put in
    front, and the others come from the turns of the loop. *)
Lemma per_token_inv (self self' : engine) (token_ids : list Z) (top_k : Z)
  (entries : list GenTokenExtra.t) :
  token_ids <> [] ->
  per_token self token_ids top_k = Ok (entries, self') ->
  exists entry0 rest,
    Forall2 (reports (fst (with_bos self token_ids)) top_k)
            (range 1 (length (fst (with_bos self token_ids)))) rest /\
    entries = if snd (with_bos self token_ids) then rest else entry0 :: rest.
Proof.
  intros Hne H. unfold get_per_token_topk_probs in H.
  destruct token_ids as [|first ids]; [contradiction|].
  destruct (bos_token (tokenizer self)) as [bos|e]; cbn [bind] in H;
    [|discriminate].
  destruct (with_bos self (first :: ids)) as [ids' added].
  destruct (py_getitem ids' 0) as [t0|e]; cbn [bind] in H; [|discriminate].
  destruct (decode_text self t0) as [b0|e]; cbn [bind] in H; [|discriminate].
  destruct (loop self ids' top_k (range 1 (length ids')))
    as [[rest self2]|e] eqn:E; cbn [bind] in H; [|discriminate].
  injection H as <- _. eexists. exists rest.
  split; [exact (topk_loop_inv _ _ _ _ _ _ E)|].
  cbn [fst snd]. destruct added; reflexivity.
Qed.

Lemma length_with_bos (self : engine) (token_ids : list Z) :
  length (fst (with_bos self token_ids)) =
  length token_ids + (if snd (with_bos self token_ids) then 1 else 0).
Proof.
  unfold with_bos. destruct token_ids as [|first ids]; [reflexivity|].
  destruct (negb _); simpl; lia.
Qed.

(** C2 (reported token and probability), as the code has it.  For every
    position [i >= 1] of the walked sequence (the input, with the
    beginning-of-sequence id in front where it was missing) the result
    holds an entry; the token id it reports is the last element of the
    candidate list of that turn, and its probability is [softmax] of
    that turn's logits at that id.  Where the token of the position is
    among the top [k] without being the last of them, the entry
    reports another token than the one at the position. *)
Theorem topk_entry_reports_last_candidate (self self' : engine)
  (token_ids : list Z) (top_k : Z) (entries : list GenTokenExtra.t) :
  per_token self token_ids top_k = Ok (entries, self') ->
  let walked := fst (with_bos self token_ids) in
  let shift := if snd (with_bos self token_ids) then 1 else 0 in
  forall i actual,
    1 <= i -> nth_error walked i = Some actual ->
    exists entry self_i self_i' logits,
      nth_error entries (i - shift) = Some entry /\
      get_logits standard_normal self_i (firstn i walked)
        = Ok (logits, self_i') /\
      GenTokenExtra.token_id entry
        = last (candidates argsort logits top_k actual) actual /\
      py_getitem (softmax logits) (GenTokenExtra.token_id entry)
        = Ok (GenTokenExtra.prob entry) /\
      (In actual (top_k_ids logits top_k) ->
       last (top_k_ids logits top_k) actual <> actual ->
       GenTokenExtra.token_id entry <> actual).
Proof.
  intros H walked shift i actual Hi Hact.
  assert (Hne : token_ids <> []).
  { intros ->. unfold walked in Hact. simpl in Hact.
    destruct i; discriminate. }
  destruct (per_token_inv _ _ _ _ _ Hne H) as [entry0 [rest [Hall Hent]]].
  fold walked in Hall.
  assert (Hlen : i < length walked) by (apply nth_error_Some; congruence).
  assert (Hpos : nth_error (range 1 (length walked)) (i - 1) = Some i).
  { unfold range. rewrite nth_error_seq.
    destruct (Nat.ltb_spec (i - 1) (length walked - 1)); [|lia].
    f_equal. lia. }
  destruct (Forall2_nth_error_l _ _ _ _ _ _ _ Hall Hpos)
    as [entry [Hentry [s1 [s2 [actual' [logits [Ha [Hl [Hid Hp]]]]]]]]].
  assert (actual' = actual) by congruence. subst actual'.
  exists entry, s1, s2, logits.
  split.
  { rewrite Hent. unfold shift. destruct (snd (with_bos self token_ids)).
    - exact Hentry.
    - rewrite Nat.sub_0_r. destruct i as [|i]; [lia|].
      replace (S i - 1) with i in Hentry by lia. exact Hentry. }
  split; [exact Hl|]. split; [exact Hid|]. split; [exact Hp|].
  intros Hin Hlast. rewrite Hid. unfold candidates.
  assert (Hex : existsb (Z.eqb actual) (top_k_ids logits top_k) = true).
  { apply existsb_exists. exists actual. split; [exact Hin | apply Z.eqb_refl]. }
  rewrite Hex. exact Hlast.
Qed.

End TopKFacts.

(** ** When the walk returns *)

Section TopKReturns.

Variable rng : Type.
Variable standard_normal : rng -> nat -> list float * rng.
Variable argsort : list float -> list nat.
Variable softmax : list float -> list float.

Local Abbreviation engine := (MockEngine rng).
Local Abbreviation position := (topk_position standard_normal argsort softmax).
Local Abbreviation loop := (topk_loop standard_normal argsort softmax).
Local Abbreviation per_token :=
  (get_per_token_topk_probs standard_normal argsort softmax).

Hypothesis standard_normal_length :
  forall g n, length (fst (standard_normal g n)) = n.
Hypothesis argsort_range :
  forall l i, In i (argsort l) -> i < length l.
Hypothesis softmax_length : forall l, length (softmax l) = length l.

Lemma py_getitem_ok (A : Type) (l : list A) (i : Z) :
  (0 <= i < Z.of_nat (length l))%Z ->
  exists a, py_getitem l i = Ok a /\ nth_error l (Z.to_nat i) = Some a.
Proof.
  intros H. unfold py_getitem.
  destruct (Z.ltb_spec i 0); [lia|].
  destruct (Z.leb_spec 0 i); [|lia].
  destruct (Z.ltb_spec i (Z.of_nat (length l))); [|lia]. simpl.
  destruct (nth_error l (Z.to_nat i)) as [a|] eqn:E.
  - now exists a.
  - apply nth_error_None in E. lia.
Qed.

Lemma mapM_ok (A B : Type) (f : A -> result B) (l : list A) :
  Forall (fun a => exists b, f a = Ok b) l -> exists bs, mapM f l = Ok bs.
Proof.
  induction 1 as [|a l [b Hb] _ [bs IH]]; simpl.
  - now exists [].
  - rewrite Hb, IH. simpl. now eexists.
Qed.

Lemma decode_single_ok (tk : MockTokenizer) (id : Z) :
  (0 <= id < Z.of_nat (length (tokens tk)))%Z ->
  exists t, decode tk [id] = Ok t /\ In t (tokens tk).
Proof.
  intros H. unfold decode. simpl.
  destruct (Z.ltb_spec id 0); [lia|].
  destruct (py_getitem_ok _ (tokens tk) id H) as [t [-> Hnth]]. simpl.
  exists t. rewrite app_nil_r. split; [reflexivity|].
  now apply nth_error_In in Hnth.
Qed.

Lemma zero_valid (self : engine) :
  tokens (tokenizer self) <> [] -> valid_id self 0.
Proof.
  unfold valid_id. destruct (tokens (tokenizer self)); [contradiction|].
  simpl. lia.
Qed.

Lemma _get_next_tokens_ok (self : engine) (byte_string : bytes) :
  tokens (tokenizer self) <> [] ->
  exists ids, _get_next_tokens self byte_string = Ok ids.
Proof.
  intros Hne. unfold _get_next_tokens, bos_token, eos_token.
  destruct (decode_single_ok (tokenizer self) 0 (zero_valid self Hne))
    as [t [Ht _]].
  unfold bos_token_id, eos_token_id. rewrite Ht. cbn [bind].
  destruct (List.find _ _) as [[i t']|]; now eexists.
Qed.

Lemma yielded_ok (self : engine) (byte_string : bytes)
  (patterns : list bytes) :
  tokens (tokenizer self) <> [] ->
  exists ys, yielded self byte_string patterns = Ok ys.
Proof.
  intros Hne. induction patterns as [|p patterns [ys IH]]; cbn [yielded].
  - now exists [].
  - destruct (startswith p byte_string && (length byte_string <? length p));
      [|now exists ys].
    destruct (_get_next_tokens_ok self (skipn (length byte_string) p) Hne)
      as [ids ->].
    rewrite IH. cbn [bind]. now eexists.
Qed.

Lemma length_array_mul (a b : list float) :
  length a = length b -> length (array_mul a b) = length a.
Proof.
  revert b. induction a as [|x a IH]; intros [|y b] H; simpl in *;
    try discriminate; auto.
Qed.

Lemma length_initial_logits (self : engine) :
  length (_valid_mask self) = length (tokens (tokenizer self)) ->
  length (fst (initial_logits standard_normal self))
  = length (tokens (tokenizer self)).
Proof.
  intros Hmask. unfold initial_logits. destruct (force self).
  - simpl. now rewrite length_map, repeat_length.
  - pose proof (standard_normal_length (_rand_generator self)
                  (length (tokens (tokenizer self)))) as Hz.
    destruct (standard_normal _ _) as [z g]. simpl in *.
    rewrite length_array_mul; congruence.
Qed.

Lemma get_logits_ok (self : engine) (token_ids : list Z) :
  text_vocabulary self ->
  Forall (valid_id self) token_ids ->
  exists logits self',
    get_logits standard_normal self token_ids = Ok (logits, self') /\
    length logits = length (tokens (tokenizer self)) /\
    self' = set_rand_generator self
              (snd (initial_logits standard_normal self)).
Proof.
  intros [Hne [Hmask _]] Hids.
  destruct (mapM_ok _ _ (py_getitem (tokens (tokenizer self))) token_ids)
    as [pieces Hp].
  { eapply Forall_impl; [|exact Hids]. intros id Hid.
    destruct (py_getitem_ok _ _ id Hid) as [t [Ht _]]. now exists t. }
  destruct (yielded_ok self (concat pieces) (byte_patterns self) Hne)
    as [ys Hys].
  pose proof (length_initial_logits self Hmask) as Hlen.
  unfold get_logits. rewrite Hp. cbn [bind].
  destruct (initial_logits standard_normal self) as [l0 g].
  rewrite bias_patterns_spec, Hys. cbn [bind].
  eexists. eexists. split; [reflexivity|].
  split; [|reflexivity]. now rewrite length_add_all.
Qed.

Lemma decode_text_ok (self : engine) (id : Z) :
  text_vocabulary self -> valid_id self id ->
  exists b, decode_text self id = Ok b.
Proof.
  intros [_ [_ Hutf]] Hid. unfold decode_text.
  destruct (decode_single_ok (tokenizer self) id Hid) as [t [-> Hin]].
  cbn [bind]. rewrite Forall_forall in Hutf. rewrite (Hutf t Hin).
  now exists t.
Qed.

Lemma In_slice_from (A : Type) (l : list A) (start : Z) (x : A) :
  In x (slice_from l start) -> In x l.
Proof.
  unfold slice_from. intros H.
  rewrite <- (firstn_skipn (Z.to_nat
    (if (start <? 0)%Z then Z.max 0 (start + Z.of_nat (length l))
     else Z.min start (Z.of_nat (length l)))) l).
  apply in_or_app. now right.
Qed.

Lemma candidates_valid (self : engine) (logits : list float) (top_k actual : Z) :
  length logits = length (tokens (tokenizer self)) ->
  valid_id self actual ->
  Forall (valid_id self) (candidates argsort logits top_k actual).
Proof.
  intros Hlen Hact.
  assert (Htop : Forall (valid_id self) (top_k_ids argsort logits top_k)).
  { apply Forall_forall. intros c Hc. unfold top_k_ids in Hc.
    apply in_map_iff in Hc. destruct Hc as [j [<- Hj]].
    apply in_rev, In_slice_from, argsort_range in Hj.
    unfold valid_id. lia. }
  unfold candidates. destruct (existsb _ _); [exact Htop|].
  apply Forall_app. split; [exact Htop | now constructor].
Qed.

Lemma last_Forall (A : Type) (P : A -> Prop) (l : list A) (d : A) :
  Forall P l -> P d -> P (last l d).
Proof.
  intros H Hd. induction H as [|x l Hx Hl IH]; [exact Hd|].
  destruct l; [exact Hx | exact IH].
Qed.

Lemma text_vocabulary_set_rand_generator (self : engine) (g : rng) :
  text_vocabulary self -> text_vocabulary (set_rand_generator self g).
Proof. now unfold text_vocabulary. Qed.

Lemma topk_position_ok (self : engine) (token_ids : list Z) (top_k : Z)
  (i : nat) :
  text_vocabulary self ->
  Forall (valid_id self) token_ids ->
  i < length token_ids ->
  exists entry self',
    position self token_ids top_k i = Ok (entry, self') /\
    text_vocabulary self' /\ tokenizer self' = tokenizer self.
Proof.
  intros Hvoc Hids Hi. unfold topk_position.
  destruct (nth_error token_ids i) as [actual|] eqn:Ea;
    [|apply nth_error_None in Ea; lia].
  rewrite (py_getitem_nat _ _ _ _ Ea). cbn [bind].
  assert (Hact : valid_id self actual).
  { rewrite Forall_forall in Hids. apply Hids.
    now apply nth_error_In in Ea. }
  destruct (get_logits_ok self (firstn i token_ids) Hvoc)
    as [logits [self' [-> [Hlen ->]]]].
  { rewrite <- (firstn_skipn i token_ids) in Hids.
    now apply Forall_app in Hids. }
  cbn [bind].
  pose proof (candidates_valid self logits top_k actual Hlen Hact) as Hcand.
  assert (Hprob : forall c, valid_id self c ->
            exists p, py_getitem (softmax logits) c = Ok p).
  { intros c Hc. destruct (py_getitem_ok _ (softmax logits) c) as [p [Hp _]].
    - rewrite softmax_length, Hlen. exact Hc.
    - now exists p. }
  destruct (mapM_ok _ _
    (fun token_id =>
       p <- py_getitem (softmax logits) token_id ;;
       b <- decode_text self token_id ;;
       Ok {| GenToken.token_id := token_id;
             GenToken.prob := Some p;
             GenToken.bytes := b |})
    (candidates argsort logits top_k actual)) as [res ->].
  { eapply Forall_impl; [|exact Hcand]. intros c Hc.
    destruct (Hprob c Hc) as [p ->].
    destruct (decode_text_ok self c Hvoc Hc) as [b ->].
    cbn [bind]. now eexists. }
  cbn [bind].
  pose proof (last_Forall _ _ _ actual Hcand Hact) as Hlast.
  destruct (Hprob _ Hlast) as [p ->].
  destruct (decode_text_ok self _ Hvoc Hlast) as [b ->].
  cbn [bind]. eexists. eexists. split; [reflexivity|].
  split; [now apply text_vocabulary_set_rand_generator | reflexivity].
Qed.

Lemma topk_loop_ok (token_ids : list Z) (top_k : Z) (positions : list nat)
  (self : engine) :
  text_vocabulary self ->
  Forall (valid_id self) token_ids ->
  Forall (fun i => i < length token_ids) positions ->
  exists entries self', loop self token_ids top_k positions
                        = Ok (entries, self').
Proof.
  intros Hvoc Hids Hpos. revert self Hvoc Hids.
  induction Hpos as [|i positions Hi _ IH]; intros self Hvoc Hids;
    cbn [topk_loop].
  - now exists [], self.
  - destruct (topk_position_ok self token_ids top_k i Hvoc Hids Hi)
      as [entry [self1 [-> [Hvoc1 Htk1]]]].
    cbn [bind].
    destruct (IH self1 Hvoc1) as [entries [self2 ->]].
    + unfold valid_id in *. now rewrite Htk1.
    + cbn [bind]. now eexists; eexists.
Qed.

Lemma per_token_ok (self : engine) (token_ids : list Z) (top_k : Z) :
  text_vocabulary self ->
  Forall (valid_id self) token_ids ->
  exists entries self', per_token self token_ids top_k = Ok (entries, self').
Proof.
  intros Hvoc Hids. unfold get_per_token_topk_probs.
  destruct token_ids as [|first ids]; [now exists [], self|].
  pose proof Hvoc as [Hne _].
  unfold bos_token, bos_token_id.
  destruct (decode_single_ok (tokenizer self) _ (zero_valid self Hne))
    as [t [-> _]].
  cbn [bind].
  assert (Hwalk : Forall (valid_id self) (fst (with_bos self (first :: ids)))
                  /\ fst (with_bos self (first :: ids)) <> []).
  { unfold with_bos. destruct (negb _); cbn [fst].
    - split; [|discriminate]. constructor; [|exact Hids].
      exact (zero_valid self Hne).
    - split; [exact Hids | discriminate]. }
  destruct (with_bos self (first :: ids)) as [walked added].
  cbn [fst] in Hwalk. destruct Hwalk as [Hwalk Hwne].
  destruct walked as [|t0 walked]; [contradiction|].
  change (py_getitem (t0 :: walked) 0) with (Ok t0 : result Z). cbn [bind].
  inversion Hwalk as [|? ? Ht0 _]; subst.
  destruct (decode_text_ok self t0 Hvoc Ht0) as [b0 ->]. cbn [bind].
  destruct (topk_loop_ok (t0 :: walked) top_k
              (range 1 (length (t0 :: walked))) self Hvoc Hwalk)
    as [entries [self' ->]].
  { apply Forall_forall. intros i Hi. unfold range in Hi.
    apply in_seq in Hi. simpl in *. lia. }
  cbn [bind]. now eexists; eexists.
Qed.

End TopKReturns.

(** C10 (one entry per input token).  For the empty list the call
    returns the empty list and leaves the engine as it is, so no logits
    are computed.  Whenever the call returns, it returns as many
    entries as it was given tokens, the beginning-of-sequence id put in
    front or not.  And it does return for ids of a vocabulary of
    well-formed UTF-8 tokens, given a generator that draws as many
    samples as asked, a sort that returns positions of its argument and
    a [softmax] that keeps the length. *)
Theorem per_token_length (rng : Type)
  (standard_normal : rng -> nat -> list float * rng)
  (argsort : list float -> list nat) (softmax : list float -> list float) :
  let per_token :=
    get_per_token_topk_probs standard_normal argsort softmax in
  (forall self top_k, per_token self [] top_k = Ok ([], self)) /\
  (forall self self' token_ids top_k entries,
     per_token self token_ids top_k = Ok (entries, self') ->
     length entries = length token_ids) /\
  ((forall g n, length (fst (standard_normal g n)) = n) ->
   (forall l i, In i (argsort l) -> i < length l) ->
   (forall l, length (softmax l) = length l) ->
   forall self token_ids top_k,
     text_vocabulary self ->
     Forall (valid_id self) token_ids ->
     exists entries self',
       per_token self token_ids top_k = Ok (entries, self') /\
       length entries = length token_ids).
Proof.
  intros per_token.
  assert (Hlen : forall self self' token_ids top_k entries,
     per_token self token_ids top_k = Ok (entries, self') ->
     length entries = length token_ids).
  { intros self self' token_ids top_k entries H.
    destruct token_ids as [|first ids].
    - cbn in H. now injection H as <- _.
    - assert (Hne : first :: ids <> []) by discriminate.
      destruct (per_token_inv _ _ _ _ _ _ _ _ _ Hne H)
        as [entry0 [rest [Hall ->]]].
      apply Forall2_length in Hall. unfold range in Hall.
      rewrite length_seq, length_with_bos in Hall.
      destruct (snd (with_bos self (first :: ids))); simpl in *; lia. }
  split; [reflexivity|]. split; [exact Hlen|].
  intros Hnormal Hsort Hsoftmax self token_ids top_k Hvoc Hids.
  destruct (per_token_ok rng standard_normal argsort softmax
              Hnormal Hsort Hsoftmax self token_ids top_k Hvoc Hids)
    as [entries [self' H]].
  exists entries, self'. split; [exact H | exact (Hlen _ _ _ _ _ H)].
Qed.

(** ** Concrete vocabularies and engines *)

Example utf8_valid_text :
  utf8_valid [Byte.x63; Byte.xc3; Byte.xa9; Byte.xe2; Byte.x82; Byte.xac;
              Byte.xf0; Byte.x9f; Byte.x98; Byte.x80] = true.
Proof. reflexivity. Qed.

Example utf8_valid_rejects :
  map utf8_valid
    [[Byte.x80]; [Byte.xc3]; [Byte.xc0; Byte.x80];
     [Byte.xe0; Byte.x80; Byte.x80]; [Byte.xed; Byte.xa0; Byte.x80];
     [Byte.xf4; Byte.x90; Byte.x80; Byte.x80]; [Byte.xff]]
  = [false; false; false; false; false; false; false].
Proof. reflexivity. Qed.

Example Mock_tokens_length : length Mock_tokens = 882.
Proof. reflexivity. Qed.

(** [Mock] builds [Mock_tokenizer]. *)
Lemma Mock_tokenizer_init :
  MockTokenizer_init Mock_tokens (Some [0%Z]) = Ok Mock_tokenizer.
Proof. vm_compute. reflexivity. Qed.

Example encode_cat :
  encode Mock_tokenizer cat true = Some (Ok [51; 742]%Z).
Proof. vm_compute. reflexivity. Qed.

(** The round trip of "cat" over the vocabulary of [Mock]. *)
Lemma encode_decode_roundtrip_witness :
  MockTokenizer_init Mock_tokens (Some [0%Z]) = Ok Mock_tokenizer /\
  (forall b, In b cat -> In [b] Mock_tokens) /\
  exists ids, encode Mock_tokenizer cat true = Some (Ok ids) /\
              decode Mock_tokenizer ids = Ok cat.
Proof.
  assert (Hinit : MockTokenizer_init Mock_tokens (Some [0%Z])
                  = Ok Mock_tokenizer) by (vm_compute; reflexivity).
  assert (Hcov : forall b, In b cat -> In [b] Mock_tokens)
    by (intros b _; apply Mock_tokens_cover).
  split; [exact Hinit|]. split; [exact Hcov|].
  exact (encode_decode_roundtrip Mock_tokens (Some [0%Z]) Mock_tokenizer cat
           Hinit Hcov).
Defined.


(** Inserting "a" as 1 and then as 2 into an empty trie keeps 1. *)
Lemma first_insert_wins_witness :
  let a := [Byte.x61] in
  let t := ByteTrie_new 0%float in
  (0 <= 1)%Z /\
  insert 0%float a 2 (insert 0%float a 1 t) = insert 0%float a 1 t /\
  value_at (insert 0%float a 2 (insert 0%float a 1 t)) a = 1%Z.
Proof.
  intros a t.
  assert (H : (0 <= 1)%Z) by lia.
  split; [exact H|].
  destruct (first_insert_wins float 0%float t a 1 2 H) as [H1 [H2 _]].
  split; [exact H1 | exact H2].
Defined.

(** Over the vocabulary "a", "ab" the scan of "abc" takes "ab" and is
    stuck at position 2, on the byte "c". *)
Lemma encode_error_contract_witness :
  let toks := [[Byte.x61]; [Byte.x61; Byte.x62]] in
  let abc := [Byte.x61; Byte.x62; Byte.x63] in
  MockTokenizer_init toks None = Ok (tokenizer_of toks) /\
  encode (tokenizer_of toks) abc false = Some (Raise ValueError_parse_special) /\
  encode (tokenizer_of toks) abc true =
    Some (Raise (ValueError_no_match Byte.x63 2)).
Proof.
  intros toks abc.
  assert (Hinit : MockTokenizer_init toks None = Ok (tokenizer_of toks))
    by (vm_compute; reflexivity).
  split; [exact Hinit|].
  destruct (encode_error_contract toks None (tokenizer_of toks) Hinit)
    as [H1 [H2 _]].
  split; [apply H1|].
  apply H2. split; [|split].
  - apply (@scan_next toks abc 0 2 1%Z 2); [reflexivity | apply scan_here].
  - reflexivity.
  - intros t [<- | [<- | []]] _; reflexivity.
Defined.


(** [Mock.__init__] hands [Mock_engine] to the interpreter. *)
Lemma Mock_init_engine (byte_patterns : list bytes) (clp frc : bool) :
  Mock_init Standin.default_rng byte_patterns clp frc
  = Ok (Mock_engine byte_patterns clp frc).
Proof.
  unfold Mock_init. rewrite Mock_tokenizer_init. reflexivity.
Qed.

(** [Mock(byte_patterns=[b"cat"], force=True)] on the empty prefix: the
    generator yields "ca" (51) and "c" (725) for the pattern, and every
    one of the 882 scores is minus infinity. *)
Lemma force_blocks_every_token_witness :
  let e := Mock_engine [cat] false true in
  force e = true /\
  get_logits Standin.standard_normal e [] = Ok (repeat neg_infinity 882, e) /\
  _get_next_tokens e cat = Ok [51; 725] /\
  Forall blocked (repeat neg_infinity 882) /\
  length (repeat neg_infinity 882) = length Mock_tokens.
Proof.
  intros e.
  assert (Hforce : force e = true) by reflexivity.
  assert (Hlogits : get_logits Standin.standard_normal e []
                    = Ok (repeat neg_infinity 882, e))
    by (vm_compute; reflexivity).
  split; [exact Hforce|]. split; [exact Hlogits|].
  split; [vm_compute; reflexivity|].
  exact (force_blocks_every_token Standin.rng Standin.standard_normal e []
           (repeat neg_infinity 882) e Hforce Hlogits).
Defined.

(** C3 as stated fails on the code.  For the patterns "cat" and "cow" on
    the empty prefix the first pattern yields "ca" and "c", the second
    "co" and "c", and the biases added are 100, 50, 25 and 12.5 in that
    order: over zero noise "c", a matching token of both patterns, ends
    at 50 + 12.5 and not at 100 + 50, and "co", a matching token of the
    second pattern, at 25 and not at 50. *)
Lemma bias_decay_counterexample :
  let e := Mock_engine [cat; cow] false false in
  _get_next_tokens e cat = Ok [51; 725] /\
  _get_next_tokens e cow = Ok [65; 725] /\
  exists logits e',
    get_logits Standin.zeros e [] = Ok (logits, e') /\
    nth 51 logits 0%float = 100%float /\
    nth 725 logits 0%float = 62.5%float /\
    nth 65 logits 0%float = 25%float /\
    nth 725 logits 0%float <> 150%float /\
    nth 65 logits 0%float <> 50%float.
Proof.
  intros e.
  split; [vm_compute; reflexivity|]. split; [vm_compute; reflexivity|].
  destruct (get_logits Standin.zeros e []) as [[logits e']|x] eqn:E;
    vm_compute in E; [|discriminate].
  injection E as <- <-. eexists. eexists. split; [reflexivity|].
  split; [reflexivity|]. split; [reflexivity|]. split; [reflexivity|].
  split; intros H; apply (f_equal Prim2SF) in H; vm_compute in H;
    discriminate.
Qed.

(** The schedule of [get_logits] for the patterns "cat" and "cow". *)
Lemma get_logits_bias_schedule_witness :
  let e := Mock_engine [cat; cow] false false in
  exists logits e',
    get_logits Standin.standard_normal e [] = Ok (logits, e') /\
    exists pieces ys,
      mapM (py_getitem (tokens (tokenizer e))) [] = Ok pieces /\
      yielded e (concat pieces) (byte_patterns e) = Ok ys /\
      logits = add_all (fst (initial_logits Standin.standard_normal e))
                       (combine ys (halvings 100 (length ys))) /\
      (forall j, j < length ys ->
         nth_error (halvings 100 (length ys)) j
         = Some (Nat.iter j halve 100%float)) /\
      halvings 100 3 = [100; 50; 25]%float.
Proof.
  intros e.
  destruct (get_logits Standin.standard_normal e []) as [[logits e']|x] eqn:E;
    [|vm_compute in E; discriminate].
  exists logits, e'. split; [reflexivity|].
  exact (get_logits_bias_schedule Standin.rng Standin.standard_normal e []
           logits e' E).
Defined.

(** Two engines for the pattern "cat" that differ in
    [compute_log_probs] and in a recorded temperature answer the calls
    [get_logits([])], [get_logits([51])] alike. *)
Lemma reproducible_logits_witness :
  let e1 := Mock_engine [cat] false false in
  let e2 := record_temperature (Mock_engine [cat] true false) 0.5%float in
  same_configuration e1 e2 /\
  get_logits_calls Standin.standard_normal e1 [[]; [51%Z]]
  = get_logits_calls Standin.standard_normal e2 [[]; [51%Z]] /\
  exists ls, get_logits_calls Standin.standard_normal e1 [[]; [51%Z]] = Ok ls.
Proof.
  intros e1 e2.
  assert (Hsame : same_configuration e1 e2).
  { unfold same_configuration. repeat split; reflexivity. }
  split; [exact Hsame|]. split.
  - exact (proj2 (proj2 (reproducible_logits Standin.rng Standin.default_rng
                           Standin.standard_normal))
                 e1 e2 [[]; [51%Z]] Hsame).
  - destruct (get_logits_calls Standin.standard_normal e1 [[]; [51%Z]])
      as [ls|x] eqn:E; [|vm_compute in E; discriminate].
    now exists ls.
Defined.

(** [Mock(byte_patterns=[b"<s>ab"])] and the tokens [0, 2]: token 2
    ("ab") is the best-scored token at position 1. *)
Lemma topk_entry_reports_last_candidate_witness :
  let e := Mock_engine [bos_ab] false false in
  exists entries e',
    get_per_token_topk_probs Standin.standard_normal Standin.argsort
      Standin.softmax e [0%Z; 2%Z] 5 = Ok (entries, e') /\
    with_bos e [0%Z; 2%Z] = ([0%Z; 2%Z], false) /\
    exists entry e_i e_i' logits,
      nth_error entries 1 = Some entry /\
      get_logits Standin.standard_normal e_i [0%Z] = Ok (logits, e_i') /\
      GenTokenExtra.token_id entry
        = last (candidates Standin.argsort logits 5 2) 2%Z /\
      py_getitem (Standin.softmax logits) (GenTokenExtra.token_id entry)
        = Ok (GenTokenExtra.prob entry) /\
      (In 2%Z (top_k_ids Standin.argsort logits 5) ->
       last (top_k_ids Standin.argsort logits 5) 2%Z <> 2%Z ->
       GenTokenExtra.token_id entry <> 2%Z).
Proof.
  intros e.
  destruct (get_per_token_topk_probs Standin.standard_normal Standin.argsort
              Standin.softmax e [0%Z; 2%Z] 5) as [[entries e']|x] eqn:E;
    [|vm_compute in E; discriminate].
  exists entries, e'. split; [reflexivity|]. split; [reflexivity|].
  exact (topk_entry_reports_last_candidate Standin.rng
           Standin.standard_normal Standin.argsort Standin.softmax
           e e' [0%Z; 2%Z] 5 entries E 1 2%Z (le_n 1) eq_refl).
Defined.

(** On that input the entry for token 2 ("ab"), the best-scored token of
    its turn, reports token 248. *)
Lemma topk_entry_mismatch :
  let e := Mock_engine [bos_ab] false false in
  exists entries e' entry,
    get_per_token_topk_probs Standin.standard_normal Standin.argsort
      Standin.softmax e [0%Z; 2%Z] 5 = Ok (entries, e') /\
    nth_error entries 1 = Some entry /\
    GenTokenExtra.token_id entry = 248%Z /\
    map GenToken.token_id (GenTokenExtra.top_k entry)
    = [2; 723; 595; 497; 248]%Z.
Proof.
  intros e.
  destruct (get_per_token_topk_probs Standin.standard_normal Standin.argsort
              Standin.softmax e [0%Z; 2%Z] 5) as [[entries e']|x] eqn:E;
    vm_compute in E; [|discriminate].
  injection E as <- <-. eexists. eexists. eexists.
  split; [reflexivity|]. split; [reflexivity|]. split; reflexivity.
Qed.

(** The stand-ins meet what the walk asks of its parameters. *)
Lemma Standin_standard_normal_length (g : Standin.rng) (n : nat) :
  length (fst (Standin.standard_normal g n)) = n.
Proof.
  revert g. induction n as [|n IH]; intros g; simpl; [reflexivity|].
  specialize (IH (Standin.next g)).
  destruct (Standin.standard_normal (Standin.next g) n). simpl in *.
  now rewrite IH.
Qed.

Lemma In_place (x y : float * nat) (sorted : list (float * nat)) :
  In x (Standin.place y sorted) -> x = y \/ In x sorted.
Proof.
  induction sorted as [|z sorted IH]; simpl.
  - intros [H|[]]. now left.
  - destruct (fst y <? fst z)%float; simpl.
    + intros [H|H]; [now left | now right].
    + intros [H|H]; [right; now left|].
      destruct (IH H); [now left | right; now right].
Qed.

Lemma Standin_argsort_range (l : list float) (i : nat) :
  In i (Standin.argsort l) -> i < length l.
Proof.
  unfold Standin.argsort. intros H. apply in_map_iff in H.
  destruct H as [[v j] [<- H]]. simpl.
  assert (Hgen : forall xs acc,
            In (v, j) (fold_left (fun sorted x => Standin.place x sorted) xs acc)
            -> In (v, j) xs \/ In (v, j) acc).
  { induction xs as [|x xs IH]; intros acc Hin; simpl in *; [now right|].
    destruct (IH _ Hin) as [H1|H1]; [left; now right|].
    destruct (In_place _ _ _ H1) as [->|H2]; [left; now left | now right]. }
  destruct (Hgen _ _ H) as [Hc|[]].
  apply in_combine_r, in_seq in Hc. lia.
Qed.

(** Two tokens of the text vocabulary: the beginning-of-sequence id is
    put in front, three positions are walked, two entries returned. *)
Lemma per_token_length_witness :
  (forall g n, length (fst (Standin.standard_normal g n)) = n) /\
  (forall l i, In i (Standin.argsort l) -> i < length l) /\
  (forall l, length (Standin.softmax l) = length l) /\
  text_vocabulary Text_engine /\
  Forall (valid_id Text_engine) [1%Z; 3%Z] /\
  exists entries e',
    get_per_token_topk_probs Standin.standard_normal Standin.argsort
      Standin.softmax Text_engine [1%Z; 3%Z] 5 = Ok (entries, e') /\
    length entries = 2.
Proof.
  assert (Hsoftmax : forall l, length (Standin.softmax l) = length l)
    by (intros l; apply length_map).
  assert (Hvoc : text_vocabulary Text_engine).
  { split; [discriminate|]. split; [reflexivity|].
    repeat constructor. }
  assert (Hids : Forall (valid_id Text_engine) [1%Z; 3%Z]).
  { constructor; [unfold valid_id; simpl; lia|].
    constructor; [unfold valid_id; simpl; lia | constructor]. }
  split; [exact Standin_standard_normal_length|].
  split; [exact Standin_argsort_range|].
  split; [exact Hsoftmax|]. split; [exact Hvoc|]. split; [exact Hids|].
  exact (proj2 (proj2 (per_token_length Standin.rng Standin.standard_normal
                         Standin.argsort Standin.softmax))
               Standin_standard_normal_length Standin_argsort_range Hsoftmax
               Text_engine [1%Z; 3%Z] 5%Z Hvoc Hids).
Defined.

(* ===================================================================== *)
(** * Further properties of the module *)
(* ===================================================================== *)

(** ** The nodes of a trie *)

Section TrieNodes.

Variable F : Type.
Variable fzero : F.

Local Abbreviation trie := (ByteTrie F).

Lemma has_node_nil (t : trie) : has_node t [] = true.
Proof. reflexivity. Qed.

Lemma has_node_cons (t : trie) (b : Byte.byte) (p : bytes) :
  has_node t (b :: p) =
  match child t b with
  | Some c => has_node c p
  | None => false
  end.
Proof. unfold has_node. simpl. now destruct (child t b). Qed.

Lemma has_node_new (p : bytes) :
  has_node (ByteTrie_new fzero) p = match p with [] => true | _ => false end.
Proof. destruct p; reflexivity. Qed.

Lemma startswith_nil (s : bytes) : startswith s [] = true.
Proof. now destruct s. Qed.

Lemma has_node_insert (s : bytes) (v : Z) (t : trie) (p : bytes) :
  has_node (insert fzero s v t) p = has_node t p || startswith s p.
Proof.
  revert t p. induction s as [|b s IH]; intros t p.
  - destruct p as [|a p]; [reflexivity|].
    rewrite !has_node_cons. cbn [startswith]. rewrite orb_false_r.
    unfold child. simpl. now destruct (value t <? 0)%Z.
  - destruct p as [|a p]; [reflexivity|].
    rewrite !has_node_cons. cbn [startswith].
    destruct (Byte.eqb b a) eqn:E.
    + apply byte_eqb_eq in E. subst a. cbn [andb].
      rewrite child_insert_same, IH.
      destruct (child t b); [reflexivity|].
      rewrite has_node_new. destruct p; [|reflexivity].
      now rewrite startswith_nil.
    + apply byte_eqb_neq in E.
      rewrite child_insert_other by assumption.
      cbn [andb]. now rewrite orb_false_r.
Qed.

Lemma existsb_enumerate_from (A : Type) (f : A -> bool) (i : nat)
  (l : list A) :
  existsb (fun it => f (snd it)) (enumerate_from i l) = existsb f l.
Proof.
  revert i. induction l as [|a l IH]; intros i; simpl; [reflexivity|].
  now rewrite IH.
Qed.

Lemma has_node_insert_enumerated (l : list (nat * bytes)) (vs : list Z)
  (t t' : trie) (p : bytes) :
  insert_enumerated fzero t l vs = Ok t' ->
  has_node t' p = has_node t p || existsb (fun it => startswith (snd it) p) l.
Proof.
  revert t. induction l as [|[i s] l IH]; intros t H; simpl in H.
  - injection H as <-. simpl. now rewrite orb_false_r.
  - destruct (py_getitem vs (Z.of_nat i)) as [v|e]; cbn [bind] in H;
      [|discriminate].
    rewrite (IH _ H), has_node_insert. simpl. now rewrite orb_assoc.
Qed.

Lemma has_node_fold_insert (ss : list bytes) (v : Z) (t : trie) (p : bytes) :
  has_node (fold_left (fun t s => insert fzero s v t) ss t) p =
  has_node t p || existsb (fun s => startswith s p) ss.
Proof.
  revert t. induction ss as [|s ss IH]; intros t; simpl.
  - now rewrite orb_false_r.
  - now rewrite IH, has_node_insert, orb_assoc.
Qed.

(** [insert] adds the nodes on the path of its byte string and no
    other, and keeps every node there was; so the trie [__init__] builds
    has a node for exactly the prefixes of its byte strings (and the
    root). *)
Theorem trie_nodes_are_prefixes :
  (forall (s : bytes) (v : Z) (t : trie) (p : bytes),
     has_node (insert fzero s v t) p = has_node t p || startswith s p) /\
  (forall (ss : list bytes) (values : option (list Z)) (t : trie) (p : bytes),
     ByteTrie_init fzero (Some ss) values = Ok t ->
     has_node t p =
     match p with [] => true | _ => existsb (fun s => startswith s p) ss end).
Proof.
  split; [exact has_node_insert|].
  intros ss values t p H. unfold ByteTrie_init in H.
  assert (Hgoal : has_node t p = has_node (ByteTrie_new fzero) p
                                 || existsb (fun s => startswith s p) ss).
  { destruct values as [vs|].
    - rewrite (has_node_insert_enumerated _ _ _ _ p H).
      unfold enumerate.
      now rewrite (existsb_enumerate_from _ (fun s => startswith s p)).
    - injection H as <-. apply has_node_fold_insert. }
  rewrite Hgoal, has_node_new. now destruct p.
Qed.

End TrieNodes.

(** ** What [ByteTrie.__init__] accepts *)

Lemma py_getitem_range (A : Type) (l : list A) (i : Z) :
  (exists a, py_getitem l i = Ok a) <->
  (- Z.of_nat (length l) <= i < Z.of_nat (length l))%Z.
Proof.
  unfold py_getitem. split.
  - intros [a H].
    destruct (Z.ltb_spec i 0) as [Hi|Hi].
    + destruct (Z.leb_spec 0 (i + Z.of_nat (length l)));
        destruct (Z.ltb_spec (i + Z.of_nat (length l)) (Z.of_nat (length l)));
        simpl in H; try discriminate; lia.
    + destruct (Z.leb_spec 0 i);
        destruct (Z.ltb_spec i (Z.of_nat (length l)));
        simpl in H; try discriminate; lia.
  - intros H.
    remember (if (i <? 0)%Z then i + Z.of_nat (length l) else i)%Z as j
      eqn:Ej.
    assert (Hj : (0 <= j < Z.of_nat (length l))%Z)
      by (subst j; destruct (Z.ltb_spec i 0); lia).
    destruct (Z.leb_spec 0 j); [|lia].
    destruct (Z.ltb_spec j (Z.of_nat (length l))); [|lia]. simpl.
    destruct (nth_error l (Z.to_nat j)) as [a|] eqn:E; [now exists a|].
    apply nth_error_None in E. lia.
Qed.

Lemma py_getitem_out_of_range (A : Type) (l : list A) (i : Z) :
  ~ (- Z.of_nat (length l) <= i < Z.of_nat (length l))%Z ->
  py_getitem l i = Raise IndexError.
Proof.
  intros H. destruct (py_getitem l i) as [a|e] eqn:E.
  - exfalso. apply H. apply py_getitem_range. now exists a.
  - now rewrite (py_getitem_raise _ _ _ _ E).
Qed.

Section TrieInit.

Variable F : Type.
Variable fzero : F.

Local Abbreviation trie := (ByteTrie F).

Lemma insert_enumerated_enough (ss : list bytes) (vs : list Z) (i : nat)
  (t : trie) :
  i + length ss <= length vs ->
  exists t', insert_enumerated fzero t (enumerate_from i ss) vs = Ok t'.
Proof.
  revert i t. induction ss as [|s ss IH]; intros i t H; simpl in *.
  - now exists t.
  - destruct (proj2 (py_getitem_range _ vs (Z.of_nat i))) as [v ->]; [lia|].
    cbn [bind]. apply IH. lia.
Qed.

Lemma insert_enumerated_short (ss : list bytes) (vs : list Z) (i : nat)
  (t : trie) :
  ss <> [] -> length vs < i + length ss ->
  insert_enumerated fzero t (enumerate_from i ss) vs = Raise IndexError.
Proof.
  revert i t. induction ss as [|s ss IH]; intros i t Hne H; [contradiction|].
  simpl in *. destruct (Nat.lt_ge_cases i (length vs)) as [Hi|Hi].
  - destruct (proj2 (py_getitem_range _ vs (Z.of_nat i))) as [v ->]; [lia|].
    cbn [bind]. apply IH; [|lia]. intros ->. simpl in H. lia.
  - rewrite py_getitem_out_of_range by lia. reflexivity.
Qed.

Lemma value_at_fold_insert (ss : list bytes) (v : Z) (t : trie) (p : bytes) :
  value_at (fold_left (fun t s => insert fzero s v t) ss t) p =
  if (value_at t p <? 0)%Z
  then (if existsb (bytes_eqb p) ss then v else value_at t p)
  else value_at t p.
Proof.
  revert t. induction ss as [|s ss IH]; intros t; cbn [fold_left existsb].
  - now destruct (value_at t p <? 0)%Z.
  - rewrite IH, value_at_insert.
    destruct (bytes_eqb p s) eqn:E; cbn [orb]; [|reflexivity].
    apply bytes_eqb_eq in E. subst s.
    destruct (Z.ltb_spec (value_at t p) 0) as [H|H].
    + destruct (Z.ltb_spec v 0); [|reflexivity].
      now destruct (existsb (bytes_eqb p) ss).
    + destruct (Z.ltb_spec (value_at t p) 0); [lia | reflexivity].
Qed.

(** [ByteTrie(byte_strings, values)]: without byte strings the trie is
    a single unset node; without values every byte string is stored
    under 0; with values the call fails, with [IndexError], exactly when
    there are fewer values than byte strings. *)
Theorem ByteTrie_init_accepts :
  (forall values, ByteTrie_init fzero None values = Ok (ByteTrie_new fzero)) /\
  (forall (ss : list bytes),
     exists t : trie,
       ByteTrie_init fzero (Some ss) None = Ok t /\
       forall p, value_at t p
                 = if existsb (bytes_eqb p) ss then 0%Z else (-1)%Z) /\
  (forall (ss : list bytes) (vs : list Z),
     ((exists t : trie, ByteTrie_init fzero (Some ss) (Some vs) = Ok t)
      <-> length ss <= length vs) /\
     (forall e, ByteTrie_init fzero (Some ss) (Some vs) = Raise e ->
                e = IndexError)).
Proof.
  split; [reflexivity|]. split.
  - intros ss. eexists. split; [reflexivity|]. intros p.
    rewrite value_at_fold_insert, value_at_new. reflexivity.
  - intros ss vs. unfold ByteTrie_init, enumerate.
    destruct (Nat.le_gt_cases (length ss) (length vs)) as [H|H].
    + destruct (insert_enumerated_enough ss vs 0 (ByteTrie_new fzero) H)
        as [t Ht].
      split; [split; [intros _; exact H | intros _; now exists t]|].
      intros e He. congruence.
    + assert (Hne : ss <> []) by (intros ->; simpl in H; lia).
      rewrite (insert_enumerated_short ss vs 0 (ByteTrie_new fzero) Hne H).
      split; [split; [intros [t Ht]; discriminate | lia]|].
      intros e He. congruence.
Qed.

(** ** The keys of a node *)

Lemma keys_dict_update (d : list (Byte.byte * trie)) (k : Byte.byte)
  (f : trie -> trie) :
  map fst (dict_update d k f) = map fst d.
Proof.
  induction d as [|[k0 c0] d IH]; simpl; [reflexivity|].
  destruct (Byte.eqb k0 k); simpl; [reflexivity | now rewrite IH].
Qed.

Lemma dict_get_None_keys (d : list (Byte.byte * trie)) (k : Byte.byte) :
  dict_get d k = None <-> ~ In k (map fst d).
Proof.
  induction d as [|[k0 c0] d IH]; simpl.
  - tauto.
  - destruct (Byte.eqb k0 k) eqn:E.
    + apply byte_eqb_eq in E. split; [discriminate | tauto].
    + apply byte_eqb_neq in E. rewrite IH. tauto.
Qed.

Lemma keys_unique_node (v : Z) (p : F) (ch : list (Byte.byte * trie)) :
  keys_unique (Node v p ch) <->
  NoDup (map fst ch) /\ Forall (fun kc => keys_unique (snd kc)) ch.
Proof.
  unfold keys_unique. simpl. split.
  - intros H. inversion H as [|? ? Hk Hch]; subst. split; [exact Hk|].
    clear - Hch. induction ch as [|kc ch IH]; constructor;
      simpl in Hch; apply Forall_app in Hch; tauto.
  - intros [Hk Hch]. constructor; [exact Hk|]. clear Hk.
    induction Hch as [|kc ch Hkc _ IH]; simpl; [constructor|].
    apply Forall_app. split; assumption.
Qed.

Lemma keys_unique_new : keys_unique (ByteTrie_new fzero).
Proof.
  apply keys_unique_node. split; constructor.
Qed.

Lemma keys_insert (s : bytes) (v : Z) (t : trie) :
  keys (insert fzero s v t) =
  match s with
  | [] => keys t
  | b :: _ => if has_child t b then keys t else keys t ++ [b]
  end.
Proof.
  destruct t as [v0 p0 ch]. destruct s as [|b s].
  - simpl. now destruct (v0 <? 0)%Z.
  - unfold keys. cbn [insert children value prob].
    rewrite keys_dict_update.
    destruct (has_child (Node v0 p0 ch) b); [reflexivity|].
    now rewrite map_app.
Qed.

Lemma keys_unique_insert (s : bytes) (v : Z) (t : trie) :
  keys_unique t -> keys_unique (insert fzero s v t).
Proof.
  revert t. induction s as [|b s IH]; intros [v0 p0 ch] H.
  - simpl. destruct (v0 <? 0)%Z; [|exact H].
    apply keys_unique_node in H. now apply keys_unique_node.
  - apply keys_unique_node in H. destruct H as [Hk Hch].
    cbn [insert children value prob]. unfold has_child. cbn [children].
    apply keys_unique_node. rewrite keys_dict_update.
    destruct (dict_get ch b) as [c|] eqn:E.
    + split; [exact Hk|].
      destruct (dict_get_split _ ch b c E) as [l1 [l2 [-> Hupd]]].
      rewrite Hupd. apply Forall_app in Hch. destruct Hch as [Hl1 Hl2].
      inversion Hl2 as [|? ? Hc Hl2']; subst.
      apply Forall_app. split; [exact Hl1|].
      constructor; [exact (IH c Hc) | exact Hl2'].
    + split.
      * rewrite map_app. simpl.
        apply (Permutation_NoDup (Permutation_cons_append (map fst ch) b)).
        constructor; [now apply dict_get_None_keys | exact Hk].
      * rewrite dict_update_new by assumption.
        apply Forall_app. split; [exact Hch|].
        constructor; [exact (IH _ keys_unique_new) | constructor].
Qed.

Lemma keys_unique_insert_enumerated (l : list (nat * bytes)) (vs : list Z)
  (t t' : trie) :
  keys_unique t -> insert_enumerated fzero t l vs = Ok t' -> keys_unique t'.
Proof.
  revert t. induction l as [|[i s] l IH]; intros t Ht H; simpl in H.
  - now injection H as <-.
  - destruct (py_getitem vs (Z.of_nat i)) as [v|e]; cbn [bind] in H;
      [|discriminate].
    apply (IH _ (keys_unique_insert s v t Ht) H).
Qed.

Lemma keys_unique_fold_insert (ss : list bytes) (v : Z) (t : trie) :
  keys_unique t ->
  keys_unique (fold_left (fun t s => insert fzero s v t) ss t).
Proof.
  revert t. induction ss as [|s ss IH]; intros t Ht; simpl; [exact Ht|].
  apply IH. now apply keys_unique_insert.
Qed.

(** The keys of a node stay distinct: [insert] gives the node it
    descends from at most one new key, the first byte of what is left of
    the byte string and only where it was missing, keeps the keys there
    were in their order, and leaves every node with distinct keys; so
    has every trie [__init__] builds. *)
Theorem children_keys_distinct :
  (forall (s : bytes) (v : Z) (t : trie),
     keys (insert fzero s v t)
     = match s with
       | [] => keys t
       | b :: _ => if has_child t b then keys t else keys t ++ [b]
       end) /\
  (forall (s : bytes) (v : Z) (t : trie),
     keys_unique t -> keys_unique (insert fzero s v t)) /\
  (forall byte_strings values (t : trie),
     ByteTrie_init fzero byte_strings values = Ok t -> keys_unique t).
Proof.
  split; [exact keys_insert|]. split; [exact keys_unique_insert|].
  intros byte_strings values t H. unfold ByteTrie_init in H.
  destruct byte_strings as [ss|].
  - destruct values as [vs|].
    + exact (keys_unique_insert_enumerated _ _ _ _ keys_unique_new H).
    + injection H as <-. apply keys_unique_fold_insert, keys_unique_new.
  - injection H as <-. apply keys_unique_new.
Qed.

(** A negative value does not settle a path: [insert] tests
    [self.value < 0], so after a byte string was inserted under a
    negative value a later insert of it under another value replaces
    that value. *)
Theorem insert_negative_is_replaced (s : bytes) (v1 v2 : Z) (t : trie) :
  (v1 < 0)%Z -> (value_at t s < 0)%Z ->
  value_at (insert fzero s v1 t) s = v1 /\
  value_at (insert fzero s v2 (insert fzero s v1 t)) s = v2.
Proof.
  intros H1 Ht.
  assert (E1 : value_at (insert fzero s v1 t) s = v1).
  { rewrite value_at_insert, bytes_eqb_refl.
    destruct (Z.ltb_spec (value_at t s) 0); [reflexivity | lia]. }
  split; [exact E1|].
  rewrite value_at_insert, bytes_eqb_refl, E1.
  destruct (Z.ltb_spec v1 0); [reflexivity | lia].
Qed.

End TrieInit.

(** ** What [compute_probs] reads and what it leaves alone *)

Section ComputeProbs.

Variable F : Type.
Variable fzero : F.
Variable fadd : F -> F -> F.

Local Abbreviation trie := (ByteTrie F).
Local Abbreviation compute := (compute_probs fzero fadd).

Lemma each_child_raise (rec : trie -> result trie)
  (ch : list (Byte.byte * trie)) (acc : F) (e : exn) :
  each_child fadd rec ch acc = Raise e ->
  Exists (fun kc => rec (snd kc) = Raise e) ch.
Proof.
  revert acc. induction ch as [|[k c] ch IH]; intros acc H; simpl in H;
    [discriminate|].
  destruct (rec c) as [c'|e1] eqn:Ec; cbn [bind] in H.
  - destruct (each_child fadd rec ch (fadd acc (prob c')))
      as [[p rest]|e2] eqn:Er; cbn [bind] in H; [discriminate|].
    injection H as <-. right. exact (IH _ Er).
  - injection H as <-. now left.
Qed.

Lemma compute_probs_raises_IndexError (probs : list F) (t : trie) (e : exn) :
  compute probs t = Raise e -> e = IndexError.
Proof.
  induction t as [v p ch IH] using ByteTrie_ind. intros H. simpl in H.
  destruct (v =? -1)%Z.
  - cbn [bind] in H.
    destruct (each_child fadd (compute probs) ch fzero) as [[p1 ch']|e1] eqn:E;
      cbn [bind] in H; [discriminate|].
    injection H as <-. apply each_child_raise in E.
    rewrite Forall_forall in IH. apply Exists_exists in E.
    destruct E as [kc [Hin Hkc]]. exact (IH kc Hin Hkc).
  - destruct (py_getitem probs v) as [pv|e0] eqn:Ev; cbn [bind] in H.
    + destruct (each_child fadd (compute probs) ch (fadd fzero pv))
        as [[p1 ch']|e1] eqn:E; cbn [bind] in H; [discriminate|].
      injection H as <-. apply each_child_raise in E.
      rewrite Forall_forall in IH. apply Exists_exists in E.
      destruct E as [kc [Hin Hkc]]. exact (IH kc Hin Hkc).
    + injection H as <-. exact (py_getitem_raise _ _ _ _ Ev).
Qed.

Lemma compute_probs_readable (probs : list F) (t t' : trie) :
  compute probs t = Ok t' ->
  Forall (fun v => exists p, py_getitem probs v = Ok p) (terminal_values t).
Proof.
  revert t'. induction t as [v p ch IH] using ByteTrie_ind. intros t' H.
  simpl in H. simpl. apply Forall_app.
  destruct (if (v =? -1)%Z then Ok fzero
            else (p0 <- py_getitem probs v ;; Ok (fadd fzero p0)))
    as [p0|e] eqn:E0; cbn [bind] in H; [|discriminate].
  split.
  - destruct (v =? -1)%Z; [constructor|].
    destruct (py_getitem probs v) as [pv|e] eqn:Ev; [|discriminate].
    constructor; [|constructor].
    exists pv. first [reflexivity | exact Ev].
  - destruct (each_child fadd (compute probs) ch p0) as [[p1 ch']|e] eqn:E;
      cbn [bind] in H; [|discriminate].
    apply each_child_inv in E. destruct E as [E _]. clear H E0.
    induction E as [|kc kc' ch ch' [_ Hc] _ IHE]; simpl; [constructor|].
    inversion IH as [|? ? Hkc IH']; subst.
    apply Forall_app. split; [exact (Hkc _ Hc) | exact (IHE IH')].
Qed.

(** [compute_probs] returns exactly when [probs] can be indexed at every
    terminal value, a negative value counting from the end as Python
    has it; otherwise it raises [IndexError]. *)
Theorem compute_probs_fails_out_of_range (probs : list F) (t : trie) :
  ((exists t', compute probs t = Ok t') <->
   Forall (fun v => (- Z.of_nat (length probs) <= v
                     < Z.of_nat (length probs))%Z) (terminal_values t)) /\
  (forall e, compute probs t = Raise e -> e = IndexError).
Proof.
  split; [|intros e; apply compute_probs_raises_IndexError].
  split.
  - intros [t' H]. apply compute_probs_readable in H.
    eapply Forall_impl; [|exact H]. intros v Hv. now apply py_getitem_range.
  - intros H. apply compute_probs_ok.
    eapply Forall_impl; [|exact H]. intros v Hv. now apply py_getitem_range.
Qed.

Lemma dict_get_reset (ch : list (Byte.byte * trie)) (b : Byte.byte) :
  dict_get (map (fun kc => (fst kc, reset fzero (snd kc))) ch) b
  = option_map (reset fzero) (dict_get ch b).
Proof.
  induction ch as [|[k c] ch IH]; simpl; [reflexivity|].
  now destruct (Byte.eqb k b).
Qed.

Lemma find_node_reset (t : trie) (p : bytes) :
  find_node (reset fzero t) p = option_map (reset fzero) (find_node t p).
Proof.
  revert t. induction p as [|b p IH]; intros [v0 p0 ch]; [reflexivity|].
  cbn [find_node reset]. unfold child. cbn [children].
  rewrite dict_get_reset. destruct (dict_get ch b); simpl; [apply IH|].
  reflexivity.
Qed.

Lemma value_at_reset (t : trie) (p : bytes) :
  value_at (reset fzero t) p = value_at t p.
Proof.
  unfold value_at. rewrite find_node_reset.
  destruct (find_node t p) as [[v0 p0 ch]|]; reflexivity.
Qed.

Lemma has_node_reset (t : trie) (p : bytes) :
  has_node (reset fzero t) p = has_node t p.
Proof.
  unfold has_node. rewrite find_node_reset. now destruct (find_node t p).
Qed.

Lemma keys_reset (t : trie) : keys (reset fzero t) = keys t.
Proof.
  destruct t as [v0 p0 ch]. unfold keys. simpl. rewrite map_map. reflexivity.
Qed.

(** [compute_probs] writes [prob] fields only: the recomputed trie has
    the same nodes, the same values and the same keys, so a lookup or
    the walk of [encode] sees no difference. *)
Theorem compute_probs_keeps_lookups (probs : list F) (t t' : trie) :
  compute probs t = Ok t' ->
  (forall p, value_at t' p = value_at t p) /\
  (forall p, has_node t' p = has_node t p) /\
  keys t' = keys t /\
  (forall rest match_pos last_match,
     walk t' rest match_pos last_match = walk t rest match_pos last_match).
Proof.
  intros H. destruct (compute_probs_shape F fzero fadd probs t t' H) as [Hr _].
  assert (Hv : forall p, value_at t' p = value_at t p).
  { intros p. now rewrite <- (value_at_reset t'), Hr, value_at_reset. }
  split; [exact Hv|]. split.
  { intros p. now rewrite <- (has_node_reset t'), Hr, has_node_reset. }
  split.
  { now rewrite <- (keys_reset t'), Hr, keys_reset. }
  intros rest match_pos last_match. rewrite !walk_longest.
  now rewrite (longest_ext _ _ rest Hv).
Qed.

End ComputeProbs.

(** ** What [encode] returns *)

Lemma longest_whole (f : bytes -> Z) (rest : bytes) :
  rest <> [] -> (0 <= f rest)%Z ->
  longest f rest = Some (f rest, length rest).
Proof.
  revert f. induction rest as [|b rest IH]; intros f Hne H; [contradiction|].
  cbn [longest length]. destruct rest as [|c rest].
  - simpl. destruct (Z.geb_spec (f [b]) 0); [reflexivity | lia].
  - rewrite (IH (fun q => f (b :: q))); [reflexivity | discriminate | exact H].
Qed.

Lemma greedy_ids (toks : list bytes) (s : bytes) (ids : list Z) :
  greedy toks s ids ->
  Forall (fun id => (0 <= id < Z.of_nat (length toks))%Z) ids /\
  length ids <= length s.
Proof.
  induction 1 as [|t s ids Hne Hin Hmax Hg [IH1 IH2]].
  - split; [constructor | simpl; lia].
  - split.
    + constructor; [|exact IH1].
      pose proof (proj2 (token_index_In toks t) Hin) as Hpos.
      unfold token_index in *.
      destruct (index_from_range 0 toks t) as [E | [j [E [Hj _]]]]; [lia|].
      rewrite E. simpl.
      assert (j < length toks) by (apply nth_error_Some; congruence). lia.
    + rewrite length_app. simpl. destruct t; [contradiction|]. simpl. lia.
Qed.

Lemma encode_entry (toks : list bytes) (trie : ByteTrie float) (t : bytes) :
  (forall p, value_at trie p = token_index toks p) ->
  In t toks -> t <> [] ->
  encode_loop (length t) trie t 0 [] = Some (Ok [token_index toks t]).
Proof.
  intros Htab Hin Hne. destruct t as [|b t]; [contradiction|].
  cbn [length encode_loop Nat.ltb Nat.leb].
  rewrite (walk_at _ _ Htab). cbn [skipn].
  rewrite longest_whole; [|discriminate | now apply token_index_In].
  cbn [Nat.add length]. destruct t as [|c t]; simpl.
  - reflexivity.
  - destruct (length t); simpl in *; [reflexivity|].
    now rewrite Nat.ltb_irrefl.
Qed.

(** Whenever [encode] returns, for any vocabulary: the ids are ids of
    the vocabulary, there are at most as many as the input has bytes,
    and the bytes of their tokens concatenated are the input.  The empty
    input gives no ids.  A non-empty vocabulary entry is encoded as its
    own first id. *)
Theorem encode_returns_vocabulary_ids (toks : list bytes)
  (sp : option (list Z)) (tk : MockTokenizer) :
  MockTokenizer_init toks sp = Ok tk ->
  (forall s ids,
     encode tk s true = Some (Ok ids) ->
     Forall (fun id => (0 <= id < Z.of_nat (length toks))%Z) ids /\
     length ids <= length s /\
     mapM (py_getitem toks) ids = Ok (map (fun id => nth (Z.to_nat id) toks [])
                                         ids) /\
     concat (map (fun id => nth (Z.to_nat id) toks []) ids) = s) /\
  encode tk [] true = Some (Ok []) /\
  (forall t, In t toks -> t <> [] ->
     encode tk t true = Some (Ok [token_index toks t])).
Proof.
  intros Hinit. destruct (MockTokenizer_init_inv _ _ _ Hinit) as [Htoks Htab].
  split; [|split; [reflexivity|]].
  - intros s ids He. rewrite encode_unfold in He.
    destruct (encode_loop_ok _ _ Htab s (length s) 0 [] _ (Nat.le_0_l _) He)
      as [ids' [-> Hg]].
    simpl in *. destruct (greedy_ids _ _ _ Hg) as [Hids Hlen].
    split; [exact Hids|]. split; [exact Hlen|].
    clear He Hlen Hids. induction Hg as [|t s ids Hne Hin Hmax Hg [IH1 IH2]].
    + split; reflexivity.
    + pose proof (token_index_getitem _ _ Hin) as Hget.
      assert (Hnth : nth (Z.to_nat (token_index toks t)) toks [] = t).
      { pose proof (proj2 (token_index_In toks t) Hin) as Hpos.
        unfold token_index in *.
        destruct (index_from_range 0 toks t) as [E | [j [E [Hj _]]]]; [lia|].
        rewrite E. simpl. rewrite Nat2Z.id. now apply nth_error_nth. }
      split.
      * cbn [mapM map]. rewrite Hget. cbn [bind]. rewrite IH1. cbn [bind].
        now rewrite Hnth.
      * cbn [map concat]. now rewrite Hnth, IH2.
  - intros t Hin Hne. rewrite encode_unfold.
    exact (encode_entry toks (byte_trie tk) t Htab Hin Hne).
Qed.

(** ** The vocabulary of [Mock] *)

Lemma Mock_tokens_distinct (i : nat) (t : bytes) :
  nth_error Mock_tokens i = Some t ->
  token_index Mock_tokens t = Z.of_nat i /\ t <> [].
Proof.
  intros H.
  assert (Hall : forallb
            (fun i => match nth_error Mock_tokens i with
                      | Some t => (token_index Mock_tokens t =? Z.of_nat i)%Z
                                  && negb (bytes_eqb t [])
                      | None => false
                      end)
            (seq 0 882) = true) by (vm_compute; reflexivity).
  rewrite forallb_forall in Hall.
  assert (Hi : i < 882).
  { change 882 with (length Mock_tokens). apply nth_error_Some. congruence. }
  specialize (Hall i (proj2 (in_seq 882 0 i) (conj (Nat.le_0_l i) Hi))).
  cbv beta in Hall. rewrite H in Hall.
  apply andb_true_iff in Hall. destruct Hall as [H1 H2].
  split; [now apply Z.eqb_eq|].
  intros ->. rewrite bytes_eqb_refl in H2. discriminate.
Qed.

(** [Mock.__init__] cannot fail.  Its tokenizer encodes every byte
    string, and decoding the ids gives the byte string back; and no two
    ids stand for the same bytes: the bytes of id [i] are encoded as
    [[i]]. *)
Theorem Mock_tokenizer_encodes_everything (rng : Type)
  (default_rng : Z -> rng) (byte_patterns : list bytes) (clp frc : bool) :
  exists e,
    Mock_init default_rng byte_patterns clp frc = Ok e /\
    tokens (tokenizer e) = Mock_tokens /\
    (forall s, exists ids,
       encode (tokenizer e) s true = Some (Ok ids) /\
       decode (tokenizer e) ids = Ok s) /\
    (forall i t, nth_error Mock_tokens i = Some t ->
       encode (tokenizer e) t true = Some (Ok [Z.of_nat i])).
Proof.
  unfold Mock_init. rewrite Mock_tokenizer_init. cbn [bind].
  eexists. split; [reflexivity|]. cbn [tokenizer MockEngine_init].
  destruct (MockTokenizer_init_inv _ _ _ Mock_tokenizer_init) as [Htoks Htab].
  split; [exact Htoks|]. split.
  - intros s.
    destruct (encode_covered _ (byte_trie Mock_tokenizer) s Htab
                (fun b _ => Mock_tokens_cover b)) as [ids [He Hg]].
    exists ids. split; [exact He|]. apply greedy_decode. now rewrite Htoks.
  - intros i t Hi. destruct (Mock_tokens_distinct i t Hi) as [<- Hne].
    rewrite encode_unfold. apply encode_entry; [exact Htab | | exact Hne].
    now apply nth_error_In in Hi.
Qed.

(** ** The tokens [_get_next_tokens] yields *)

Lemma yield_filter (f : bytes -> bool) (l : list bytes) (i : nat) :
  (forall j,
     In j (map fst (filter (fun it => f (snd it)) (enumerate_from i l))) <->
     exists t, i <= j /\ nth_error l (j - i) = Some t /\ f t = true) /\
  StronglySorted lt
    (map fst (filter (fun it => f (snd it)) (enumerate_from i l))).
Proof.
  revert i. induction l as [|a l IH]; intros i.
  - simpl. split; [|constructor]. intros j. split; [tauto|].
    intros [t [_ [H _]]]. destruct (j - i); discriminate.
  - destruct (IH (S i)) as [IHin IHs]. cbn [enumerate_from filter snd].
    assert (Hin : forall j,
              (exists t, i <= j /\ nth_error (a :: l) (j - i) = Some t
                         /\ f t = true) <->
              (j = i /\ f a = true) \/
              (exists t, S i <= j /\ nth_error l (j - S i) = Some t
                         /\ f t = true)).
    { intros j. split.
      - intros [t [Hij [Hn Hf]]].
        destruct (Nat.eq_dec j i) as [->|Hne].
        + rewrite Nat.sub_diag in Hn. simpl in Hn. injection Hn as ->.
          now left.
        + right. exists t. split; [lia|]. split; [|exact Hf].
          replace (j - i) with (S (j - S i)) in Hn by lia. exact Hn.
      - intros [[-> Hf] | [t [Hij [Hn Hf]]]].
        + exists a. rewrite Nat.sub_diag. now repeat split.
        + exists t. split; [lia|]. split; [|exact Hf].
          replace (j - i) with (S (j - S i)) by lia. exact Hn. }
    destruct (f a) eqn:Ea; cbn [map fst].
    + split.
      * intros j. rewrite Hin. simpl. rewrite IHin.
        split; intros [H|H]; try (now right);
          left; destruct H; try split; congruence.
      * constructor; [exact IHs|].
        apply Forall_forall. intros j Hj. apply IHin in Hj.
        destruct Hj as [t [Hij _]]. lia.
    + split; [|exact IHs].
      intros j. rewrite Hin, IHin. split; [now right|].
      intros [[_ H]|H]; [discriminate | exact H].
Qed.

Section NextTokens.

Variable rng : Type.

Local Abbreviation engine := (MockEngine rng).

(** Over a vocabulary whose first token (the beginning- and
    end-of-sequence token) is [t0]: where [byte_string] starts with
    [t0], only id 0 is yielded; otherwise the ids yielded are exactly
    the ids whose tokens are prefixes of [byte_string], in increasing
    order. *)
Theorem _get_next_tokens_yields (self : engine) (byte_string : bytes)
  (t0 : bytes) (rest : list bytes) :
  tokens (tokenizer self) = t0 :: rest ->
  (startswith byte_string t0 = true ->
   _get_next_tokens self byte_string = Ok [0]) /\
  (startswith byte_string t0 = false ->
   exists ids,
     _get_next_tokens self byte_string = Ok ids /\
     (forall i, In i ids <->
                exists t, nth_error (tokens (tokenizer self)) i = Some t /\
                          startswith byte_string t = true) /\
     StronglySorted lt ids).
Proof.
  intros Htoks.
  assert (Hbos : decode (tokenizer self) [0%Z] = Ok t0).
  { unfold decode. simpl. rewrite Htoks. unfold py_getitem. simpl.
    now rewrite app_nil_r. }
  unfold _get_next_tokens, bos_token, eos_token, bos_token_id, eos_token_id.
  rewrite Hbos. cbn [bind List.find snd].
  split; intros H; rewrite H.
  - reflexivity.
  - eexists. split; [reflexivity|].
    destruct (yield_filter (startswith byte_string)
                (tokens (tokenizer self)) 0) as [Hin Hs].
    split; [|exact Hs].
    intros i. unfold enumerate. rewrite Hin. rewrite Nat.sub_0_r.
    split; intros [t Ht]; exists t; [tauto | split; [lia | tauto]].
Qed.

End NextTokens.

(** ** What [get_logits] accepts, returns and changes *)

Lemma mapM_raise (A B : Type) (f : A -> result B) (l : list A) (e : exn) :
  mapM f l = Raise e -> exists a, In a l /\ f a = Raise e.
Proof.
  induction l as [|a l IH]; simpl; [discriminate|].
  destruct (f a) as [b|e1] eqn:Ea; cbn [bind].
  - destruct (mapM f l) as [bs|e2]; cbn [bind]; [discriminate|].
    intros H. injection H as <-. destruct (IH eq_refl) as [a' [Hin Ha']].
    exists a'. split; [now right | exact Ha'].
  - intros H. injection H as <-. exists a. split; [now left | exact Ea].
Qed.

Lemma mapM_inv (A B : Type) (f : A -> result B) (l : list A) (bs : list B) :
  mapM f l = Ok bs -> Forall2 (fun a b => f a = Ok b) l bs.
Proof.
  revert bs. induction l as [|a l IH]; intros bs H; simpl in H.
  - injection H as <-. constructor.
  - destruct (f a) as [b|e] eqn:Ea; cbn [bind] in H; [|discriminate].
    destruct (mapM f l) as [bs'|e]; cbn [bind] in H; [|discriminate].
    injection H as <-. constructor; [exact Ea | now apply IH].
Qed.

Lemma mul_zero_score (x : float) :
  finite_score x -> zero_score (x * 0)%float.
Proof.
  unfold finite_score, zero_score. rewrite mul_spec.
  destruct (Prim2SF x) as [s | s | | s m e]; intros H; try contradiction;
    simpl; eexists; reflexivity.
Qed.

Lemma nth_error_array_mul (a b : list float) (i : nat) (x y : float) :
  nth_error a i = Some x -> nth_error b i = Some y ->
  nth_error (array_mul a b) i = Some (x * y)%float.
Proof.
  revert b i. induction a as [|x0 a IH]; intros [|y0 b] [|i] Ha Hb;
    simpl in *; try discriminate.
  - now injection Ha as ->; injection Hb as ->.
  - now apply IH.
Qed.

Section LogitsFacts.

Variable rng : Type.
Variable default_rng : Z -> rng.
Variable standard_normal : rng -> nat -> list float * rng.

Local Abbreviation engine := (MockEngine rng).

Lemma yielded_no_pattern_ahead (self : engine) (byte_string : bytes)
  (patterns : list bytes) :
  no_pattern_ahead patterns byte_string ->
  yielded self byte_string patterns = Ok [].
Proof.
  induction 1 as [|p patterns Hp _ IH]; cbn [yielded]; [reflexivity|].
  now rewrite Hp.
Qed.

Lemma get_logits_initial (self : engine) (token_ids : list Z)
  (pieces : list bytes) :
  mapM (py_getitem (tokens (tokenizer self))) token_ids = Ok pieces ->
  no_pattern_ahead (byte_patterns self) (concat pieces) ->
  get_logits standard_normal self token_ids
  = Ok (fst (initial_logits standard_normal self),
        set_rand_generator self (snd (initial_logits standard_normal self))).
Proof.
  intros Hp Hno. unfold get_logits. rewrite Hp. cbn [bind].
  destruct (initial_logits standard_normal self) as [l0 g].
  rewrite bias_patterns_spec, (yielded_no_pattern_ahead _ _ _ Hno).
  reflexivity.
Qed.

(** Where no pattern has the bytes of the prefix as a proper prefix (no
    patterns, a prefix that left them, a pattern used up), [get_logits]
    returns the initial scores as they are: minus infinity everywhere
    under [force], the masked samples otherwise. *)
Theorem get_logits_without_pattern_ahead (self : engine)
  (token_ids : list Z) (pieces : list bytes) :
  mapM (py_getitem (tokens (tokenizer self))) token_ids = Ok pieces ->
  no_pattern_ahead (byte_patterns self) (concat pieces) ->
  get_logits standard_normal self token_ids
  = Ok (fst (initial_logits standard_normal self),
        set_rand_generator self (snd (initial_logits standard_normal self))).
Proof. apply get_logits_initial. Qed.


(** Over a non-empty vocabulary of [n] tokens, [get_logits] returns
    exactly when every id is in [-n, n), a negative id counting from the
    end as Python has it; otherwise it raises [IndexError]. *)
Theorem get_logits_fails_out_of_range (self : engine) (token_ids : list Z) :
  tokens (tokenizer self) <> [] ->
  ((exists logits self',
      get_logits standard_normal self token_ids = Ok (logits, self')) <->
   Forall (fun id =>
             (- Z.of_nat (length (tokens (tokenizer self))) <= id
              < Z.of_nat (length (tokens (tokenizer self))))%Z) token_ids) /\
  (forall e, get_logits standard_normal self token_ids = Raise e ->
             e = IndexError).
Proof.
  intros Hne.
  assert (Hbias : forall pieces l0,
            exists r, bias_patterns self (concat pieces) l0 100
                        (byte_patterns self) = Ok r).
  { intros pieces l0. rewrite bias_patterns_spec.
    destruct (yielded_ok _ self (concat pieces) (byte_patterns self) Hne)
      as [ys ->].
    cbn [bind]. now eexists. }
  split; [split|].
  - intros [logits [self' H]].
    destruct (get_logits_inv _ _ _ _ _ _ H) as [pieces [_ [Hp _]]].
    apply mapM_inv in Hp. clear H.
    induction Hp as [|id t ids ts Hid _ IH]; constructor; [|exact IH].
    apply py_getitem_range. now exists t.
  - intros H. unfold get_logits.
    destruct (mapM_ok _ _ (py_getitem (tokens (tokenizer self))) token_ids)
      as [pieces ->].
    { eapply Forall_impl; [|exact H]. intros id Hid.
      now apply py_getitem_range. }
    cbn [bind]. destruct (initial_logits standard_normal self) as [l0 g].
    destruct (Hbias pieces l0) as [[l b] ->]. cbn [bind]. now eexists; eexists.
  - intros e H. unfold get_logits in H.
    destruct (mapM (py_getitem (tokens (tokenizer self))) token_ids)
      as [pieces|e1] eqn:Ep; cbn [bind] in H.
    + destruct (initial_logits standard_normal self) as [l0 g].
      destruct (Hbias pieces l0) as [[l b] Hb]. rewrite Hb in H.
      discriminate.
    + injection H as <-. apply mapM_raise in Ep.
      destruct Ep as [id [_ Hid]]. exact (py_getitem_raise _ _ _ _ Hid).
Qed.

(** Without [force] and with no pattern ahead, the score of a token is
    its sample times 1.0 where its bytes are well-formed UTF-8 and times
    0.0 where they are not: whatever finite sample was drawn, a token
    that is not text scores zero. *)
Theorem invalid_token_scores_zero (tokenizer0 : MockTokenizer)
  (byte_patterns0 : list bytes) (clp : bool) (token_ids : list Z)
  (pieces : list bytes) (i : nat) (t : bytes) (x : float) :
  let self := MockEngine_init default_rng tokenizer0 byte_patterns0 clp false in
  mapM (py_getitem (tokens tokenizer0)) token_ids = Ok pieces ->
  no_pattern_ahead byte_patterns0 (concat pieces) ->
  nth_error (tokens tokenizer0) i = Some t ->
  nth_error (fst (standard_normal (default_rng 42)
                    (length (tokens tokenizer0)))) i = Some x ->
  exists logits self',
    get_logits standard_normal self token_ids = Ok (logits, self') /\
    nth_error logits i
    = Some (x * (if utf8_valid t then 1 else 0))%float /\
    (utf8_valid t = false -> finite_score x ->
     exists y, nth_error logits i = Some y /\ zero_score y).
Proof.
  intros self Hp Hno Ht Hx.
  pose proof (get_logits_initial self token_ids pieces Hp Hno) as Hl.
  eexists. eexists. split; [exact Hl|].
  assert (Hnth : nth_error (fst (initial_logits standard_normal self)) i
                 = Some (x * (if utf8_valid t then 1 else 0))%float).
  { unfold initial_logits. cbn [force self MockEngine_init _rand_generator
                                 tokenizer _valid_mask].
    destruct (standard_normal (default_rng 42) (length (tokens tokenizer0)))
      as [z g]. cbn [fst] in *.
    apply nth_error_array_mul; [exact Hx|].
    rewrite nth_error_map, Ht. reflexivity. }
  split; [exact Hnth|].
  intros Hbad Hfin. rewrite Hbad in Hnth. eexists. split; [exact Hnth|].
  now apply mul_zero_score.
Qed.

End LogitsFacts.

(** ** The entries of [get_per_token_topk_probs] *)

Lemma decode_text_inv (rng : Type) (self : MockEngine rng) (id : Z)
  (b : bytes) :
  decode_text self id = Ok b ->
  decode (tokenizer self) [id] = Ok b /\ utf8_valid b = true.
Proof.
  unfold decode_text. destruct (decode (tokenizer self) [id]) as [b'|e];
    cbn [bind]; [|discriminate].
  destruct (utf8_valid b') eqn:E; [|discriminate].
  intros H. injection H as <-. now split.
Qed.

Lemma In_candidates (argsort : list float -> list nat) (logits : list float)
  (top_k actual : Z) :
  In actual (candidates argsort logits top_k actual).
Proof.
  unfold candidates.
  destruct (existsb (Z.eqb actual) (top_k_ids argsort logits top_k)) eqn:E.
  - apply existsb_exists in E. destruct E as [c [Hin Hc]].
    apply Z.eqb_eq in Hc. now subst c.
  - apply in_or_app. right. now left.
Qed.

Section Entries.

Variable rng : Type.
Variable standard_normal : rng -> nat -> list float * rng.
Variable argsort : list float -> list nat.
Variable softmax : list float -> list float.

Local Abbreviation engine := (MockEngine rng).
Local Abbreviation position := (topk_position standard_normal argsort softmax).
Local Abbreviation loop := (topk_loop standard_normal argsort softmax).
Local Abbreviation per_token :=
  (get_per_token_topk_probs standard_normal argsort softmax).
Local Abbreviation turn := (turn standard_normal argsort softmax).
Local Abbreviation reports := (reports standard_normal argsort softmax).

Lemma alternatives_inv (self : engine) (logits : list float)
  (cands : list Z) (res : list GenToken.t) :
  mapM (fun token_id =>
          p <- py_getitem (softmax logits) token_id ;;
          b <- decode_text self token_id ;;
          Ok {| GenToken.token_id := token_id;
                GenToken.prob := Some p;
                GenToken.bytes := b |}) cands = Ok res ->
  map GenToken.token_id res = cands /\
  Forall (alternative_of softmax (tokenizer self) logits) res.
Proof.
  intros H. apply mapM_inv in H.
  induction H as [|c g cands res Hc _ [IH1 IH2]]; [split; constructor|].
  destruct (py_getitem (softmax logits) c) as [p|e] eqn:Ep; cbn [bind] in Hc;
    [|discriminate].
  destruct (decode_text self c) as [b|e] eqn:Eb; cbn [bind] in Hc;
    [|discriminate].
  injection Hc as <-. destruct (decode_text_inv _ _ _ _ Eb) as [Hd Hu].
  split; [simpl; now rewrite IH1|].
  constructor; [|exact IH2]. exists p, b. simpl. repeat split; assumption.
Qed.

Lemma topk_position_turn (self self' : engine) (token_ids : list Z)
  (top_k : Z) (i : nat) (entry : GenTokenExtra.t) :
  position self token_ids top_k i = Ok (entry, self') ->
  turn (tokenizer self) token_ids top_k i entry /\
  tokenizer self' = tokenizer self.
Proof.
  unfold topk_position. intros H.
  destruct (py_getitem token_ids (Z.of_nat i)) as [actual|e] eqn:Ea;
    cbn [bind] in H; [|discriminate].
  destruct (get_logits standard_normal self (firstn i token_ids))
    as [[logits self1]|e] eqn:El; cbn [bind] in H; [|discriminate].
  destruct (mapM _ (candidates argsort logits top_k actual)) as [res|e] eqn:Er;
    cbn [bind] in H; [|discriminate].
  destruct (py_getitem (softmax logits) _) as [p|e]; cbn [bind] in H;
    [|discriminate].
  destruct (decode_text self _) as [b|e]; cbn [bind] in H; [|discriminate].
  injection H as <- <-.
  destruct (alternatives_inv _ _ _ _ Er) as [Hids Halt].
  split.
  - exists self, self1, actual, logits. split; [reflexivity|].
    split; [now apply py_getitem_nth_error|]. split; [exact El|].
    split; assumption.
  - destruct (get_logits_inv _ _ _ _ _ _ El) as [_ [_ [_ [_ [_ ->]]]]].
    reflexivity.
Qed.

Lemma topk_loop_turns (token_ids : list Z) (top_k : Z) (positions : list nat)
  (self self' : engine) (entries : list GenTokenExtra.t) :
  loop self token_ids top_k positions = Ok (entries, self') ->
  Forall2 (turn (tokenizer self) token_ids top_k) positions entries.
Proof.
  revert self entries. induction positions as [|i positions IH];
    intros self entries H; cbn [topk_loop] in H.
  - injection H as <- _. constructor.
  - destruct (position self token_ids top_k i) as [[entry self1]|e] eqn:E1;
      cbn [bind] in H; [|discriminate].
    destruct (loop self1 token_ids top_k positions) as [[rest self2]|e] eqn:E2;
      cbn [bind] in H; [|discriminate].
    injection H as <- <-.
    destruct (topk_position_turn _ _ _ _ _ _ E1) as [Hturn Htk].
    constructor; [exact Hturn|]. rewrite <- Htk. exact (IH _ _ E2).
Qed.

(** The whole of what [get_per_token_topk_probs] returns for a
    non-empty input. *)
Lemma per_token_turns (self self' : engine) (first : Z) (ids : list Z)
  (top_k : Z) (entries : list GenTokenExtra.t) :
  per_token self (first :: ids) top_k = Ok (entries, self') ->
  let walked := fst (with_bos self (first :: ids)) in
  exists t0 b0 rest,
    nth_error walked 0 = Some t0 /\
    decode_text self t0 = Ok b0 /\
    Forall2 (turn (tokenizer self) walked top_k)
            (range 1 (length walked)) rest /\
    Forall2 (reports walked top_k) (range 1 (length walked)) rest /\
    entries = if snd (with_bos self (first :: ids)) then rest
              else anchor_entry t0 b0 :: rest.
Proof.
  intros H walked. unfold get_per_token_topk_probs in H.
  destruct (bos_token (tokenizer self)) as [bos|e]; cbn [bind] in H;
    [|discriminate].
  subst walked.
  destruct (with_bos self (first :: ids)) as [ids' added]. cbn [fst snd].
  destruct (py_getitem ids' 0) as [t0|e] eqn:E0; cbn [bind] in H;
    [|discriminate].
  destruct (decode_text self t0) as [b0|e] eqn:Eb; cbn [bind] in H;
    [|discriminate].
  destruct (loop self ids' top_k (range 1 (length ids')))
    as [[rest self2]|e] eqn:E; cbn [bind] in H; [|discriminate].
  injection H as <- _. exists t0, b0, rest.
  split; [exact (py_getitem_nth_error _ ids' 0 t0 E0)|].
  split; [exact Eb|].
  split; [exact (topk_loop_turns _ _ _ _ _ _ E)|].
  split; [exact (topk_loop_inv _ _ _ _ _ _ _ _ _ _ E)|].
  destruct added; reflexivity.
Qed.

Lemma entry_of_position (A : Type) (a0 : A) (rest : list A) (added : bool)
  (i : nat) (a : A) :
  1 <= i -> nth_error rest (i - 1) = Some a ->
  nth_error (if added then rest else a0 :: rest)
            (i - (if added then 1 else 0)) = Some a.
Proof.
  intros Hi H. destruct added; [exact H|].
  rewrite Nat.sub_0_r. destruct i as [|i]; [lia|].
  replace (S i - 1) with i in H by lia. exact H.
Qed.

Lemma position_in_range (n i : nat) :
  1 <= i -> i < n -> nth_error (range 1 n) (i - 1) = Some i.
Proof.
  intros H1 H2. unfold range. rewrite nth_error_seq.
  destruct (Nat.ltb_spec (i - 1) (n - 1)); [|lia]. f_equal. lia.
Qed.




(** Whenever the call returns, the bytes of every token of the input
    are well-formed UTF-8: an input with a token that is not text (a
    lone byte above 0x7f of the vocabulary of [Mock], say) makes the
    call raise. *)
Theorem per_token_needs_text_tokens (self self' : engine)
  (token_ids : list Z) (top_k : Z) (entries : list GenTokenExtra.t) :
  per_token self token_ids top_k = Ok (entries, self') ->
  Forall (fun id => exists b, decode (tokenizer self) [id] = Ok b /\
                              utf8_valid b = true) token_ids.
Proof.
  intros H. destruct token_ids as [|first ids]; [constructor|].
  destruct (per_token_turns _ _ _ _ _ _ H)
    as [t0 [b0 [rest [H0 [Hb [Hall _]]]]]].
  set (walked := fst (with_bos self (first :: ids))) in *.
  assert (Hwalked : Forall (fun id => exists b,
                      decode (tokenizer self) [id] = Ok b /\
                      utf8_valid b = true) walked).
  { apply Forall_forall. intros id Hin.
    apply In_nth_error in Hin. destruct Hin as [i Hi].
    destruct i as [|i].
    - assert (id = t0) by congruence. subst id.
      destruct (decode_text_inv _ _ _ _ Hb) as [Hd Hu]. now exists b0.
    - assert (Hlen : S i < length walked)
        by (apply nth_error_Some; congruence).
      destruct (Forall2_nth_error_l _ _ _ _ _ _ _ Hall
                  (position_in_range _ (S i) (le_n_S _ _ (Nat.le_0_l i)) Hlen))
        as [entry [_ [s1 [s2 [actual [logits [_ [Ha [_ [Hids Halt]]]]]]]]]].
      assert (actual = id) by congruence. subst actual.
      pose proof (In_candidates argsort logits top_k id) as Hin.
      rewrite <- Hids in Hin. apply in_map_iff in Hin.
      destruct Hin as [g [Hg Hin]].
      rewrite Forall_forall in Halt.
      destruct (Halt g Hin) as [p [b [_ [_ [Hd [Hu _]]]]]].
      rewrite Hg in Hd. now exists b. }
  unfold walked, with_bos in Hwalked.
  destruct (negb _); cbn [fst] in Hwalked; [now inversion Hwalked|].
  exact Hwalked.
Qed.

End Entries.

(** [argsort(_logits)[-top_k:][::-1]]: for a positive [top_k] the last
    [top_k] positions of the sort, best first (all of them where there
    are fewer); for [top_k = 0] the slice [[-0:]] is the whole array, so
    every position is listed; for a negative [top_k] the lowest
    [-top_k] positions are dropped. *)
Theorem top_k_ids_slices (argsort : list float -> list nat)
  (logits : list float) (top_k : Z) :
  let sorted := argsort logits in
  top_k_ids argsort logits 0 = map Z.of_nat (rev sorted) /\
  ((0 < top_k)%Z ->
   top_k_ids argsort logits top_k
   = map Z.of_nat (rev (skipn (length sorted - Z.to_nat top_k) sorted)) /\
   length (top_k_ids argsort logits top_k)
   = Nat.min (Z.to_nat top_k) (length sorted)) /\
  ((top_k < 0)%Z ->
   top_k_ids argsort logits top_k
   = map Z.of_nat (rev (skipn (Z.to_nat (- top_k)) sorted))).
Proof.
  intros sorted. unfold top_k_ids, slice_from. fold sorted.
  split.
  { replace (Z.to_nat (if (- 0 <? 0)%Z
                       then Z.max 0 (- 0 + Z.of_nat (length sorted))
                       else Z.min (- 0) (Z.of_nat (length sorted))))
      with 0 by (simpl; lia).
    reflexivity. }
  split.
  - intros Hk. destruct (Z.ltb_spec (- top_k) 0); [|lia].
    replace (Z.to_nat (Z.max 0 (- top_k + Z.of_nat (length sorted))))
      with (length sorted - Z.to_nat top_k) by lia.
    split; [reflexivity|].
    rewrite length_map, length_rev, length_skipn. lia.
  - intros Hk. destruct (Z.ltb_spec (- top_k) 0); [lia|].
    destruct (Z.le_gt_cases (- top_k) (Z.of_nat (length sorted))) as [Hle|Hgt].
    + now rewrite Z.min_l by lia.
    + rewrite Z.min_r by lia. rewrite Nat2Z.id.
      now rewrite !skipn_all2 by lia.
Qed.

(** ** Sampling between calls *)

Section Sampling.

Variable rng : Type.
Variable standard_normal : rng -> nat -> list float * rng.
Variable Engine_sample_with_temperature :
  list float -> option bytes -> float -> Z.
Variable EngineOutput : Type.
Variable Engine_get_next_token_with_top_k :
  option (list float) -> option float -> list Z -> option bytes -> float ->
  Z -> bool -> EngineOutput.

Local Abbreviation engine := (MockEngine rng).

Lemma record_temperature_same (e : engine) (temperature : float) :
  same_configuration (record_temperature e temperature) e.
Proof. unfold same_configuration. simpl. tauto. Qed.


End Sampling.

(** The table of a trie does not depend on the order in which two
    different byte strings are inserted: the values stored and the nodes
    present are the same (the order of the keys of a node may differ). *)
Theorem insert_order_of_distinct_strings (F : Type) (fzero : F)
  (s1 s2 : bytes) (v1 v2 : Z) (t : ByteTrie F) :
  s1 <> s2 ->
  forall p,
    value_at (insert fzero s1 v1 (insert fzero s2 v2 t)) p
    = value_at (insert fzero s2 v2 (insert fzero s1 v1 t)) p /\
    has_node (insert fzero s1 v1 (insert fzero s2 v2 t)) p
    = has_node (insert fzero s2 v2 (insert fzero s1 v1 t)) p.
Proof.
  intros Hne p. split.
  - rewrite !value_at_insert.
    assert (E12 : bytes_eqb s1 s2 = false) by now apply bytes_eqb_neq.
    assert (E21 : bytes_eqb s2 s1 = false)
      by (apply bytes_eqb_neq; congruence).
    rewrite E12, E21.
    destruct (bytes_eqb p s1) eqn:E1; destruct (bytes_eqb p s2) eqn:E2;
      try reflexivity.
    apply bytes_eqb_eq in E1. apply bytes_eqb_eq in E2. congruence.
  - rewrite !has_node_insert.
    now rewrite <- !orb_assoc, (orb_comm (startswith s2 p)).
Qed.

(** ** The further properties on concrete inputs *)

(** "a" inserted under -2 and then under 5 ends up under 5. *)
Lemma insert_negative_is_replaced_witness :
  let t := ByteTrie_new 0%float in
  (-2 < 0)%Z /\ (value_at t [Byte.x61] < 0)%Z /\
  value_at (insert 0%float [Byte.x61] (-2) t) [Byte.x61] = (-2)%Z /\
  value_at (insert 0%float [Byte.x61] 5
              (insert 0%float [Byte.x61] (-2) t)) [Byte.x61] = 5%Z.
Proof.
  intros t.
  assert (H1 : (-2 < 0)%Z) by lia.
  assert (H2 : (value_at t [Byte.x61] < 0)%Z) by (vm_compute; reflexivity).
  split; [exact H1|]. split; [exact H2|].
  exact (insert_negative_is_replaced float 0%float [Byte.x61] (-2) 5 t H1 H2).
Defined.

(** The trie of "a", "ab" before and after [compute_probs]. *)
Lemma compute_probs_keeps_lookups_witness :
  let t := byte_trie (tokenizer_of [[Byte.x61]; [Byte.x61; Byte.x62]]) in
  let probs := [0.5; 0.5]%float in
  exists t',
    compute_probs 0%float PrimFloat.add probs t = Ok t' /\
    (forall p, value_at t' p = value_at t p) /\
    (forall p, has_node t' p = has_node t p) /\
    keys t' = keys t /\
    (forall rest match_pos last_match,
       walk t' rest match_pos last_match = walk t rest match_pos last_match).
Proof.
  intros t probs.
  destruct (compute_probs 0%float PrimFloat.add probs t) as [t'|e] eqn:E;
    [|vm_compute in E; discriminate].
  exists t'. split; [reflexivity|].
  exact (compute_probs_keeps_lookups float 0%float PrimFloat.add probs t t' E).
Defined.

(** Over the vocabulary of the greedy scenario, "ab" is encoded as its
    id 2 and the empty input as no id. *)
Lemma encode_returns_vocabulary_ids_witness :
  MockTokenizer_init Greedy_tokens None = Ok (tokenizer_of Greedy_tokens) /\
  encode (tokenizer_of Greedy_tokens) [] true = Some (Ok []) /\
  encode (tokenizer_of Greedy_tokens) [Byte.x61; Byte.x62] true
  = Some (Ok [2%Z]).
Proof.
  assert (Hinit : MockTokenizer_init Greedy_tokens None
                  = Ok (tokenizer_of Greedy_tokens))
    by (vm_compute; reflexivity).
  split; [exact Hinit|].
  destruct (encode_returns_vocabulary_ids Greedy_tokens None
              (tokenizer_of Greedy_tokens) Hinit) as [_ [H1 H2]].
  split; [exact H1|].
  apply (H2 [Byte.x61; Byte.x62]); [|discriminate].
  right. right. left. reflexivity.
Defined.

(** For "cat" the engine of [Mock] yields "ca" and "c"; for "<s>ab"
    only the beginning-of-sequence token. *)
Lemma _get_next_tokens_yields_witness :
  let e := Mock_engine [] false false in
  tokens (tokenizer e)
  = [Byte.x3c; Byte.x73; Byte.x3e] :: (all_lc_pairs ++ all_bytes) /\
  _get_next_tokens e bos_ab = Ok [0] /\
  exists ids,
    _get_next_tokens e cat = Ok ids /\
    (forall i, In i ids <->
               exists t, nth_error (tokens (tokenizer e)) i = Some t /\
                         startswith cat t = true) /\
    StronglySorted lt ids.
Proof.
  intros e.
  assert (Htoks : tokens (tokenizer e)
            = [Byte.x3c; Byte.x73; Byte.x3e] :: (all_lc_pairs ++ all_bytes))
    by reflexivity.
  split; [exact Htoks|].
  split.
  - exact (proj1 (_get_next_tokens_yields Standin.rng e bos_ab _ _ Htoks)
                 eq_refl).
  - exact (proj2 (_get_next_tokens_yields Standin.rng e cat _ _ Htoks)
                 eq_refl).
Defined.

(** Once "cat" is used up, the forcing engine for "cat" returns minus
    infinity everywhere. *)
Lemma get_logits_without_pattern_ahead_witness :
  let e := Mock_engine [cat] false true in
  mapM (py_getitem (tokens (tokenizer e))) [51%Z; 742%Z]
  = Ok [[Byte.x63; Byte.x61]; [Byte.x74]] /\
  no_pattern_ahead (byte_patterns e) cat /\
  get_logits Standin.standard_normal e [51%Z; 742%Z]
  = Ok (fst (initial_logits Standin.standard_normal e),
        set_rand_generator e (snd (initial_logits Standin.standard_normal e))).
Proof.
  intros e.
  assert (Hp : mapM (py_getitem (tokens (tokenizer e))) [51%Z; 742%Z]
               = Ok [[Byte.x63; Byte.x61]; [Byte.x74]])
    by (vm_compute; reflexivity).
  assert (Hno : no_pattern_ahead (byte_patterns e)
                  (concat [[Byte.x63; Byte.x61]; [Byte.x74]]))
    by (constructor; [reflexivity | constructor]).
  split; [exact Hp|]. split; [exact Hno|].
  exact (get_logits_without_pattern_ahead Standin.rng
           Standin.standard_normal e [51%Z; 742%Z] _ Hp Hno).
Defined.


(** The engine of [Mock] takes the id -1 for its last token and refuses
    the id 882. *)
Lemma get_logits_fails_out_of_range_witness :
  let e := Mock_engine [] false false in
  tokens (tokenizer e) <> [] /\
  (exists logits e',
     get_logits Standin.standard_normal e [(-1)%Z] = Ok (logits, e')) /\
  get_logits Standin.standard_normal e [882%Z] = Raise IndexError.
Proof.
  intros e.
  assert (Hne : tokens (tokenizer e) <> []) by discriminate.
  split; [exact Hne|].
  split.
  - apply (proj1 (get_logits_fails_out_of_range Standin.rng
                    Standin.standard_normal e [(-1)%Z] Hne)).
    constructor; [vm_compute; split; [discriminate | reflexivity]
                 | constructor].
  - destruct (get_logits Standin.standard_normal e [882%Z])
      as [[logits e']|x] eqn:E.
    + vm_compute in E. discriminate.
    + now rewrite (proj2 (get_logits_fails_out_of_range Standin.rng
                            Standin.standard_normal e [882%Z] Hne) x E).
Defined.

(** The token of the lone byte 0xff of [Mock], id 881, scores zero. *)
Lemma invalid_token_scores_zero_witness :
  let e := Mock_engine [] false false in
  exists x,
    nth_error (fst (Standin.standard_normal (Standin.default_rng 42)
                      (length (tokens Mock_tokenizer)))) 881 = Some x /\
    finite_score x /\
    nth_error (tokens Mock_tokenizer) 881 = Some [Byte.xff] /\
    utf8_valid [Byte.xff] = false /\
    exists logits e',
      get_logits Standin.standard_normal e [] = Ok (logits, e') /\
      exists y, nth_error logits 881 = Some y /\ zero_score y.
Proof.
  intros e.
  destruct (nth_error (fst (Standin.standard_normal (Standin.default_rng 42)
                              (length (tokens Mock_tokenizer)))) 881)
    as [x|] eqn:Hx; [|vm_compute in Hx; discriminate].
  assert (Hfin : finite_score x).
  { vm_compute in Hx. injection Hx as <-. vm_compute. exact I. }
  assert (Ht : nth_error (tokens Mock_tokenizer) 881 = Some [Byte.xff])
    by reflexivity.
  exists x. split; [reflexivity|]. split; [exact Hfin|].
  split; [exact Ht|]. split; [reflexivity|].
  destruct (invalid_token_scores_zero Standin.rng Standin.default_rng
              Standin.standard_normal Mock_tokenizer [] false [] [] 881
              [Byte.xff] x eq_refl (Forall_nil _) Ht Hx)
    as [logits [e' [Hl [_ Hz]]]].
  exists logits, e'. split; [exact Hl|]. exact (Hz eq_refl Hfin).
Defined.




Lemma per_token_needs_text_tokens_witness :
  exists entries e',
    get_per_token_topk_probs Standin.standard_normal Standin.argsort
      Standin.softmax Text_engine [1%Z; 3%Z] 5 = Ok (entries, e') /\
    Forall (fun id => exists b,
              decode (tokenizer Text_engine) [id] = Ok b /\
              utf8_valid b = true) [1%Z; 3%Z].
Proof.
  destruct (get_per_token_topk_probs Standin.standard_normal Standin.argsort
              Standin.softmax Text_engine [1%Z; 3%Z] 5)
    as [[entries e']|x] eqn:E; [|vm_compute in E; discriminate].
  exists entries, e'. split; [reflexivity|].
  exact (per_token_needs_text_tokens Standin.rng Standin.standard_normal
           Standin.argsort Standin.softmax Text_engine e' [1%Z; 3%Z] 5
           entries E).
Defined.

(** On the vocabulary of [Mock] a walk over the lone byte 0xff raises. *)
Example per_token_raises_on_byte_token :
  exists x,
    get_per_token_topk_probs Standin.standard_normal Standin.argsort
      Standin.softmax (Mock_engine [] false false) [881%Z] 5 = Raise x.
Proof. eexists. vm_compute. reflexivity. Qed.

(** "ab" and "b" inserted in either order. *)
Lemma insert_order_of_distinct_strings_witness :
  let ab := [Byte.x61; Byte.x62] in
  let b := [Byte.x62] in
  let t := ByteTrie_new 0%float in
  ab <> b /\
  forall p,
    value_at (insert 0%float ab 1 (insert 0%float b 2 t)) p
    = value_at (insert 0%float b 2 (insert 0%float ab 1 t)) p /\
    has_node (insert 0%float ab 1 (insert 0%float b 2 t)) p
    = has_node (insert 0%float b 2 (insert 0%float ab 1 t)) p.
Proof.
  intros ab b t.
  assert (Hne : ab <> b) by discriminate.
  split; [exact Hne|].
  exact (insert_order_of_distinct_strings float 0%float ab b 1 2 t Hne).
Defined.

(** The trie of "cat" and "cow" has a node for "c" and none for "a". *)
Lemma trie_nodes_are_prefixes_witness :
  exists t : ByteTrie float,
    ByteTrie_init 0%float (Some [cat; cow]) None = Ok t /\
    has_node t [Byte.x63] = true /\ has_node t [Byte.x61] = false.
Proof.
  destruct (ByteTrie_init 0%float (Some [cat; cow]) None) as [t|e] eqn:E;
    [|vm_compute in E; discriminate].
  exists t. split; [reflexivity|].
  pose proof (proj2 (trie_nodes_are_prefixes float 0%float)
                [cat; cow] None t) as H.
  split; [rewrite (H [Byte.x63] E) | rewrite (H [Byte.x61] E)]; reflexivity.
Defined.

(** Two byte strings with two values, and with one value too few. *)
Lemma ByteTrie_init_accepts_witness :
  (exists t : ByteTrie float,
     ByteTrie_init 0%float (Some [cat; cow]) (Some [4%Z; 7%Z]) = Ok t) /\
  ByteTrie_init 0%float (Some [cat; cow]) (Some [4%Z]) = Raise IndexError.
Proof.
  pose proof (proj2 (proj2 (ByteTrie_init_accepts float 0%float)) [cat; cow])
    as H.
  split.
  - apply (proj2 (proj1 (H [4%Z; 7%Z]))). simpl. lia.
  - destruct (ByteTrie_init 0%float (Some [cat; cow]) (Some [4%Z]))
      as [t|e] eqn:E.
    + exfalso.
      pose proof (proj1 (proj1 (H [4%Z])) (ex_intro _ t E)) as Hlen.
      simpl in Hlen. lia.
    + f_equal. exact (proj2 (H [4%Z]) e E).
Defined.

(** The root of the trie of "cat" and "cow" has the one key "c". *)
Lemma children_keys_distinct_witness :
  exists t : ByteTrie float,
    ByteTrie_init 0%float (Some [cat; cow]) None = Ok t /\
    keys_unique t /\ keys t = [Byte.x63].
Proof.
  destruct (ByteTrie_init 0%float (Some [cat; cow]) None) as [t|e] eqn:E;
    [|vm_compute in E; discriminate].
  exists t. split; [reflexivity|]. split.
  - exact (proj2 (proj2 (children_keys_distinct float 0%float))
             (Some [cat; cow]) None t E).
  - vm_compute in E. injection E as <-. reflexivity.
Defined.

(** The trie of "a", "ab" with two probabilities, and with one. *)
Lemma compute_probs_fails_out_of_range_witness :
  let t := byte_trie (tokenizer_of [[Byte.x61]; [Byte.x61; Byte.x62]]) in
  (exists t', compute_probs 0%float PrimFloat.add [0.5; 0.5]%float t = Ok t') /\
  compute_probs 0%float PrimFloat.add [0.5]%float t = Raise IndexError.
Proof.
  intros t.
  assert (Hv : terminal_values t = [0%Z; 1%Z]) by (vm_compute; reflexivity).
  split.
  - apply (proj2 (proj1 (compute_probs_fails_out_of_range float 0%float
                           PrimFloat.add [0.5; 0.5]%float t))).
    rewrite Hv. repeat (constructor; [simpl; lia|]). constructor.
  - destruct (compute_probs 0%float PrimFloat.add [0.5]%float t)
      as [t'|e] eqn:E.
    + exfalso.
      pose proof (proj1 (proj1 (compute_probs_fails_out_of_range float
                                  0%float PrimFloat.add [0.5]%float t))
                    (ex_intro _ t' E)) as H.
      rewrite Hv in H. inversion H as [|? ? _ H1]; subst.
      inversion H1 as [|? ? H2 _]; subst. simpl in H2. lia.
    + f_equal.
      exact (proj2 (compute_probs_fails_out_of_range float 0%float
                      PrimFloat.add [0.5]%float t) e E).
Defined.

(** The second token of the vocabulary of [Mock] is encoded as id 1. *)
Lemma Mock_tokenizer_encodes_everything_witness :
  exists e t,
    Mock_init Standin.default_rng [] false false = Ok e /\
    nth_error Mock_tokens 1 = Some t /\
    encode (tokenizer e) t true = Some (Ok [1%Z]).
Proof.
  destruct (Mock_tokenizer_encodes_everything Standin.rng Standin.default_rng
              [] false false) as [e [H1 [_ [_ H4]]]].
  destruct (nth_error Mock_tokens 1) as [t|] eqn:E;
    [|vm_compute in E; discriminate].
  exists e, t. split; [exact H1|]. split; [reflexivity|].
  exact (H4 1 t E).
Defined.

(** The two best of three scores. *)
Lemma top_k_ids_slices_witness :
  let logits := [1; 3; 2]%float in
  (0 < 2)%Z /\
  length (top_k_ids Standin.argsort logits 2) = 2.
Proof.
  intros logits.
  assert (H : (0 < 2)%Z) by lia.
  split; [exact H|].
  rewrite (proj2 (proj1 (proj2 (top_k_ids_slices Standin.argsort logits 2))
                   H)).
  vm_compute. reflexivity.
Defined.
